(** * A byte trie with bounded, directional range iteration

    Shallow embedding of the pointer trie ([node], [Put], [Get], [Delete],
    [Range]) and of the traversal engine it is walked with.

    Conventions of the embedding:
    - a Go [byte] is a [Byte.byte]; bytes are ordered by [Byte.to_N];
    - a Go [[]byte] that may be [nil] is an [option (list byte)];
    - a [*node[V]] owned by its parent is the sub-tree itself; a mutation
      through the pointer is a functional update of that sub-tree;
    - a pointer kept aside while walking (the prune anchor of [Delete]) is
      the list of child indices that leads to it from the root;
    - a Go [panic] is the [Panicked] outcome;
    - an [iter.Seq] is a function that pushes its elements into a [yield]
      which threads the consumer's state and answers whether to go on. *)

From Stdlib Require Import Strings.Byte NArith ZArith Lia.
From Stdlib Require Import Strings.String.
From stdpp Require Import base list sorting.

Set Default Proof Using "Type".
Local Open Scope nat_scope.

(** ** Bytes and keys *)

Definition byte_ltb (a b : byte) : bool := (Byte.to_N a <? Byte.to_N b)%N.
Definition byte_eqb (a b : byte) : bool := Byte.eqb a b.

Definition byte_lt (a b : byte) : Prop := (Byte.to_N a < Byte.to_N b)%N.

(** [bytes.Compare]: lexicographic order, a strict prefix is smaller. *)
Fixpoint bytes_Compare (a b : list byte) : comparison :=
  match a, b with
  | [], [] => Eq
  | [], _ :: _ => Lt
  | _ :: _, [] => Gt
  | x :: a', y :: b' =>
      if byte_ltb x y then Lt
      else if byte_ltb y x then Gt
      else bytes_Compare a' b'
  end.

Definition key_lt (a b : list byte) : Prop := bytes_Compare a b = Lt.

(** ** Outcomes of a call: a normal return or a panic *)

Inductive outcome (A : Type) : Type :=
| Returned (a : A)
| Panicked (msg : string).
Arguments Returned {A} a.
Arguments Panicked {A} msg.

Global Instance outcome_ret : MRet outcome := fun A a => Returned a.
Global Instance outcome_bind : MBind outcome := fun A B f m =>
  match m with
  | Returned a => f a
  | Panicked msg => Panicked msg
  end.

(** ** Bounds *)

(** Modelled from the spec: the direction of a [Bounds], forward (ascending)
    or reverse (descending); the type is not among the sources. *)
Inductive direction : Type := forward | reverse.

(** Modelled from the spec: an edge of a [Bounds], its key and whether the
    key itself is inside; the type is not among the sources. *)
Record edge : Type := Edge { edgeKey : list byte; inclusive : bool }.

(** Modelled from the spec: the [Bounds] type is not among the sources. A
    directional range descriptor: a direction and the two anchors its
    constructors take, each absent ([None]) when the range is unbounded on
    that side. The anchor named first ([From]) is always inclusive and the
    terminal anchor ([To], [DownTo]) always exclusive, whatever the
    direction. *)
Record Bounds : Type :=
  MkBounds { dir : direction;
             anchor : option (list byte);
             terminal : option (list byte) }.

(** Modelled from the spec: the low edge of a [Bounds] in ascending key
    order, unbounded ([None]) or a key with its inclusive flag: the anchor,
    inclusive, of a forward range; the terminal anchor, exclusive, of a
    reverse range. *)
Definition low (b : Bounds) : option edge :=
  match dir b with
  | forward => (fun k => Edge k true) <$> anchor b
  | reverse => (fun k => Edge k false) <$> terminal b
  end.

(** Modelled from the spec: the high edge of a [Bounds] in ascending key
    order: the terminal anchor, exclusive, of a forward range; the anchor,
    inclusive, of a reverse range. *)
Definition high (b : Bounds) : option edge :=
  match dir b with
  | forward => (fun k => Edge k false) <$> terminal b
  | reverse => (fun k => Edge k true) <$> anchor b
  end.

(** Modelled from the spec: the constructors of [Bounds] are not among the
    sources. [From k] begins a forward range that includes [k]; [To] closes
    it with an exclusive high edge; [DownTo] turns it into the reverse range
    that starts at the anchor of [From], inclusive, and ends just above its
    own key, exclusive. The two sentinels are unbounded on both sides. *)
Definition From (k : list byte) : Bounds := MkBounds forward (Some k) None.

Definition To (b : Bounds) (endKey : list byte) : Bounds :=
  MkBounds forward (anchor b) (Some endKey).

Definition DownTo (b : Bounds) (endKey : list byte) : Bounds :=
  MkBounds reverse (anchor b) (Some endKey).

Definition forwardAll : Bounds := MkBounds forward None None.
Definition reverseAll : Bounds := MkBounds reverse None None.

(** Modelled from the spec: [Bounds.IsReverse] and [Bounds.Clone] are not
    among the sources. A [Bounds] is an immutable value; its clone is the
    same value. *)
Definition IsReverse (b : Bounds) : bool :=
  match dir b with reverse => true | forward => false end.

Definition Clone (b : Bounds) : Bounds := b.

(** Modelled from the spec: the low edge of [Bounds.Compare], which is not
    among the sources. The key satisfies the low edge: it is above the edge
    key, or it is the edge key and the edge is inclusive; an unbounded edge
    is always satisfied. *)
Definition above_low (b : Bounds) (k : list byte) : bool :=
  match low b with
  | None => true
  | Some e =>
      match bytes_Compare k (edgeKey e) with
      | Gt => true
      | Eq => inclusive e
      | Lt => false
      end
  end.

(** Modelled from the spec: the high edge of [Bounds.Compare], likewise. *)
Definition below_high (b : Bounds) (k : list byte) : bool :=
  match high b with
  | None => true
  | Some e =>
      match bytes_Compare k (edgeKey e) with
      | Lt => true
      | Eq => inclusive e
      | Gt => false
      end
  end.

(** Modelled from the spec: [Bounds.Compare] is not among the sources. The
    relation of a complete key with the edges in ascending order, whatever
    the direction: negative below the low edge, positive above the high
    edge, zero within; an edge's flag decides for the edge key itself and an
    unbounded edge is always satisfied. *)
Definition Compare (b : Bounds) (k : list byte) : Z :=
  if negb (above_low b k) then (-1)%Z
  else if negb (below_high b k) then 1%Z
  else 0%Z.

(** Modelled from the spec: the cases of [Bounds.childBounds], which is not
    among the sources. How the prefix accumulated so far stands with respect
    to an edge key. *)
Inductive edge_state : Type :=
| Diverged_below           (* a byte of the prefix is smaller: prefix < edge key *)
| Diverged_above           (* a byte of the prefix is larger, or the prefix
                              continues past the edge key: prefix > edge key *)
| Next_byte (x : byte)     (* the prefix is a strict prefix of the edge key,
                              which goes on with [x] *)
| Reached.                 (* the prefix is the edge key *)

(** Modelled from the spec: the comparison of the accumulated prefix with
    an edge key in [Bounds.childBounds], byte by byte from the root. *)
Fixpoint edge_at (prefix ek : list byte) : edge_state :=
  match prefix, ek with
  | [], [] => Reached
  | [], x :: _ => Next_byte x
  | _ :: _, [] => Diverged_above
  | p :: prefix', x :: ek' =>
      if byte_ltb p x then Diverged_below
      else if byte_ltb x p then Diverged_above
      else edge_at prefix' ek'
  end.

(** Modelled from the spec: the low side of [Bounds.childBounds]. The
    smallest next byte the low edge allows, or [None] when no key that
    extends the prefix can satisfy it. *)
Definition min_byte (b : Bounds) (prefix : list byte) : option byte :=
  match low b with
  | None => Some Byte.x00
  | Some e =>
      match edge_at prefix (edgeKey e) with
      | Diverged_below => None
      | Next_byte x => Some x
      | Reached | Diverged_above => Some Byte.x00
      end
  end.

(** Modelled from the spec: the high side of [Bounds.childBounds]. The
    largest next byte the high edge allows, or [None]. *)
Definition max_byte (b : Bounds) (prefix : list byte) : option byte :=
  match high b with
  | None => Some Byte.xff
  | Some e =>
      match edge_at prefix (edgeKey e) with
      | Diverged_below => Some Byte.xff
      | Next_byte x => Some x
      | Reached | Diverged_above => None
      end
  end.

(** Modelled from the spec: [Bounds.childBounds] is not among the sources.
    The bounds-narrowing step for the children of the node the prefix leads
    to. Each edge gives its governing byte: unconstrained while the prefix
    is on the satisfied side of the edge key, the next byte of the edge key
    while the prefix is a strict prefix of it, nothing allowed once the
    prefix is on the violating side; a prefix that is the edge key has all
    its extensions above that key. The callers take the result as
    [(start, stop, ok)] and walk from [start] to [stop] in the direction of
    the bounds, so a reverse [Bounds] answers the largest byte first. *)
Definition childBounds (b : Bounds) (prefix : list byte) : byte * byte * bool :=
  match min_byte b prefix, max_byte b prefix with
  | Some lo, Some hi =>
      if byte_ltb hi lo then (Byte.x00, Byte.x00, false)
      else if IsReverse b then (hi, lo, true)
      else (lo, hi, true)
  | _, _ => (Byte.x00, Byte.x00, false)
  end.

(** ** Sequences and the traversal engine *)

(** [iter.Seq[T]]: the sequence pushes its elements into [yield]; the state
    of the consumer is threaded through, and [yield] answers [false] to stop
    the sequence. *)
Definition Seq (T : Type) : Type :=
  forall S : Type, (T -> S -> S * bool) -> S -> S.

(** [iter.Seq2[K, V]] *)
Definition Seq2 (K W : Type) : Type :=
  forall S : Type, (K -> W -> S -> S * bool) -> S -> S.

(** Modelled from the spec: [emptySeq] is not among the sources. The
    sequence of a sub-tree that is cut off: it yields nothing. *)
Definition emptySeq {T : Type} : Seq T := fun S yield s => s.

(** The engine as [traversers.go] has it: the walk carries the path from the
    root, hands it to [adj] and yields it. The recursion of the engine is as
    deep as the walked graph; the embedding gives it [fuel] levels, and is
    the walk of the code where the fuel is at least that depth: from there
    on more fuel changes nothing ([Paths_enough_fuel], and [enough_fuel]
    for the walk of [Range]); with less, the walk of the embedding is cut
    short where the code goes on. The answer is the state of the consumer and whether the walk is done, that
    is, whether some [yield] has answered [false]; the body of the
    [for ... range] loop leaves the loop, and the function, as soon as the
    walk below a node is done. *)
Module Paths.

Definition adjFunction (T : Type) : Type := list T -> Seq T.

Fixpoint preOrderRecurse {T S : Type} (fuel : nat) (path : list T)
    (adj : adjFunction T) (yield : list T -> S -> S * bool) (s : S) : S * bool :=
  match fuel with
  | O => (s, false)
  | S fuel' =>
      let '(s1, ok) := yield path s in
      if negb ok then (s1, true)
      else
        adj path (S * bool)%type
          (fun node '(s2, _) =>
             let '(s3, done) :=
               preOrderRecurse fuel' (path ++ [node]) adj yield s2 in
             ((s3, done), negb done))
          (s1, false)
  end.

Definition preOrder {T : Type} (fuel : nat) (root : T) (adj : adjFunction T)
  : Seq (list T) :=
  fun S yield s => fst (preOrderRecurse fuel [root] adj yield s).

End Paths.

(** The adjacency functions of the pointer trie take the last node of the
    path, which carries its own key prefix. *)
Definition adjFunction (T : Type) : Type := T -> Seq T.

(** The engine as [Range] calls it, on nodes: [Paths.preOrderRecurse] with
    the path reduced to its last node. *)
Fixpoint preOrderRecurse {T S : Type} (fuel : nat) (node : T) (adj : adjFunction T)
    (yield : T -> S -> S * bool) (s : S) : S * bool :=
  match fuel with
  | O => (s, false)
  | S fuel' =>
      let '(s1, ok) := yield node s in
      if negb ok then (s1, true)
      else
        adj node (S * bool)%type
          (fun child '(s2, _) =>
             let '(s3, done) := preOrderRecurse fuel' child adj yield s2 in
             ((s3, done), negb done))
          (s1, false)
  end.

Definition preOrder {T : Type} (fuel : nat) (root : T) (adj : adjFunction T) : Seq T :=
  fun S yield s => fst (preOrderRecurse fuel root adj yield s).

(** Modelled from the spec: [postOrder] is not among the sources. The walk
    recurses into each allowed child first, in the order the adjacency
    gives them, then yields the node; it stops as soon as a [yield] has
    answered [false]. *)
Fixpoint postOrderRecurse {T S : Type} (fuel : nat) (node : T) (adj : adjFunction T)
    (yield : T -> S -> S * bool) (s : S) : S * bool :=
  match fuel with
  | O => (s, false)
  | S fuel' =>
      let '(s1, done) :=
        adj node (S * bool)%type
          (fun child '(s2, _) =>
             let '(s3, done) := postOrderRecurse fuel' child adj yield s2 in
             ((s3, done), negb done))
          (s, false) in
      if done then (s1, true)
      else
        let '(s4, ok) := yield node s1 in
        (s4, negb ok)
  end.

Definition postOrder {T : Type} (fuel : nat) (root : T) (adj : adjFunction T) : Seq T :=
  fun S yield s => fst (postOrderRecurse fuel root adj yield s).

(** What a consumer that never stops receives from a sequence. *)
Definition collect {K W : Type} (seq : Seq2 K W) : list (K * W) :=
  seq (list (K * W)) (fun k w acc => (acc ++ [(k, w)], true)) [].

Section Trie.

Variable V : Type.
Variable zero : V.

(** ** The node *)

Unset Elimination Schemes.
Inductive node : Type :=
  Node { value : V;            (* valid only if isTerminal is true *)
         children : list node;
         keyByte : byte;
         isTerminal : bool }.
Set Elimination Schemes.

Definition NewPointerTrie : node := Node zero [] Byte.x00 false.

Definition with_children (n : node) (cs : list node) : node :=
  Node (value n) cs (keyByte n) (isTerminal n).

(** [n.children[index]]: an index out of range panics. *)
Definition child_at (n : node) (index : nat) : outcome node :=
  match children n !! index with
  | Some c => Returned c
  | None => Panicked "index out of range"
  end.

(** ** search *)

Fixpoint search_from (cs : list node) (i : nat) (byt : byte) : nat * bool :=
  match cs with
  | [] => (i, false)
  | c :: rest =>
      if byte_eqb byt (keyByte c) then (i, true)
      else if byte_ltb byt (keyByte c) then (i, false)
      else search_from rest (S i) byt
  end.

Definition search (n : node) (byt : byte) : nat * bool :=
  search_from (children n) 0 byt.

(** ** Put *)

(** The chain of new nodes for the remaining bytes [keyByte :: rest]: the last
    one is terminal and holds [v], the others hold the zero value and have
    the next one as their only child. *)
Fixpoint chain (kb : byte) (rest : list byte) (v : V) : node :=
  match rest with
  | [] => Node v [] kb true
  | kb' :: rest' => Node zero [chain kb' rest' v] kb false
  end.

(** [append] then [copy] then the store at [index]: insertion at [index]. *)
Definition insert_at (index : nat) (child : node) (cs : list node) : list node :=
  take index cs ++ child :: drop index cs.

Fixpoint put (n : node) (key : list byte) (v : V) : outcome (node * (V * bool)) :=
  match key with
  | [] =>
      if isTerminal n
      then Returned (Node v (children n) (keyByte n) true, (value n, true))
      else Returned (Node v (children n) (keyByte n) true, (zero, false))
  | kb :: rest =>
      let '(index, found) := search n kb in
      if negb found then
        Returned (with_children n (insert_at index (chain kb rest v) (children n)),
                  (zero, false))
      else
        c ← child_at n index;
        '(c', r) ← put c rest v;
        Returned (with_children n (<[index := c']> (children n)), r)
  end.

Definition Put (n : node) (key : option (list byte)) (v : V)
  : outcome (node * (V * bool)) :=
  match key with
  | None => Panicked "key must be non-nil"
  | Some k => put n k v
  end.

(** ** Get *)

Fixpoint get (n : node) (key : list byte) : outcome (V * bool) :=
  match key with
  | [] => if isTerminal n then Returned (value n, true) else Returned (zero, false)
  | kb :: rest =>
      let '(index, found) := search n kb in
      if negb found then Returned (zero, false)
      else c ← child_at n index; get c rest
  end.

Definition Get (n : node) (key : option (list byte)) : outcome (V * bool) :=
  match key with
  | None => Panicked "key must be non-nil"
  | Some k => get n k
  end.

(** ** Delete *)

(** A pointer to a node of the trie that is kept while the walk moves on: the
    child indices that lead to the node from the root. *)
Definition ptr : Type := list nat.

(** The mutation [f] applied through the pointer [p]. *)
Fixpoint update (p : ptr) (f : node -> outcome node) (n : node) : outcome node :=
  match p with
  | [] => f n
  | i :: p' =>
      c ← child_at n i;
      c' ← update p' f c;
      Returned (with_children n (<[i := c']> (children n)))
  end.

(** [n.value = zero; n.isTerminal = false] *)
Definition clear (n : node) : outcome node :=
  Returned (Node zero (children n) (keyByte n) false).

(** [prune.children = append(prune.children[:pruneIndex],
                              prune.children[pruneIndex+1:]...)] *)
Definition prune_child (pruneIndex : nat) (p : node) : outcome node :=
  if S pruneIndex <=? length (children p)
  then Returned (with_children p
                   (take pruneIndex (children p) ++ drop (S pruneIndex) (children p)))
  else Panicked "slice bounds out of range".

(** The loop of [Delete]: [n] is the node the walk stands on and [here] the
    pointer to it; [prune], [pruneIndex] are the anchor found so far.
    The answer is [None] when a byte of the key has no child. *)
Fixpoint delete_walk (n : node) (here : ptr) (prune : ptr) (pruneIndex : nat)
    (key : list byte) : outcome (option (node * ptr * ptr * nat)) :=
  match key with
  | [] => Returned (Some (n, here, prune, pruneIndex))
  | kb :: rest =>
      let '(index, found) := search n kb in
      if negb found then Returned None
      else
        let '(prune', pruneIndex') :=
          if isTerminal n || (1 <? length (children n))
          then (here, index) else (prune, pruneIndex) in
        c ← child_at n index;
        delete_walk c (here ++ [index]) prune' pruneIndex' rest
  end.

Definition Delete (root : node) (key : option (list byte))
  : outcome (node * (V * bool)) :=
  match key with
  | None => Panicked "key must be non-nil"
  | Some [] =>
      if negb (isTerminal root) then Returned (root, (zero, false))
      else Returned (Node zero (children root) (keyByte root) false,
                     (value root, true))
  | Some k =>
      w ← delete_walk root [] [] 0 k;
      match w with
      | None => Returned (root, (zero, false))
      | Some (n, here, prune, pruneIndex) =>
          if negb (isTerminal n) then Returned (root, (zero, false))
          else
            root1 ← update here clear root;
            if length (children n) =? 0 then
              root2 ← update prune (prune_child pruneIndex) root1;
              Returned (root2, (value n, true))
            else Returned (root1, (value n, true))
      end
  end.

(** ** Range *)

Record rangePath : Type := RangePath { rp_node : node; rp_key : list byte }.

(** The nodes below [n], [n] included, on the longest branch: the depth the
    engine recurses to on the trie, and the fuel [Range] gives it. *)
Fixpoint height (n : node) : nat :=
  match n with
  | Node _ cs _ _ => S (foldr (fun c h => Nat.max (height c) h) 0 cs)
  end.

(** The loop over [path.node.children] in [forwardChildAdj]. *)
Fixpoint forward_loop {S : Type} (cs : list node) (start stop : byte)
    (k : list byte) (yield : rangePath -> S -> S * bool) (s : S) : S :=
  match cs with
  | [] => s
  | child :: rest =>
      if byte_ltb (keyByte child) start then forward_loop rest start stop k yield s
      else if byte_ltb stop (keyByte child) then s
      else
        let '(s', ok) := yield (RangePath child (k ++ [keyByte child])) s in
        if negb ok then s' else forward_loop rest start stop k yield s'
  end.

Definition forwardChildAdj (bounds : Bounds) : adjFunction rangePath :=
  fun path =>
    let '(start, stop, ok) := childBounds bounds (rp_key path) in
    if negb ok then emptySeq
    else fun S yield s =>
      forward_loop (children (rp_node path)) start stop (rp_key path) yield s.

(** The loop of [reverseChildAdj], from the last child down to the first:
    [cs] is the list of children in this order. *)
Fixpoint reverse_loop {S : Type} (cs : list node) (start stop : byte)
    (k : list byte) (yield : rangePath -> S -> S * bool) (s : S) : S :=
  match cs with
  | [] => s
  | child :: rest =>
      if byte_ltb start (keyByte child) then reverse_loop rest start stop k yield s
      else if byte_ltb (keyByte child) stop then s
      else
        let '(s', ok) := yield (RangePath child (k ++ [keyByte child])) s in
        if negb ok then s' else reverse_loop rest start stop k yield s'
  end.

Definition reverseChildAdj (bounds : Bounds) : adjFunction rangePath :=
  fun path =>
    let '(start, stop, ok) := childBounds bounds (rp_key path) in
    if negb ok then emptySeq
    else fun S yield s =>
      reverse_loop (rev (children (rp_node path))) start stop (rp_key path) yield s.

(** The body of the loop over [pathItr] in [Range]. *)
Definition range_step {S : Type} (bounds : Bounds)
    (yield : list byte -> V -> S -> S * bool) (path : rangePath) (s : S) : S * bool :=
  let cmp := Compare bounds (rp_key path) in
  if (cmp <? 0)%Z then (s, true)
  else if (0 <? cmp)%Z then (s, false)
  else if isTerminal (rp_node path)
       then yield (rp_key path) (value (rp_node path)) s
       else (s, true).

Definition pathItr (n : node) (bounds : Bounds) : Seq rangePath :=
  let root := RangePath n [] in
  if IsReverse bounds
  then postOrder (height n) root (reverseChildAdj bounds)
  else preOrder (height n) root (forwardChildAdj bounds).

Definition Range (n : node) (bounds : Bounds) : Seq2 (list byte) V :=
  let bounds := Clone bounds in
  fun S yield s => pathItr n bounds S (range_step bounds yield) s.

End Trie.

Arguments Node {V}.
Arguments value {V}.
Arguments children {V}.
Arguments keyByte {V}.
Arguments isTerminal {V}.
Arguments NewPointerTrie {V}.
Arguments with_children {V}.
Arguments child_at {V}.
Arguments search_from {V}.
Arguments search {V}.
Arguments chain {V}.
Arguments insert_at {V}.
Arguments put {V}.
Arguments Put {V}.
Arguments get {V}.
Arguments Get {V}.
Arguments update {V}.
Arguments clear {V}.
Arguments prune_child {V}.
Arguments delete_walk {V}.
Arguments Delete {V}.
Arguments rangePath : clear implicits.
Arguments RangePath {V}.
Arguments rp_node {V}.
Arguments rp_key {V}.
Arguments height {V}.
Arguments forward_loop {V S}.
Arguments forwardChildAdj {V}.
Arguments reverse_loop {V S}.
Arguments reverseChildAdj {V}.
Arguments range_step {V S}.
Arguments pathItr {V}.
Arguments Range {V}.

(** * Verification *)

(** ** Definitions used to state the properties *)

(** ** Sequences as lists *)

(** The elements of [l] pushed into [yield] one after the other, until
    [yield] answers [false]; the boolean tells whether it did. *)
Fixpoint run {T S : Type} (l : list T) (yield : T -> S -> S * bool) (s : S) : S * bool :=
  match l with
  | [] => (s, false)
  | x :: l' =>
      let '(s', ok) := yield x s in
      if ok then run l' yield s' else (s', true)
  end.

(** The nodes a pre-order walk goes through when no [yield] stops it. *)
Fixpoint pre_list {T : Type} (fuel : nat) (adjl : T -> list T) (node : T) : list T :=
  match fuel with
  | O => []
  | S fuel' => node :: flat_map (pre_list fuel' adjl) (adjl node)
  end.

(** The same for a post-order walk. *)
Fixpoint post_list {T : Type} (fuel : nat) (adjl : T -> list T) (node : T) : list T :=
  match fuel with
  | O => []
  | S fuel' => flat_map (post_list fuel' adjl) (adjl node) ++ [node]
  end.

(** A [yield] that also records what it is given, in order. *)
Definition traced {T S : Type} (yield : T -> S -> S * bool)
  : T -> list T * S -> (list T * S) * bool :=
  fun x '(log, s) => let '(s', ok) := yield x s in ((log ++ [x], s'), ok).

(** The bounds allow the byte [x] after the prefix [k]. *)
Definition step_ok (b : Bounds) (k : list byte) (x : byte) : bool :=
  match min_byte b k, max_byte b k with
  | Some lo, Some hi => negb (byte_ltb x lo) && negb (byte_ltb hi x)
  | _, _ => false
  end.

(** The bounds allow every byte of [suffix] after the prefix [k]. *)
Fixpoint allowed (b : Bounds) (k suffix : list byte) : bool :=
  match suffix with
  | [] => true
  | x :: s => step_ok b k x && allowed b (k ++ [x]) s
  end.

(** The edge inclusion rules: a key satisfies the low edge when it is above
    the edge key, or is the edge key and the edge is inclusive; the high
    edge likewise from below; an unbounded edge is satisfied by every key. *)
Definition satisfies_low (b : Bounds) (k : list byte) : Prop :=
  match low b with
  | None => True
  | Some e => key_lt (edgeKey e) k \/ (inclusive e = true /\ k = edgeKey e)
  end.

Definition satisfies_high (b : Bounds) (k : list byte) : Prop :=
  match high b with
  | None => True
  | Some e => key_lt k (edgeKey e) \/ (inclusive e = true /\ k = edgeKey e)
  end.

Section Notions.

Context {V : Type}.

(** The node the bytes of [key] lead to from [n], if the whole path exists. *)
Fixpoint find (n : node V) (key : list byte) : option (node V) :=
  match key with
  | [] => Some n
  | kb :: rest =>
      let '(index, found) := search n kb in
      if found then c ← children n !! index; find c rest else None
  end.

(** The children of a node are in strictly ascending order of key byte. *)
Fixpoint ascending (cs : list (node V)) : bool :=
  match cs with
  | c :: rest =>
      match rest with
      | d :: _ => byte_ltb (keyByte c) (keyByte d)
      | [] => true
      end && ascending rest
  | [] => true
  end.

(** Every node of the trie has its children in strictly ascending order. *)
Fixpoint sorted_trie (n : node V) : bool :=
  match n with
  | Node _ cs _ _ => ascending cs && forallb sorted_trie cs
  end.

(** A dead node is neither terminal nor a parent. *)
Definition dead (n : node V) : bool :=
  negb (isTerminal n) && (length (children n) =? 0).

(** No node strictly below [n] is dead. *)
Fixpoint no_dead_below (n : node V) : bool :=
  match n with
  | Node _ cs _ _ => forallb (fun c => negb (dead c) && no_dead_below c) cs
  end.

(** The nodes of the trie: [n] and, in order, the nodes of its children. *)
Fixpoint nodes (n : node V) : list (node V) :=
  match n with
  | Node _ cs _ _ => n :: flat_map nodes cs
  end.

(** The nodes strictly below [n]: every node but the root. *)
Definition nodes_below (n : node V) : list (node V) := flat_map nodes (children n).

(** The strict order of the children of a node. *)
Definition node_lt (a b : node V) : Prop := byte_lt (keyByte a) (keyByte b).

(** What [Delete] makes of the sub-trie [n] when it removes [key] from it. *)
Inductive del_result : Type :=
| Absent                        (* the key is not stored: nothing changes *)
| Kept (n' : node V) (v : V)    (* [n] becomes [n'], the value was [v] *)
| Dropped (v : V).              (* [n] is on the chain that dies with the
                                   key: the anchor above unlinks it *)

Fixpoint del (zero : V) (n : node V) (key : list byte) : del_result :=
  match key with
  | [] =>
      if isTerminal n then
        if length (children n) =? 0 then Dropped (value n)
        else Kept (Node zero (children n) (keyByte n) false) (value n)
      else Absent
  | kb :: rest =>
      let '(index, found) := search n kb in
      if found then
        match children n !! index with
        | Some c =>
            match del zero c rest with
            | Absent => Absent
            | Kept c' v => Kept (with_children n (<[index := c']> (children n))) v
            | Dropped v =>
                if isTerminal n || (1 <? length (children n))
                then Kept (with_children n (delete index (children n))) v
                else Dropped v
            end
        | None => Absent
        end
      else Absent
  end.

(** The same for the whole trie: the root is never unlinked. *)
Definition del_root (zero : V) (root : node V) (key : list byte) : node V * (V * bool) :=
  match key with
  | [] =>
      if isTerminal root
      then (Node zero (children root) (keyByte root) false, (value root, true))
      else (root, (zero, false))
  | _ =>
      match del zero root key with
      | Absent => (root, (zero, false))
      | Kept root' v => (root', (v, true))
      | Dropped v => (with_children root [], (v, true))
      end
  end.

(** The trie states: what [Put] and [Delete] make of a new trie. *)
Inductive reachable (zero : V) : node V -> Prop :=
| reach_new : reachable zero (NewPointerTrie zero)
| reach_Put n k v n' r :
    reachable zero n -> Put zero n (Some k) v = Returned (n', r) ->
    reachable zero n'
| reach_Delete n k n' r :
    reachable zero n -> Delete zero n (Some k) = Returned (n', r) ->
    reachable zero n'.

(** The key bytes of the children of [m] are strictly ascending, and so
    without duplicates. *)
Definition children_strictly_sorted (m : node V) : Prop :=
  StronglySorted byte_lt (keyByte <$> children m) /\ NoDup (keyByte <$> children m).

(** A leaf is terminal. *)
Definition leaf_is_terminal (m : node V) : Prop :=
  children m = [] -> isTerminal m = true.

Definition child_path (k : list byte) (c : node V) : rangePath V :=
  RangePath c (k ++ [keyByte c]).

(** The children [forward_loop] yields when nothing stops it. *)
Fixpoint allowed_fwd (cs : list (node V)) (start stop : byte) : list (node V) :=
  match cs with
  | [] => []
  | c :: rest =>
      if byte_ltb (keyByte c) start then allowed_fwd rest start stop
      else if byte_ltb stop (keyByte c) then []
      else c :: allowed_fwd rest start stop
  end.

(** The children [reverse_loop] yields when nothing stops it. *)
Fixpoint allowed_rev (cs : list (node V)) (start stop : byte) : list (node V) :=
  match cs with
  | [] => []
  | c :: rest =>
      if byte_ltb start (keyByte c) then allowed_rev rest start stop
      else if byte_ltb (keyByte c) stop then []
      else c :: allowed_rev rest start stop
  end.

Definition fwd_adj (b : Bounds) (path : rangePath V) : list (rangePath V) :=
  let '(start, stop, ok) := childBounds b (rp_key path) in
  if ok
  then child_path (rp_key path) <$> allowed_fwd (children (rp_node path)) start stop
  else [].

Definition rev_adj (b : Bounds) (path : rangePath V) : list (rangePath V) :=
  let '(start, stop, ok) := childBounds b (rp_key path) in
  if ok
  then child_path (rp_key path)
         <$> allowed_rev (rev (children (rp_node path))) start stop
  else [].

(** The key byte of [c] is between [lo] and [hi]. *)
Definition in_range (lo hi : byte) (c : node V) : bool :=
  negb (byte_ltb (keyByte c) lo) && negb (byte_ltb hi (keyByte c)).

(** The children of a node that the bounds allow, in ascending order. *)
Definition kids (b : Bounds) (path : rangePath V) : list (rangePath V) :=
  match min_byte b (rp_key path), max_byte b (rp_key path) with
  | Some lo, Some hi =>
      if byte_ltb hi lo then []
      else child_path (rp_key path)
             <$> List.filter (in_range lo hi) (children (rp_node path))
  | _, _ => []
  end.

(** What the loop of [Range] yields from the paths [l], to a consumer that
    never stops. *)
Fixpoint emit (b : Bounds) (l : list (rangePath V)) : list (list byte * V) :=
  match l with
  | [] => []
  | p :: l' =>
      let cmp := Compare b (rp_key p) in
      if (cmp <? 0)%Z then emit b l'
      else if (0 <? cmp)%Z then []
      else if isTerminal (rp_node p)
           then (rp_key p, value (rp_node p)) :: emit b l'
           else emit b l'
  end.

(** The paths the loop of [Range] is given, in order, while it serves the
    consumer [yield]. *)
Definition visited {S : Type} (n : node V) (b : Bounds)
    (yield : list byte -> V -> S -> S * bool) (s : S) : list (rangePath V) :=
  (pathItr n (Clone b) (list (rangePath V) * S)%type
     (traced (range_step (Clone b) yield)) ([], s)).1.

(** The paths the loop of [Range] goes through, in order, when its iterator
    pushes the paths [l] for as long as the loop takes them. *)
Definition loop_visits {S : Type} (b : Bounds) (l : list (rangePath V))
    (yield : list byte -> V -> S -> S * bool) (s : S) : list (rangePath V) :=
  (run l (traced (range_step b yield)) ([], s)).1.1.

(** A key is within the bounds: it satisfies both edges. *)
Definition within (b : Bounds) (k : list byte) : bool :=
  above_low b k && below_high b k.

(** The pair [Range] yields for a path. *)
Definition entry (p : rangePath V) : list byte * V := (rp_key p, value (rp_node p)).

(** [Range] yields the path: its key is within the bounds and its node is
    terminal. *)
Definition yields (b : Bounds) (p : rangePath V) : bool :=
  within b (rp_key p) && isTerminal (rp_node p).

(** The order of the paths of a walk: the order of their keys. *)
Definition path_lt (p q : rangePath V) : Prop := key_lt (rp_key p) (rp_key q).

(** The paths of the whole walk of [n] under [b], in ascending order. *)
Definition walk (n : node V) (b : Bounds) : list (rangePath V) :=
  pre_list (height n) (kids b) (RangePath n []).

(** The trie holds exactly the keys of [keys]. *)
Definition holds_exactly (zero : V) (n : node V) (keys : list (list byte)) : Prop :=
  forall k, (exists v, Get zero n (Some k) = Returned (v, true)) <-> k ∈ keys.

(** The trie that stores the entries, one [Put] after the other, in a new
    trie. *)
Definition store (zero : V) (entries : list (list byte * V)) : node V :=
  foldl (fun n '(k, v) =>
           match Put zero n (Some k) v with
           | Returned (n', _) => n'
           | Panicked _ => n
           end)
        (NewPointerTrie zero) entries.

End Notions.

(** ** A concrete trie *)

(** The trie of the boundary scenarios: the keys [0x10], [0x10 0x20] and
    [0x11], stored in this order in a new trie of numbers. *)
Definition example_trie : node nat :=
  store 0 [([Byte.x10], 1); ([Byte.x10; Byte.x20], 2); ([Byte.x11], 3)].

(** ** Further notions on the trie *)

Section MoreNotions.

Context {V : Type}.

(** A node that is not terminal holds the zero value, and so does every
    node below it. *)
Fixpoint clean (zero : V) (n : node V) : Prop :=
  match n with
  | Node v cs _ t =>
      (t = false -> v = zero) /\ foldr (fun c P => clean zero c /\ P) True cs
  end.

(** The invariants of a trie state: sorted children, no dead node below the
    root, the zero value in the nodes that are not terminal. *)
Definition well_formed (zero : V) (n : node V) : Prop :=
  sorted_trie n = true /\ no_dead_below n = true /\ clean zero n.

(** What [Get] answers for the key [b :: k] under a node whose children are
    [cs]. *)
Definition below (zero : V) (cs : list (node V)) (b : byte) (k : list byte)
  : outcome (V * bool) :=
  get zero (Node zero cs Byte.x00 false) (b :: k).

(** What a trie answers for every key. *)
Definition same_contents (zero : V) (n n' : node V) : Prop :=
  forall k, Get zero n (Some k) = Get zero n' (Some k).

(** The two keys are the same. *)
Definition same_key (k k' : list byte) : bool :=
  match bytes_Compare k k' with Eq => true | _ => false end.

(** The operations of the trie that take a key. *)
Inductive op : Type :=
| OpPut (k : list byte) (v : V)
| OpGet (k : list byte)
| OpDelete (k : list byte).

(** One operation on the trie: the trie it leaves and what it returns. *)
Definition trie_step (zero : V) (n : node V) (o : op) : outcome (node V * (V * bool)) :=
  match o with
  | OpPut k v => Put zero n (Some k) v
  | OpGet k => r ← Get zero n (Some k); Returned (n, r)
  | OpDelete k => Delete zero n (Some k)
  end.

(** The operations one after the other: what each of them returns. *)
Fixpoint trie_run (zero : V) (n : node V) (ops : list op) : outcome (list (V * bool)) :=
  match ops with
  | [] => Returned []
  | o :: ops' =>
      '(n', r) ← trie_step zero n o;
      rs ← trie_run zero n' ops';
      Returned (r :: rs)
  end.

(** A map from keys to values, as a function: the reference the trie is
    compared with. *)
Definition ref_map : Type := list byte -> option V.

Definition ref_lookup (zero : V) (m : ref_map) (k : list byte) : V * bool :=
  match m k with
  | Some v => (v, true)
  | None => (zero, false)
  end.

Definition ref_step (zero : V) (m : ref_map) (o : op) : ref_map * (V * bool) :=
  match o with
  | OpPut k v => (fun k' => if same_key k k' then Some v else m k', ref_lookup zero m k)
  | OpGet k => (m, ref_lookup zero m k)
  | OpDelete k => (fun k' => if same_key k k' then None else m k', ref_lookup zero m k)
  end.

Fixpoint ref_run (zero : V) (m : ref_map) (ops : list op) : list (V * bool) :=
  match ops with
  | [] => []
  | o :: ops' => let '(m', r) := ref_step zero m o in r :: ref_run zero m' ops'
  end.

End MoreNotions.

Arguments op : clear implicits.
Arguments ref_map : clear implicits.

(** ** The paths of [Range] *)

(** The paths the engine goes through for [Range] when nothing stops it, as
    the code has it, the children sorted or not. *)
Definition range_paths {V : Type} (n : node V) (b : Bounds) : list (rangePath V) :=
  if IsReverse b
  then post_list (height n) (rev_adj b) (RangePath n [])
  else pre_list (height n) (fwd_adj b) (RangePath n []).

(** ** The engine on paths, as a list *)

(** The paths [Paths.preOrderRecurse] goes through when no [yield] stops
    it: the path, then the walks of the path extended with each adjacent
    node, in the order the adjacency gives them. *)
Fixpoint paths_list {T : Type} (fuel : nat) (adjl : list T -> list T) (path : list T)
  : list (list T) :=
  match fuel with
  | O => []
  | S fuel' =>
      path :: flat_map (fun node => paths_list fuel' adjl (path ++ [node])) (adjl path)
  end.

(** The fuel is enough for the walk from [path]: the graph below [path] is
    at most [fuel] nodes deep, so that the engine ends every branch on a
    path with no adjacent node and not on the fuel. *)
Fixpoint deep_enough {T : Type} (fuel : nat) (adjl : list T -> list T) (path : list T)
  : bool :=
  match fuel with
  | O => false
  | S fuel' => forallb (fun node => deep_enough fuel' adjl (path ++ [node])) (adjl path)
  end.

(** ** The keys of the fuzz tests and of the benchmarks *)

(** The conversion [byte(x)]: the low eight bits of [x]. *)
Definition byte_of_N (x : N) : byte :=
  match Byte.of_N (x mod 256) with
  | Some b => b
  | None => Byte.x00
  end.

(** [binary.BigEndian.AppendUint32(nil, v)]: the four bytes of [v], the
    high-order byte first. *)
Definition AppendUint32 (v : N) : list byte :=
  [byte_of_N (N.shiftr v 24); byte_of_N (N.shiftr v 16);
   byte_of_N (N.shiftr v 8); byte_of_N v].

(** The loop of [keyForFuzzInputs]: [keySize] goes down until the two bits
    of [size] at [2*(keySize-1)] are not both zero; the shifted constant
    has the type of [size], a byte. *)
Fixpoint keySize_loop (size : byte) (keySize : nat) : nat :=
  match keySize with
  | O => O
  | S below =>
      if negb (N.land (Byte.to_N size)
                 (N.shiftl 3 (2 * N.of_nat below) mod 256) =? 0)%N
      then keySize
      else keySize_loop size below
  end.

Definition keyForFuzzInputs (key : N) (size : byte) : list byte :=
  let keySize := keySize_loop size 4 in
  let keyBytes := AppendUint32 key in
  drop (4 - keySize) keyBytes.

(** The number a key stands for, its first byte the high-order one. *)
Definition be_value (k : list byte) : N :=
  foldl (fun acc x => (acc * 256 + Byte.to_N x)%N) 0%N k.

(** The adjustment of the two keys in [FuzzRange] and in [createBounds]:
    equal keys have a zero byte appended to the second, keys in descending
    order are swapped. *)
Definition order_keys (begin end_ : list byte) : list byte * list byte :=
  match bytes_Compare begin end_ with
  | Eq => (begin, end_ ++ [Byte.x00])
  | Gt => (end_, begin)
  | Lt => (begin, end_)
  end.

(** [keyBytes[i]] where the index is in range. *)
Definition byte_at (keyBytes : list byte) (i : nat) : byte :=
  nth i keyBytes Byte.x00.

(** The two keys of one turn of the loop of [createFixedBounds]: the three
    low-order bytes of [low] and of [low + step], the high-order one
    first. *)
Definition fixed_keys (step low : N) : list byte * list byte :=
  let high := (low + step)%N in
  let keyBytes := AppendUint32 (low mod 2 ^ 32) in
  let lowKey := [byte_at keyBytes 1; byte_at keyBytes 2; byte_at keyBytes 3] in
  let keyBytes := AppendUint32 (high mod 2 ^ 32) in
  let highKey := [byte_at keyBytes 1; byte_at keyBytes 2; byte_at keyBytes 3] in
  (lowKey, highKey).

(** ** Concrete inputs *)

(** A small graph on numbers: a path shorter than three nodes goes on with
    its length and with 7, a longer one ends. *)
Definition example_adjl (path : list nat) : list nat :=
  if length path <? 3 then [length path; 7] else [].

Definition example_adj : Paths.adjFunction nat :=
  fun path S yield s => (run (example_adjl path) yield s).1.

(** A consumer of paths of the trie that keeps two of them and stops. *)
Definition keep_two : rangePath nat -> list (rangePath nat)
                      -> list (rangePath nat) * bool :=
  fun p acc => (acc ++ [p], length acc <? 1).

Section TrieFacts.

Context {V : Type} (zero : V).
Implicit Types (n c : node V) (cs : list (node V)) (key : list byte) (kb : byte).

(** *** Bytes *)

Lemma byte_eqb_eq (a b : byte) : byte_eqb a b = true <-> a = b.
Proof.
  unfold byte_eqb. split.
  - apply Byte.byte_dec_bl.
  - intros ->. now apply Byte.byte_dec_lb.
Qed.

Lemma byte_eqb_refl (a : byte) : byte_eqb a a = true.
Proof. now apply byte_eqb_eq. Qed.

Lemma byte_eqb_neq (a b : byte) : byte_eqb a b = false <-> a <> b.
Proof.
  rewrite <- byte_eqb_eq. destruct (byte_eqb a b); split; congruence.
Qed.

Lemma to_N_inj (a b : byte) : Byte.to_N a = Byte.to_N b -> a = b.
Proof.
  intros H. pose proof (Byte.of_to_N a) as Ha. pose proof (Byte.of_to_N b) as Hb.
  rewrite H in Ha. congruence.
Qed.

Lemma byte_ltb_lt (a b : byte) : byte_ltb a b = true <-> byte_lt a b.
Proof. unfold byte_ltb, byte_lt. apply N.ltb_lt. Qed.

Lemma byte_ltb_ge (a b : byte) :
  byte_ltb a b = false <-> (Byte.to_N b <= Byte.to_N a)%N.
Proof. unfold byte_ltb. apply N.ltb_ge. Qed.

Lemma byte_ltb_irrefl (a : byte) : byte_ltb a a = false.
Proof. apply byte_ltb_ge. lia. Qed.

Lemma byte_ltb_trans (a b c : byte) :
  byte_ltb a b = true -> byte_ltb b c = true -> byte_ltb a c = true.
Proof. rewrite !byte_ltb_lt. unfold byte_lt. lia. Qed.

Lemma byte_ltb_asym (a b : byte) : byte_ltb a b = true -> byte_ltb b a = false.
Proof. rewrite byte_ltb_lt, byte_ltb_ge. unfold byte_lt. lia. Qed.

Lemma byte_ltb_total (a b : byte) :
  byte_ltb a b = false -> byte_ltb b a = false -> a = b.
Proof. rewrite !byte_ltb_ge. intros H1 H2. apply to_N_inj. lia. Qed.

Lemma byte_ltb_neq (a b : byte) : byte_ltb a b = true -> byte_eqb a b = false.
Proof.
  intros H. apply byte_eqb_neq. intros ->. rewrite byte_ltb_irrefl in H. discriminate.
Qed.

(** *** Induction on nodes *)

Lemma node_ind (P : node V -> Prop) :
  (forall v cs kb t, Forall P cs -> P (Node v cs kb t)) -> forall n, P n.
Proof.
  intros H. fix IH 1. intros [v cs kb t]. apply H.
  induction cs as [|c cs IHcs]; constructor; [apply IH | exact IHcs].
Qed.

(** *** search *)

Lemma search_from_shift cs i kb :
  search_from cs i kb = (i + (search_from cs 0 kb).1, (search_from cs 0 kb).2).
Proof.
  revert i. induction cs as [|c cs IH]; intros i; simpl.
  - f_equal. lia.
  - destruct (byte_eqb kb (keyByte c)); [simpl; f_equal; lia|].
    destruct (byte_ltb kb (keyByte c)); [simpl; f_equal; lia|].
    rewrite (IH (S i)), (IH 1). simpl. f_equal. lia.
Qed.

Lemma search_from_keys cs cs' i kb :
  keyByte <$> cs = keyByte <$> cs' -> search_from cs i kb = search_from cs' i kb.
Proof.
  revert cs' i. induction cs as [|c cs IH]; intros [|c' cs'] i Heq; simpl in *;
    try discriminate; [reflexivity|].
  injection Heq as -> Heq. rewrite (IH cs' (S i) Heq). reflexivity.
Qed.

Lemma search_from_found cs kb j :
  search_from cs 0 kb = (j, true) ->
  exists c, cs !! j = Some c /\ keyByte c = kb.
Proof.
  revert j. induction cs as [|c cs IH]; intros j; simpl; [discriminate|].
  destruct (byte_eqb kb (keyByte c)) eqn:E.
  - intros [= <-]. exists c. split; [reflexivity|]. symmetry. now apply byte_eqb_eq.
  - destruct (byte_ltb kb (keyByte c)); [discriminate|].
    rewrite search_from_shift. destruct (search_from cs 0 kb) as [j' f] eqn:Es.
    simpl. intros [= <- ->]. destruct (IH j' eq_refl) as (d & Hd & Hk).
    exists d. split; [exact Hd | exact Hk].
Qed.

Lemma search_found n kb index :
  search n kb = (index, true) ->
  exists c, children n !! index = Some c /\ keyByte c = kb.
Proof. apply search_from_found. Qed.

Lemma search_from_bound cs kb j f :
  search_from cs 0 kb = (j, f) -> j <= length cs.
Proof.
  revert j f. induction cs as [|c cs IH]; intros j f; simpl.
  - intros [= <- _]. lia.
  - destruct (byte_eqb kb (keyByte c)); [intros [= <- _]; lia|].
    destruct (byte_ltb kb (keyByte c)); [intros [= <- _]; lia|].
    rewrite search_from_shift. destruct (search_from cs 0 kb) as [j' f'] eqn:Es.
    simpl. intros [= <- _]. specialize (IH j' f' eq_refl). lia.
Qed.

Lemma search_from_insert cs kb j c :
  search_from cs 0 kb = (j, false) -> keyByte c = kb ->
  search_from (insert_at j c cs) 0 kb = (j, true).
Proof.
  unfold insert_at. revert j. induction cs as [|d cs IH]; intros j; simpl.
  - intros [= <-] Hk. simpl. rewrite Hk, byte_eqb_refl. reflexivity.
  - destruct (byte_eqb kb (keyByte d)) eqn:E; [discriminate|].
    destruct (byte_ltb kb (keyByte d)) eqn:L.
    + intros [= <-] Hk. simpl. rewrite Hk, byte_eqb_refl. reflexivity.
    + rewrite search_from_shift. destruct (search_from cs 0 kb) as [j' f'] eqn:Es.
      simpl. intros [= <- ->] Hk. simpl. rewrite E, L.
      rewrite search_from_shift, (IH j' eq_refl Hk). reflexivity.
Qed.

Lemma search_insert_same n kb index c c' :
  search n kb = (index, true) -> children n !! index = Some c ->
  keyByte c' = keyByte c ->
  search (with_children n (<[index := c']> (children n))) kb = (index, true).
Proof.
  unfold search. simpl. intros Hs Hc Hk. rewrite <- Hs.
  apply search_from_keys. rewrite list_fmap_insert, Hk.
  apply list_insert_id. rewrite list_lookup_fmap, Hc. reflexivity.
Qed.

(** *** Put and Get *)

Lemma put_keyByte key : forall n v n' r,
  put zero n key v = Returned (n', r) -> keyByte n' = keyByte n.
Proof.
  destruct key as [|kb rest]; intros n v n' r; simpl.
  - destruct (isTerminal n); intros [= <- _]; reflexivity.
  - destruct (search n kb) as [index found]. destruct found; simpl.
    + unfold child_at. destruct (children n !! index) as [c|]; simpl; [|discriminate].
      destruct (put zero c rest v) as [[c' r']|]; simpl; [|discriminate].
      intros [= <- _]. reflexivity.
    + intros [= <- _]. reflexivity.
Qed.

Lemma chain_keyByte kb rest v : keyByte (chain zero kb rest v) = kb.
Proof. destruct rest; reflexivity. Qed.

Lemma get_chain rest : forall kb v, get zero (chain zero kb rest v) rest = Returned (v, true).
Proof.
  induction rest as [|kb' rest IH]; intros kb v; simpl; [reflexivity|].
  unfold search. simpl. rewrite chain_keyByte, byte_eqb_refl. simpl. apply IH.
Qed.

Lemma put_returns key : forall n v, exists n' r, put zero n key v = Returned (n', r).
Proof.
  induction key as [|kb rest IH]; intros n v; simpl.
  - destruct (isTerminal n); eauto.
  - destruct (search n kb) as [index found] eqn:Hs. destruct found; simpl; [|eauto].
    destruct (search_found _ _ _ Hs) as (c & Hc & _).
    unfold child_at. rewrite Hc. simpl.
    destruct (IH c v) as (c' & r & ->). simpl. eauto.
Qed.

Lemma put_get key : forall n v n' r,
  put zero n key v = Returned (n', r) -> get zero n' key = Returned (v, true).
Proof.
  induction key as [|kb rest IH]; intros n v n' r; simpl.
  - destruct (isTerminal n); intros [= <- _]; reflexivity.
  - destruct (search n kb) as [index found] eqn:Hs. destruct found; simpl.
    + destruct (search_found _ _ _ Hs) as (c & Hc & Hk).
      unfold child_at at 1. rewrite Hc. simpl.
      destruct (put zero c rest v) as [[c' r']|] eqn:Hp; simpl; [|discriminate].
      intros [= <- _].
      rewrite (search_insert_same n kb index c c' Hs Hc (put_keyByte _ _ _ _ _ Hp)).
      simpl. unfold child_at. simpl.
      rewrite list_lookup_insert_eq by (eapply lookup_lt_Some; eauto). simpl.
      eapply IH; eauto.
    + intros [= <- _]. unfold search in *. simpl.
      rewrite (search_from_insert _ _ _ (chain zero kb rest v) Hs)
        by apply chain_keyByte.
      simpl. unfold child_at, insert_at. simpl.
      pose proof (search_from_bound _ _ _ _ Hs) as Hb.
      rewrite lookup_app_r by (rewrite length_take; lia).
      rewrite length_take, Nat.min_l, Nat.sub_diag by lia. simpl.
      apply get_chain.
Qed.

(** C2. Round trip: on every trie, for every non-nil key (the empty key
    included) and every value, [Put] returns normally and a following [Get]
    of the key answers the value and [true]. *)
Theorem Put_then_Get (n : node V) (k : list byte) (v : V) :
  exists n' r,
    Put zero n (Some k) v = Returned (n', r) /\
    Get zero n' (Some k) = Returned (v, true).
Proof.
  destruct (put_returns k n v) as (n' & r & Hp).
  exists n', r. split; [exact Hp|]. simpl. eapply put_get; eauto.
Qed.

(** C9. A nil key makes [Put], [Get] and [Delete] panic, whatever the trie,
    and no result is returned; the empty key, which is not nil, makes the
    three of them return normally. *)
Theorem nil_key_panics (n : node V) (v : V) :
  Put zero n None v = Panicked "key must be non-nil" /\
  Get zero n None = Panicked "key must be non-nil" /\
  Delete zero n None = Panicked "key must be non-nil" /\
  (exists r, Put zero n (Some []) v = Returned r) /\
  (exists r, Get zero n (Some []) = Returned r) /\
  (exists r, Delete zero n (Some []) = Returned r).
Proof.
  repeat split; simpl.
  - destruct (isTerminal n); eauto.
  - destruct (isTerminal n); eauto.
  - destruct (isTerminal n); simpl; eauto.
Qed.

Lemma put_existing key : forall n v t,
  find n key = Some t ->
  exists n',
    put zero n key v
      = Returned (n', (if isTerminal t then value t else zero, isTerminal t)) /\
    find n' key = Some (Node v (children t) (keyByte t) true).
Proof.
  induction key as [|kb rest IH]; intros n v t; simpl.
  - intros [= <-]. destruct (isTerminal n); eauto.
  - destruct (search n kb) as [index found] eqn:Hs. destruct found; [|discriminate].
    destruct (search_found _ _ _ Hs) as (c & Hc & Hk).
    rewrite Hc. simpl. intros Hf.
    destruct (IH c v t Hf) as (c' & Hp & Hf').
    unfold child_at. rewrite Hc. simpl. rewrite Hp. simpl.
    eexists. split; [reflexivity|].
    rewrite (search_insert_same n kb index c c' Hs Hc (put_keyByte _ _ _ _ _ Hp)).
    simpl. rewrite list_lookup_insert_eq by (eapply lookup_lt_Some; eauto).
    simpl. exact Hf'.
Qed.

(** C6. When the whole byte path of a non-nil key already leads to a node,
    [Put] overwrites the value and the terminal flag of that node, and
    returns the prior value and [true] if the node was terminal, the zero
    value and [false] if it was not. *)
Theorem Put_existing_path (n : node V) (k : list byte) (v : V) (t : node V) :
  find n k = Some t ->
  exists n',
    Put zero n (Some k) v
      = Returned (n', (if isTerminal t then value t else zero, isTerminal t)) /\
    find n' k = Some (Node v (children t) (keyByte t) true).
Proof. apply put_existing. Qed.

(** *** Sorted children *)

Local Instance node_lt_trans : Transitive (@node_lt V).
Proof. intros a b c. unfold node_lt, byte_lt. lia. Qed.

Lemma ascending_spec cs : ascending cs = true <-> StronglySorted node_lt cs.
Proof.
  split.
  - intros H. apply (Sorted_StronglySorted node_lt).
    induction cs as [|c cs IH]; [constructor|].
    simpl in H. apply andb_prop in H as [H1 H2]. constructor; [auto|].
    destruct cs as [|d cs]; constructor. now apply byte_ltb_lt.
  - intros H. apply StronglySorted_Sorted in H.
    induction H as [|c cs Hs IH Hhd]; [reflexivity|].
    simpl. rewrite IH, andb_true_r. destruct Hhd as [|d cs Hlt]; [reflexivity|].
    now apply byte_ltb_lt.
Qed.

Lemma sorted_trie_spec n :
  sorted_trie n = true <->
  StronglySorted node_lt (children n) /\ Forall (fun c => sorted_trie c = true) (children n).
Proof.
  destruct n as [v cs kb t]. simpl.
  rewrite andb_true_iff, ascending_spec, forallb_forall, Forall_forall.
  split; intros [H1 H2]; (split; [exact H1|]); intros c Hc; apply H2;
    now apply list_elem_of_In.
Qed.

Lemma search_from_before cs kb j f :
  search_from cs 0 kb = (j, f) ->
  Forall (fun c => byte_lt (keyByte c) kb) (take j cs).
Proof.
  revert j f. induction cs as [|c cs IH]; intros j f; simpl.
  - intros [= <- _]. constructor.
  - destruct (byte_eqb kb (keyByte c)) eqn:E; [intros [= <- _]; constructor|].
    destruct (byte_ltb kb (keyByte c)) eqn:L; [intros [= <- _]; constructor|].
    rewrite search_from_shift. destruct (search_from cs 0 kb) as [j' f'] eqn:Es.
    simpl. intros [= <- _]. constructor; [|eapply IH; eauto].
    apply byte_eqb_neq in E. apply byte_ltb_ge in L. unfold byte_lt.
    assert (Byte.to_N (keyByte c) <> Byte.to_N kb) by (intros Hn; apply E; symmetry; now apply to_N_inj).
    lia.
Qed.

Lemma search_from_after cs kb j c :
  search_from cs 0 kb = (j, false) -> cs !! j = Some c -> byte_lt kb (keyByte c).
Proof.
  revert j. induction cs as [|d cs IH]; intros j; simpl; [intros _; discriminate|].
  destruct (byte_eqb kb (keyByte d)) eqn:E; [discriminate|].
  destruct (byte_ltb kb (keyByte d)) eqn:L.
  - intros [= <-] [= <-]. now apply byte_ltb_lt.
  - rewrite search_from_shift. destruct (search_from cs 0 kb) as [j' f'] eqn:Es.
    simpl. intros [= <- ->]. simpl. intros Hc. eapply IH; eauto.
Qed.

Lemma search_from_absent cs kb :
  Forall (fun c => keyByte c <> kb) cs -> (search_from cs 0 kb).2 = false.
Proof.
  intros H. destruct (search_from cs 0 kb) as [j f] eqn:Es. destruct f; [|reflexivity].
  destruct (search_from_found _ _ _ Es) as (c & Hc & Hk).
  rewrite Forall_forall in H. exfalso. apply (H c); [|exact Hk].
  eapply list_elem_of_lookup_2; eauto.
Qed.

Lemma search_from_sorted cs j c :
  StronglySorted node_lt cs -> cs !! j = Some c ->
  search_from cs 0 (keyByte c) = (j, true).
Proof.
  intros Hs. revert j. induction Hs as [|d cs Hs IH Hd]; intros j; [discriminate|].
  destruct j as [|j]; simpl.
  - intros [= ->]. now rewrite byte_eqb_refl.
  - intros Hc. assert (Hlt : node_lt d c).
    { rewrite Forall_forall in Hd. apply Hd. eapply list_elem_of_lookup_2; eauto. }
    unfold node_lt in Hlt.
    assert (E : byte_eqb (keyByte c) (keyByte d) = false).
    { apply byte_eqb_neq. intros Heq. rewrite Heq in Hlt. unfold byte_lt in Hlt. lia. }
    assert (L : byte_ltb (keyByte c) (keyByte d) = false).
    { apply byte_ltb_ge. unfold byte_lt in Hlt. lia. }
    rewrite E, L, search_from_shift, (IH j Hc). reflexivity.
Qed.

Lemma sorted_insert_at cs kb j c :
  StronglySorted node_lt cs -> search_from cs 0 kb = (j, false) -> keyByte c = kb ->
  StronglySorted node_lt (insert_at j c cs).
Proof.
  intros Hs Hsearch Hk. unfold insert_at.
  pose proof (search_from_before _ _ _ _ Hsearch) as Hbefore.
  rewrite <- (take_drop j cs) in Hs. apply StronglySorted_app in Hs as (Hx & Hl & Hr).
  assert (Hafter : Forall (fun d => byte_lt kb (keyByte d)) (drop j cs)).
  { destruct (drop j cs) as [|d ds] eqn:Hd; [constructor|].
    assert (Hj : cs !! j = Some d).
    { rewrite <- (Nat.add_0_r j), <- lookup_drop, Hd. reflexivity. }
    pose proof (search_from_after _ _ _ _ Hsearch Hj) as Hlt.
    constructor; [exact Hlt|]. inversion Hr as [|? ? _ Hall]; subst.
    eapply Forall_impl; [exact Hall|]. intros e He. unfold node_lt, byte_lt in *. lia. }
  apply StronglySorted_app_2.
  - intros x1 x2 H1 H2. rewrite Forall_forall in Hbefore. specialize (Hbefore _ H1).
    apply elem_of_cons in H2 as [->|H2].
    + unfold node_lt. now rewrite Hk.
    + rewrite Forall_forall in Hafter. specialize (Hafter _ H2).
      unfold node_lt, byte_lt in *. lia.
  - exact Hl.
  - constructor; [exact Hr|]. eapply Forall_impl; [exact Hafter|].
    intros e He. unfold node_lt. now rewrite Hk.
Qed.

Lemma sorted_same_keys cs cs' :
  keyByte <$> cs = keyByte <$> cs' ->
  StronglySorted node_lt cs -> StronglySorted node_lt cs'.
Proof.
  intros Hk Hs. revert cs' Hk. induction Hs as [|c cs Hs IH Hc]; intros [|c' cs'] Hk;
    try (simpl in Hk; discriminate); constructor;
    rewrite !fmap_cons in Hk; injection Hk as Hk1 Hk2.
  - now apply IH.
  - rewrite Forall_forall in *. intros d Hd.
    apply list_elem_of_lookup in Hd as [i Hi].
    assert (Hi' : (keyByte <$> cs') !! i = Some (keyByte d)) by now rewrite list_lookup_fmap, Hi.
    rewrite <- Hk2, list_lookup_fmap in Hi'.
    destruct (cs !! i) as [e|] eqn:He; [|discriminate]. simpl in Hi'.
    injection Hi' as Hi'. unfold node_lt. rewrite <- Hk1, <- Hi'. apply Hc.
    eapply list_elem_of_lookup_2; eauto.
Qed.

Lemma sorted_insert_same cs i c c' :
  cs !! i = Some c -> keyByte c' = keyByte c ->
  StronglySorted node_lt cs -> StronglySorted node_lt (<[i := c']> cs).
Proof.
  intros Hc Hk. apply sorted_same_keys. rewrite list_fmap_insert, Hk.
  symmetry. apply list_insert_id. now rewrite list_lookup_fmap, Hc.
Qed.

Lemma sorted_delete cs i :
  StronglySorted node_lt cs -> StronglySorted node_lt (delete i cs).
Proof.
  intros Hs. rewrite delete_take_drop. destruct (cs !! i) as [x|] eqn:Hx.
  - rewrite <- (take_drop_middle cs i x Hx) in Hs.
    apply StronglySorted_app in Hs as (Hx' & Hl & Hr).
    apply StronglySorted_app_2; [|exact Hl|now inversion Hr].
    intros x1 x2 H1 H2. apply Hx'; [exact H1|]. apply elem_of_cons. now right.
  - apply lookup_ge_None in Hx. rewrite take_ge, drop_ge by lia.
    rewrite app_nil_r. exact Hs.
Qed.

Lemma chain_sorted rest : forall kb v, sorted_trie (chain zero kb rest v) = true.
Proof.
  induction rest as [|kb' rest IH]; intros kb v; simpl; [reflexivity|].
  now rewrite IH.
Qed.

Lemma put_sorted key : forall n v n' r,
  put zero n key v = Returned (n', r) -> sorted_trie n = true -> sorted_trie n' = true.
Proof.
  induction key as [|kb rest IH]; intros n v n' r; simpl.
  - destruct (isTerminal n); intros [= <- _]; destruct n; simpl; auto.
  - destruct (search n kb) as [index found] eqn:Hs. destruct found; simpl.
    + destruct (search_found _ _ _ Hs) as (c & Hc & Hk).
      unfold child_at. rewrite Hc. simpl.
      destruct (put zero c rest v) as [[c' r']|] eqn:Hp; simpl; [|discriminate].
      intros [= <- _]. rewrite !sorted_trie_spec. simpl. intros [H1 H2]. split.
      * eapply sorted_insert_same; eauto. eapply put_keyByte; eauto.
      * apply Forall_insert; [exact H2|]. eapply IH; eauto.
        rewrite Forall_forall in H2. apply H2. eapply list_elem_of_lookup_2; eauto.
    + intros [= <- _]. rewrite !sorted_trie_spec. simpl. intros [H1 H2]. split.
      * eapply sorted_insert_at; eauto. apply chain_keyByte.
      * unfold insert_at. apply Forall_app. split; [now apply Forall_take|].
        constructor; [apply chain_sorted | now apply Forall_drop].
Qed.

(** *** No dead node *)

Lemma no_dead_below_spec n :
  no_dead_below n = true <->
  Forall (fun c => dead c = false /\ no_dead_below c = true) (children n).
Proof.
  destruct n as [v cs kb t]. simpl. rewrite forallb_forall, Forall_forall.
  split; intros H c Hc.
  - apply list_elem_of_In in Hc. specialize (H c Hc).
    apply andb_prop in H as [H1 H2]. split; [|exact H2].
    now apply negb_true_iff.
  - apply list_elem_of_In in Hc. destruct (H c Hc) as [H1 H2].
    now rewrite H1, H2.
Qed.

Lemma chain_alive rest : forall kb v,
  dead (chain zero kb rest v) = false /\ no_dead_below (chain zero kb rest v) = true.
Proof.
  induction rest as [|kb' rest IH]; intros kb v; simpl; [split; reflexivity|].
  destruct (IH kb' v) as [H1 H2]. split; [reflexivity|].
  now rewrite H1, H2.
Qed.

Lemma put_alive key n v n' r :
  put zero n key v = Returned (n', r) -> dead n' = false.
Proof.
  destruct key as [|kb rest]; simpl.
  - destruct (isTerminal n); intros [= <- _]; reflexivity.
  - destruct (search n kb) as [index found] eqn:Hs. destruct found; simpl.
    + destruct (search_found _ _ _ Hs) as (c & Hc & Hk).
      unfold child_at. rewrite Hc. simpl.
      destruct (put zero c rest v) as [[c' r']|] eqn:Hp; simpl; [|discriminate].
      intros [= <- _]. unfold dead. simpl. rewrite length_insert.
      apply lookup_lt_Some in Hc. destruct (length (children n)); [lia|].
      simpl. apply andb_false_r.
    + intros [= <- _]. unfold dead, insert_at. simpl.
      rewrite length_app. simpl. rewrite Nat.add_succ_r. simpl. apply andb_false_r.
Qed.

Lemma put_no_dead key : forall n v n' r,
  put zero n key v = Returned (n', r) ->
  no_dead_below n = true -> no_dead_below n' = true.
Proof.
  induction key as [|kb rest IH]; intros n v n' r; simpl.
  - destruct (isTerminal n); intros [= <- _]; destruct n; simpl; auto.
  - destruct (search n kb) as [index found] eqn:Hs. destruct found; simpl.
    + destruct (search_found _ _ _ Hs) as (c & Hc & Hk).
      unfold child_at. rewrite Hc. simpl.
      destruct (put zero c rest v) as [[c' r']|] eqn:Hp; simpl; [|discriminate].
      intros [= <- _]. rewrite !no_dead_below_spec. simpl. intros H.
      apply Forall_insert; [exact H|]. split; [eapply put_alive; eauto|].
      eapply IH; eauto. rewrite Forall_forall in H. apply H.
      eapply list_elem_of_lookup_2; eauto.
    + intros [= <- _]. rewrite !no_dead_below_spec. simpl. intros H.
      unfold insert_at. apply Forall_app. split; [now apply Forall_take|].
      constructor; [apply chain_alive | now apply Forall_drop].
Qed.

(** *** Delete: the walk and its two mutations do what [del] says *)

Lemma update_clear_shape p : forall n n1,
  update p (clear zero) n = Returned n1 -> p <> [] ->
  n1 = with_children n (children n1) /\ length (children n1) = length (children n).
Proof.
  destruct p as [|i p]; intros n n1; simpl; [congruence|]. intros H _.
  unfold child_at in H. destruct (children n !! i) as [c|]; simpl in H; [|discriminate].
  destruct (update p (clear zero) c) as [c'|]; simpl in H; [|discriminate].
  injection H as <-. unfold with_children. simpl. now rewrite length_insert.
Qed.

Lemma delete_walk_spec key : forall n here prune pruneIndex,
  match del zero n key with
  | Absent =>
      delete_walk n here prune pruneIndex key = Returned None \/
      exists t h pr i,
        delete_walk n here prune pruneIndex key = Returned (Some (t, h, pr, i)) /\
        isTerminal t = false
  | Kept n' v =>
      exists t p pr i,
        delete_walk n here prune pruneIndex key = Returned (Some (t, here ++ p, pr, i)) /\
        isTerminal t = true /\ value t = v /\
        if length (children t) =? 0
        then exists q, pr = here ++ q /\
               (n1 ← update p (clear zero) n; update q (prune_child i) n1) = Returned n'
        else update p (clear zero) n = Returned n'
  | Dropped v =>
      exists t p,
        delete_walk n here prune pruneIndex key
          = Returned (Some (t, here ++ p, prune, pruneIndex)) /\
        isTerminal t = true /\ value t = v /\ length (children t) = 0 /\
        (key <> [] -> p <> [] /\ isTerminal n = false /\ length (children n) = 1) /\
        exists n1, update p (clear zero) n = Returned n1
  end.
Proof.
  induction key as [|kb rest IH]; intros n here prune pruneIndex; simpl.
  - destruct (isTerminal n) eqn:Ht.
    + destruct (length (children n) =? 0) eqn:Hl.
      * exists n, []. rewrite app_nil_r. repeat split; auto.
        -- now apply Nat.eqb_eq.
        -- congruence.
        -- congruence.
        -- simpl. eauto.
      * exists n, [], prune, pruneIndex. rewrite app_nil_r, Hl.
        repeat split; auto.
    + right. exists n, here, prune, pruneIndex. auto.
  - destruct (search n kb) as [index found] eqn:Hs. destruct found; simpl; [|now left].
    destruct (search_found _ _ _ Hs) as (c & Hc & Hk). rewrite Hc.
    assert (Hca : child_at n index = Returned c) by (unfold child_at; now rewrite Hc).
    rewrite !Hca. simpl.
    destruct (isTerminal n || (1 <? length (children n))) eqn:Hanchor.
    + specialize (IH c (here ++ [index]) here index).
      destruct (del zero c rest) as [|c' v|v].
      * exact IH.
      * destruct IH as (t & p & pr & i & Hw & Ht & Hv & Heff).
        exists t, (index :: p), pr, i. rewrite <- app_assoc in Hw. simpl in Hw.
        repeat split; auto. destruct (length (children t) =? 0).
        -- destruct Heff as (q & -> & Heff). exists (index :: q).
           rewrite <- app_assoc. split; [reflexivity|]. simpl.
           unfold child_at. rewrite Hc. simpl.
           destruct (update p (clear zero) c) as [c1|]; simpl in *; [|discriminate].
           rewrite list_lookup_insert_eq by (eapply lookup_lt_Some; eauto). simpl.
           rewrite Heff. simpl. now rewrite list_insert_insert_eq.
        -- simpl. unfold child_at. rewrite Hc. simpl. now rewrite Heff.
      * destruct IH as (t & p & Hw & Ht & Hv & Hl & _ & n1 & Hn1).
        exists t, (index :: p), here, index. rewrite <- app_assoc in Hw. simpl in Hw.
        repeat split; auto. rewrite Hl. simpl. exists []. rewrite app_nil_r.
        split; [reflexivity|]. unfold child_at. rewrite Hc. simpl. rewrite Hn1. simpl.
        unfold prune_child. simpl. rewrite length_insert.
        pose proof (lookup_lt_Some _ _ _ Hc) as Hlt.
        destruct (length (children n)) as [|len] eqn:Hlen; [lia|].
        assert (Hle : (index <=? len) = true) by (apply Nat.leb_le; lia).
        rewrite Hle. unfold with_children. simpl. do 2 f_equal.
        rewrite delete_take_drop, take_insert_ge, drop_insert_lt by lia. reflexivity.
    + specialize (IH c (here ++ [index]) prune pruneIndex).
      apply orb_false_elim in Hanchor as [Hterm Hlen].
      destruct (del zero c rest) as [|c' v|v].
      * exact IH.
      * destruct IH as (t & p & pr & i & Hw & Ht & Hv & Heff).
        exists t, (index :: p), pr, i. rewrite <- app_assoc in Hw. simpl in Hw.
        repeat split; auto. destruct (length (children t) =? 0).
        -- destruct Heff as (q & -> & Heff). exists (index :: q).
           rewrite <- app_assoc. split; [reflexivity|]. simpl.
           unfold child_at. rewrite Hc. simpl.
           destruct (update p (clear zero) c) as [c1|]; simpl in *; [|discriminate].
           rewrite list_lookup_insert_eq by (eapply lookup_lt_Some; eauto). simpl.
           rewrite Heff. simpl. now rewrite list_insert_insert_eq.
        -- simpl. unfold child_at. rewrite Hc. simpl. now rewrite Heff.
      * destruct IH as (t & p & Hw & Ht & Hv & Hl & _ & n1 & Hn1).
        exists t, (index :: p). rewrite <- app_assoc in Hw. simpl in Hw.
        repeat split; auto.
        -- apply Nat.ltb_ge in Hlen. apply lookup_lt_Some in Hc. lia.
        -- simpl. unfold child_at. rewrite Hc. simpl. rewrite Hn1. simpl. eauto.
Qed.

Lemma Delete_del_root root key :
  Delete zero root (Some key) = Returned (del_root zero root key).
Proof.
  destruct key as [|kb rest]; [simpl; now destruct (isTerminal root)|].
  unfold Delete, del_root.
  pose proof (delete_walk_spec (kb :: rest) root [] [] 0) as H.
  destruct (del zero root (kb :: rest)) as [|root' v|v].
  - destruct H as [-> | (t & h & pr & i & -> & Ht)]; simpl; [reflexivity|].
    now rewrite Ht.
  - destruct H as (t & p & pr & i & -> & Ht & Hv & Heff). simpl. rewrite Ht. simpl.
    destruct (length (children t) =? 0).
    + destruct Heff as (q & -> & Heff). simpl.
      destruct (update p (clear zero) root) as [root1|]; simpl in *; [|discriminate].
      rewrite Heff. simpl. now rewrite Hv.
    + rewrite Heff. simpl. now rewrite Hv.
  - destruct H as (t & p & -> & Ht & Hv & Hl & Hroot & n1 & Hn1). simpl.
    rewrite Ht, Hl, Hn1. simpl.
    destruct (Hroot ltac:(discriminate)) as (Hp & _ & Hone).
    destruct (update_clear_shape p root n1 Hn1 Hp) as [Hshape Hlen].
    unfold prune_child. rewrite Hlen, Hone. simpl. rewrite Hv.
    do 2 f_equal. rewrite Hshape. unfold with_children. simpl.
    rewrite drop_ge by lia. reflexivity.
Qed.

(** *** What [del] preserves *)

Lemma del_keyByte key n n' v :
  del zero n key = Kept n' v -> keyByte n' = keyByte n.
Proof.
  destruct key as [|kb rest]; simpl.
  - destruct (isTerminal n); [|discriminate].
    destruct (length (children n) =? 0); [discriminate|]. now intros [= <- _].
  - destruct (search n kb) as [index found]. destruct found; [|discriminate].
    destruct (children n !! index) as [c|]; [|discriminate].
    destruct (del zero c rest) as [|c' v'|v']; [discriminate| |].
    + now intros [= <- _].
    + destruct (isTerminal n || (1 <? length (children n))); [|discriminate].
      now intros [= <- _].
Qed.

Lemma del_sorted key : forall n n' v,
  del zero n key = Kept n' v -> sorted_trie n = true -> sorted_trie n' = true.
Proof.
  induction key as [|kb rest IH]; intros n n' v; simpl.
  - destruct (isTerminal n); [|discriminate].
    destruct (length (children n) =? 0); [discriminate|].
    intros [= <- _]. now destruct n.
  - destruct (search n kb) as [index found]. destruct found; [|discriminate].
    destruct (children n !! index) as [c|] eqn:Hc; [|discriminate].
    destruct (del zero c rest) as [|c' v'|v'] eqn:Hd; [discriminate| |].
    + intros [= <- _]. rewrite !sorted_trie_spec. simpl. intros [H1 H2]. split.
      * eapply sorted_insert_same; eauto. eapply del_keyByte; eauto.
      * apply Forall_insert; [exact H2|]. eapply IH; eauto.
        rewrite Forall_forall in H2. apply H2. eapply list_elem_of_lookup_2; eauto.
    + destruct (isTerminal n || (1 <? length (children n))); [|discriminate].
      intros [= <- _]. rewrite !sorted_trie_spec. simpl. intros [H1 H2]. split.
      * now apply sorted_delete.
      * now apply Forall_delete.
Qed.

Lemma del_alive key n n' v : del zero n key = Kept n' v -> dead n' = false.
Proof.
  destruct key as [|kb rest]; simpl.
  - destruct (isTerminal n); [|discriminate].
    destruct (length (children n) =? 0) eqn:Hl; [discriminate|].
    intros [= <- _]. unfold dead. simpl. now rewrite Hl.
  - destruct (search n kb) as [index found]. destruct found; [|discriminate].
    destruct (children n !! index) as [c|] eqn:Hc; [|discriminate].
    pose proof (lookup_lt_Some _ _ _ Hc) as Hlt.
    destruct (del zero c rest) as [|c' v'|v']; [discriminate| |].
    + intros [= <- _]. unfold dead. simpl. rewrite length_insert.
      destruct (length (children n)); [lia|]. simpl. apply andb_false_r.
    + destruct (isTerminal n) eqn:Ht; simpl.
      * intros [= <- _]. unfold dead. simpl. now rewrite Ht.
      * destruct (1 <? length (children n)) eqn:Hl; [|discriminate].
        intros [= <- _]. unfold dead. simpl.
        rewrite length_delete by (rewrite Hc; eauto).
        apply Nat.ltb_lt in Hl.
        destruct (length (children n) - 1) eqn:E; [lia|]. simpl. apply andb_false_r.
Qed.

Lemma del_no_dead key : forall n n' v,
  del zero n key = Kept n' v -> no_dead_below n = true -> no_dead_below n' = true.
Proof.
  induction key as [|kb rest IH]; intros n n' v; simpl.
  - destruct (isTerminal n); [|discriminate].
    destruct (length (children n) =? 0); [discriminate|].
    intros [= <- _]. now destruct n.
  - destruct (search n kb) as [index found]. destruct found; [|discriminate].
    destruct (children n !! index) as [c|] eqn:Hc; [|discriminate].
    destruct (del zero c rest) as [|c' v'|v'] eqn:Hd; [discriminate| |].
    + intros [= <- _]. rewrite !no_dead_below_spec. simpl. intros H.
      apply Forall_insert; [exact H|]. split; [eapply del_alive; eauto|].
      eapply IH; eauto. rewrite Forall_forall in H. apply H.
      eapply list_elem_of_lookup_2; eauto.
    + destruct (isTerminal n || (1 <? length (children n))); [|discriminate].
      intros [= <- _]. rewrite !no_dead_below_spec. simpl. now apply Forall_delete.
Qed.

Lemma sorted_delete_absent cs i c :
  StronglySorted node_lt cs -> cs !! i = Some c ->
  Forall (fun d => keyByte d <> keyByte c) (delete i cs).
Proof.
  intros Hs Hc. rewrite delete_take_drop.
  rewrite <- (take_drop_middle cs i c Hc) in Hs.
  apply StronglySorted_app in Hs as (Hx & _ & Hr).
  apply Forall_app. split; rewrite Forall_forall; intros d Hd Heq.
  - assert (Hlt : node_lt d c) by (apply Hx; [exact Hd | apply elem_of_cons; now left]).
    unfold node_lt, byte_lt in Hlt. rewrite Heq in Hlt. lia.
  - inversion Hr as [|? ? _ Hall]; subst. rewrite Forall_forall in Hall.
    specialize (Hall d Hd). unfold node_lt, byte_lt in Hall. rewrite Heq in Hall. lia.
Qed.

Lemma del_get key : forall n n' v,
  sorted_trie n = true -> del zero n key = Kept n' v ->
  get zero n' key = Returned (zero, false).
Proof.
  induction key as [|kb rest IH]; intros n n' v Hsorted; simpl.
  - destruct (isTerminal n); [|discriminate].
    destruct (length (children n) =? 0); [discriminate|].
    now intros [= <- _].
  - destruct (search n kb) as [index found] eqn:Hs. destruct found; [|discriminate].
    destruct (search_found _ _ _ Hs) as (c & Hc & Hk). rewrite Hc.
    apply sorted_trie_spec in Hsorted as [Hs1 Hs2].
    destruct (del zero c rest) as [|c' v'|v'] eqn:Hd; [discriminate| |].
    + intros [= <- _].
      rewrite (search_insert_same n kb index c c' Hs Hc (del_keyByte _ _ _ _ Hd)).
      simpl. unfold child_at. simpl.
      rewrite list_lookup_insert_eq by (eapply lookup_lt_Some; eauto). simpl.
      eapply IH; eauto. rewrite Forall_forall in Hs2. apply Hs2.
      eapply list_elem_of_lookup_2; eauto.
    + destruct (isTerminal n || (1 <? length (children n))); [|discriminate].
      intros [= <- _]. unfold search. simpl.
      pose proof (sorted_delete_absent _ _ _ Hs1 Hc) as Habs. rewrite Hk in Habs.
      apply search_from_absent in Habs.
      destruct (search_from (delete index (children n)) 0 kb) as [j f].
      simpl in Habs. now rewrite Habs.
Qed.

Lemma get_del key : forall n v,
  get zero n key = Returned (v, true) ->
  match del zero n key with
  | Absent => False
  | Kept _ v' | Dropped v' => v' = v
  end.
Proof.
  induction key as [|kb rest IH]; intros n v; simpl.
  - destruct (isTerminal n); [|discriminate]. intros [= <-].
    now destruct (length (children n) =? 0).
  - destruct (search n kb) as [index found] eqn:Hs. destruct found; [|discriminate].
    destruct (search_found _ _ _ Hs) as (c & Hc & Hk).
    unfold child_at. rewrite Hc. simpl. intros Hg. specialize (IH c v Hg).
    destruct (del zero c rest) as [|c' v'|v']; [exact IH|exact IH|].
    now destruct (isTerminal n || (1 <? length (children n))).
Qed.

Lemma del_root_sorted root key :
  sorted_trie root = true -> sorted_trie (del_root zero root key).1 = true.
Proof.
  intros H. unfold del_root. destruct key as [|kb rest].
  - destruct (isTerminal root); simpl; [now destruct root | exact H].
  - destruct (del zero root (kb :: rest)) as [|root' v|v] eqn:Hd; simpl.
    + exact H.
    + eapply del_sorted; eauto.
    + reflexivity.
Qed.

Lemma del_root_no_dead root key :
  no_dead_below root = true -> no_dead_below (del_root zero root key).1 = true.
Proof.
  intros H. unfold del_root. destruct key as [|kb rest].
  - destruct (isTerminal root); simpl; [now destruct root | exact H].
  - destruct (del zero root (kb :: rest)) as [|root' v|v] eqn:Hd; simpl.
    + exact H.
    + eapply del_no_dead; eauto.
    + reflexivity.
Qed.

Lemma del_root_stored root key v :
  sorted_trie root = true -> get zero root key = Returned (v, true) ->
  (del_root zero root key).2 = (v, true) /\
  get zero (del_root zero root key).1 key = Returned (zero, false).
Proof.
  intros Hsorted Hg. unfold del_root. destruct key as [|kb rest].
  - simpl in Hg. destruct (isTerminal root); [|discriminate].
    injection Hg as <-. simpl. auto.
  - pose proof (get_del _ _ _ Hg) as Hd.
    destruct (del zero root (kb :: rest)) as [|root' v'|v'] eqn:Hdel; [contradiction| |];
      subst v'; simpl; (split; [reflexivity|]).
    + apply (del_get (kb :: rest) root root' v Hsorted Hdel).
    + reflexivity.
Qed.

(** *** The invariants, node by node *)

Lemma Forall_flat_map {A B} (P : B -> Prop) (f : A -> list B) (l : list A) :
  Forall P (flat_map f l) <-> Forall (fun x => Forall P (f x)) l.
Proof.
  induction l as [|x l IH]; simpl.
  - split; constructor.
  - rewrite Forall_app, Forall_cons, IH. reflexivity.
Qed.

Lemma sorted_keys cs :
  StronglySorted node_lt cs ->
  StronglySorted byte_lt (keyByte <$> cs) /\ NoDup (keyByte <$> cs).
Proof.
  induction 1 as [|c cs Hs [IH1 IH2] Hc]; simpl; split; try constructor; auto.
  - apply Forall_fmap. exact Hc.
  - rewrite list_elem_of_fmap. intros (d & Hk & Hd).
    rewrite Forall_forall in Hc. specialize (Hc d Hd).
    unfold node_lt, byte_lt in Hc. rewrite Hk in Hc. lia.
Qed.

Lemma sorted_trie_nodes n :
  sorted_trie n = true -> Forall children_strictly_sorted (nodes n).
Proof.
  induction n as [v cs kb t IH] using node_ind. intros H.
  apply sorted_trie_spec in H as [H1 H2]. simpl in *. constructor.
  - now apply sorted_keys.
  - apply Forall_flat_map. rewrite Forall_forall in *. intros c Hc. auto.
Qed.

Lemma no_dead_below_nodes n :
  no_dead_below n = true -> Forall (fun m => dead m = false) (nodes_below n).
Proof.
  induction n as [v cs kb t IH] using node_ind. intros H.
  apply no_dead_below_spec in H. simpl in *. unfold nodes_below. simpl.
  apply Forall_flat_map. rewrite Forall_forall in *. intros c Hc.
  destruct (H c Hc) as [H1 H2]. specialize (IH c Hc H2).
  destruct c as [v' cs' kb' t']. simpl. constructor; [exact H1 | exact IH].
Qed.

Lemma not_dead_leaf (m : node V) : dead m = false -> leaf_is_terminal m.
Proof.
  unfold dead, leaf_is_terminal. intros H Hc. rewrite Hc in H. simpl in H.
  rewrite andb_true_r in H. now apply negb_false_iff.
Qed.

Lemma reachable_invariants n :
  reachable zero n -> sorted_trie n = true /\ no_dead_below n = true.
Proof.
  induction 1 as [|n k v n' r _ [IH1 IH2] Hp|n k n' r _ [IH1 IH2] Hd].
  - split; reflexivity.
  - simpl in Hp. split; [eapply put_sorted | eapply put_no_dead]; eauto.
  - rewrite Delete_del_root in Hd. injection Hd as Hd.
    assert (Hn : n' = (del_root zero n k).1) by now rewrite Hd. subst n'.
    split; [now apply del_root_sorted | now apply del_root_no_dead].
Qed.

(** C7. On every trie state, a [Put] and a [Delete] complete, and after
    each of them every node of the trie has its children in strictly
    ascending order of key byte, so without two children of the same key
    byte. *)
Theorem children_stay_sorted (n : node V) (k : list byte) (v : V) :
  reachable zero n ->
  (exists n' r, Put zero n (Some k) v = Returned (n', r) /\
                Forall children_strictly_sorted (nodes n')) /\
  (exists n' r, Delete zero n (Some k) = Returned (n', r) /\
                Forall children_strictly_sorted (nodes n')).
Proof.
  intros Hr. split.
  - destruct (put_returns k n v) as (n' & r & Hp). exists n', r.
    split; [exact Hp|]. apply sorted_trie_nodes.
    apply (reachable_invariants n'). eapply reach_Put; eauto.
  - exists (del_root zero n k).1, (del_root zero n k).2.
    assert (Hd : Delete zero n (Some k)
                 = Returned ((del_root zero n k).1, (del_root zero n k).2))
      by (rewrite Delete_del_root; now destruct (del_root zero n k)).
    split; [exact Hd|]. apply sorted_trie_nodes.
    apply (reachable_invariants _). eapply reach_Delete; eauto.
Qed.

(** C8. On every trie state, a [Put] and a [Delete] complete, and after
    each of them every node below the root that has no children is
    terminal. *)
Theorem leaves_stay_terminal (n : node V) (k : list byte) (v : V) :
  reachable zero n ->
  (exists n' r, Put zero n (Some k) v = Returned (n', r) /\
                Forall leaf_is_terminal (nodes_below n')) /\
  (exists n' r, Delete zero n (Some k) = Returned (n', r) /\
                Forall leaf_is_terminal (nodes_below n')).
Proof.
  intros Hr. split.
  - destruct (put_returns k n v) as (n' & r & Hp). exists n', r.
    split; [exact Hp|].
    eapply Forall_impl; [|exact not_dead_leaf]. apply no_dead_below_nodes.
    apply (reachable_invariants n'). eapply reach_Put; eauto.
  - exists (del_root zero n k).1, (del_root zero n k).2.
    assert (Hd : Delete zero n (Some k)
                 = Returned ((del_root zero n k).1, (del_root zero n k).2))
      by (rewrite Delete_del_root; now destruct (del_root zero n k)).
    split; [exact Hd|].
    eapply Forall_impl; [|exact not_dead_leaf]. apply no_dead_below_nodes.
    apply (reachable_invariants _). eapply reach_Delete; eauto.
Qed.

(** C3. On every trie state, the [Delete] of a stored key returns its value
    and [true]; a following [Get] of the key answers the zero value and
    [false], and no node below the root is left dead, that is, neither
    terminal nor with a child. *)
Theorem Delete_then_Get (n : node V) (k : list byte) (v : V) :
  reachable zero n ->
  Get zero n (Some k) = Returned (v, true) ->
  exists n',
    Delete zero n (Some k) = Returned (n', (v, true)) /\
    Get zero n' (Some k) = Returned (zero, false) /\
    Forall (fun m => dead m = false) (nodes_below n').
Proof.
  intros Hr Hg. destruct (reachable_invariants n Hr) as [Hs Hd].
  simpl in Hg. destruct (del_root_stored n k v Hs Hg) as [H1 H2].
  exists (del_root zero n k).1. repeat split.
  - rewrite Delete_del_root, <- H1. now destruct (del_root zero n k).
  - exact H2.
  - apply no_dead_below_nodes. now apply del_root_no_dead.
Qed.

(** C10. Whenever [Delete] of a non-nil key answers [false], the trie it
    leaves is the trie it was given, node for node, and the value it
    returns is the zero value. *)
Theorem Delete_absent_unchanged (n : node V) (k : list byte) (n' : node V) (v : V) :
  Delete zero n (Some k) = Returned (n', (v, false)) -> n' = n /\ v = zero.
Proof.
  rewrite Delete_del_root. unfold del_root. destruct k as [|kb rest].
  - destruct (isTerminal n); [discriminate|]. intros [= <- <-]. auto.
  - destruct (del zero n (kb :: rest)); [|discriminate|discriminate].
    intros [= <- <-]. auto.
Qed.

End TrieFacts.

(** ** The order of the keys and the edges of a range *)

Section KeyOrder.

Implicit Types (a b c p e s : list byte) (x y : byte).

Lemma cmp_refl a : bytes_Compare a a = Eq.
Proof. induction a as [|x a IH]; simpl; [reflexivity|]. now rewrite byte_ltb_irrefl. Qed.

Lemma cmp_eq a : forall b, bytes_Compare a b = Eq -> a = b.
Proof.
  induction a as [|x a IH]; intros [|y b]; simpl; try discriminate; [reflexivity|].
  destruct (byte_ltb x y) eqn:L1; [discriminate|].
  destruct (byte_ltb y x) eqn:L2; [discriminate|].
  intros H. rewrite (byte_ltb_total x y L1 L2), (IH b H). reflexivity.
Qed.

Lemma cmp_antisym a : forall b, bytes_Compare b a = CompOpp (bytes_Compare a b).
Proof.
  induction a as [|x a IH]; intros [|y b]; simpl; try reflexivity.
  destruct (byte_ltb x y) eqn:L1.
  - now rewrite (byte_ltb_asym x y L1).
  - destruct (byte_ltb y x); [reflexivity | apply IH].
Qed.

Lemma cmp_lt_trans a : forall b c,
  bytes_Compare a b = Lt -> bytes_Compare b c = Lt -> bytes_Compare a c = Lt.
Proof.
  induction a as [|x a IH]; intros [|y b] [|z c]; simpl; try discriminate; try reflexivity.
  destruct (byte_ltb x y) eqn:Lxy.
  - intros _. destruct (byte_ltb y z) eqn:Lyz.
    + intros _. now rewrite (byte_ltb_trans x y z Lxy Lyz).
    + destruct (byte_ltb z y) eqn:Lzy; [discriminate|]. intros _.
      rewrite <- (byte_ltb_total y z Lyz Lzy). now rewrite Lxy.
  - destruct (byte_ltb y x) eqn:Lyx; [discriminate|].
    rewrite (byte_ltb_total x y Lxy Lyx). intros Hab.
    destruct (byte_ltb y z); [reflexivity|].
    destruct (byte_ltb z y); [discriminate|]. now apply IH.
Qed.

Lemma cmp_gt_lt a b : bytes_Compare a b = Gt <-> bytes_Compare b a = Lt.
Proof.
  rewrite (cmp_antisym a b). destruct (bytes_Compare a b); simpl; split; congruence.
Qed.

Lemma cmp_app_l p : forall a b, bytes_Compare (p ++ a) (p ++ b) = bytes_Compare a b.
Proof.
  induction p as [|x p IH]; intros a b; simpl; [reflexivity|].
  now rewrite byte_ltb_irrefl.
Qed.

Lemma cmp_extension a x s : bytes_Compare a (a ++ x :: s) = Lt.
Proof. rewrite <- (app_nil_r a) at 1. now rewrite cmp_app_l. Qed.

Lemma cmp_lt_irrefl a : bytes_Compare a a <> Lt.
Proof. now rewrite cmp_refl. Qed.

(** The comparison of an extension of the prefix with the edge key, from the
    state of the prefix. *)
Lemma cmp_from_state p : forall e s,
  bytes_Compare (p ++ s) e =
  match edge_at p e with
  | Diverged_below => Lt
  | Diverged_above => Gt
  | Reached => match s with [] => Eq | _ :: _ => Gt end
  | Next_byte _ => bytes_Compare s (drop (length p) e)
  end.
Proof.
  induction p as [|x p IH]; intros [|y e] s; simpl.
  - now destruct s.
  - reflexivity.
  - reflexivity.
  - destruct (byte_ltb x y); [reflexivity|].
    destruct (byte_ltb y x); [reflexivity|]. apply IH.
Qed.

Lemma next_byte_drop p : forall e y,
  edge_at p e = Next_byte y -> exists e', drop (length p) e = y :: e'.
Proof.
  induction p as [|x p IH]; intros [|z e] y; simpl; try discriminate.
  - intros [= ->]. eauto.
  - destruct (byte_ltb x z); [discriminate|].
    destruct (byte_ltb z x); [discriminate|]. apply IH.
Qed.

(** The state of the prefix one byte further. *)
Lemma state_step p : forall e x,
  edge_at (p ++ [x]) e =
  match edge_at p e with
  | Diverged_below => Diverged_below
  | Diverged_above | Reached => Diverged_above
  | Next_byte y =>
      if byte_ltb x y then Diverged_below
      else if byte_ltb y x then Diverged_above
      else match drop (S (length p)) e with
           | [] => Reached
           | z :: _ => Next_byte z
           end
  end.
Proof.
  induction p as [|x' p IH]; intros [|y e] x; simpl; try reflexivity.
  destruct (byte_ltb x' y); [reflexivity|].
  destruct (byte_ltb y x'); [reflexivity|]. apply IH.
Qed.

(** *** The narrowing step against the edges *)

Lemma byte_ge_x00 x : byte_ltb x Byte.x00 = false.
Proof. apply byte_ltb_ge. simpl. lia. Qed.

Lemma byte_le_xff x : byte_ltb Byte.xff x = false.
Proof. apply byte_ltb_ge. pose proof (Byte.to_N_bounded x). simpl. lia. Qed.

Lemma within_step_ok (b : Bounds) k x s :
  within b (k ++ x :: s) = true -> step_ok b k x = true.
Proof.
  unfold within, above_low, below_high, step_ok, min_byte, max_byte.
  intros H. apply andb_prop in H as [Hlow Hhigh].
  assert (Hmin : exists lo, match low b with
                            | Some e0 =>
                                match edge_at k (edgeKey e0) with
                                | Diverged_below => None
                                | Next_byte x0 => Some x0
                                | _ => Some Byte.x00
                                end
                            | None => Some Byte.x00
                            end = Some lo /\ byte_ltb x lo = false).
  { destruct (low b) as [e0|]; [|eexists; split; [reflexivity | apply byte_ge_x00]].
    rewrite cmp_from_state in Hlow.
    destruct (edge_at k (edgeKey e0)) as [| |y|] eqn:He; try discriminate;
      try (eexists; split; [reflexivity | apply byte_ge_x00]).
    destruct (next_byte_drop _ _ _ He) as [e' Hd]. rewrite Hd in Hlow. simpl in Hlow.
    exists y. split; [reflexivity|]. destruct (byte_ltb x y); [discriminate | reflexivity]. }
  assert (Hmax : exists hi, match high b with
                            | Some e0 =>
                                match edge_at k (edgeKey e0) with
                                | Diverged_below => Some Byte.xff
                                | Next_byte x0 => Some x0
                                | _ => None
                                end
                            | None => Some Byte.xff
                            end = Some hi /\ byte_ltb hi x = false).
  { destruct (high b) as [e0|]; [|eexists; split; [reflexivity | apply byte_le_xff]].
    rewrite cmp_from_state in Hhigh.
    destruct (edge_at k (edgeKey e0)) as [| |y|] eqn:He; try discriminate;
      try (eexists; split; [reflexivity | apply byte_le_xff]).
    destruct (next_byte_drop _ _ _ He) as [e' Hd]. rewrite Hd in Hhigh. simpl in Hhigh.
    exists y. split; [reflexivity|].
    destruct (byte_ltb x y) eqn:Hxy; [now apply byte_ltb_asym|].
    destruct (byte_ltb y x); [discriminate | reflexivity]. }
  destruct Hmin as (lo & -> & Hlo). destruct Hmax as (hi & -> & Hhi).
  now rewrite Hlo, Hhi.
Qed.

Lemma within_allowed (b : Bounds) s : forall k,
  within b (k ++ s) = true -> allowed b k s = true.
Proof.
  induction s as [|x s IH]; intros k H; simpl; [reflexivity|].
  rewrite (within_step_ok b k x s H). simpl. apply IH.
  now rewrite <- app_assoc.
Qed.

Lemma step_not_above (b : Bounds) (e : edge) k x :
  high b = Some e -> step_ok b k x = true ->
  edge_at (k ++ [x]) (edgeKey e) <> Diverged_above.
Proof.
  unfold step_ok, max_byte. intros -> H. rewrite state_step.
  destruct (min_byte b k) as [lo|]; [|discriminate].
  destruct (edge_at k (edgeKey e)) as [| |y|]; try discriminate.
  apply andb_prop in H as [_ H]. apply negb_true_iff in H.
  destruct (byte_ltb x y); [discriminate|]. rewrite H.
  now destruct (drop (S (length k)) (edgeKey e)).
Qed.

Lemma allowed_not_above (b : Bounds) (e : edge) :
  high b = Some e -> forall s k,
  edge_at k (edgeKey e) <> Diverged_above -> allowed b k s = true ->
  edge_at (k ++ s) (edgeKey e) <> Diverged_above.
Proof.
  intros He. induction s as [|x s IH]; intros k Hk Ha; simpl in *.
  - now rewrite app_nil_r.
  - apply andb_prop in Ha as [Hok Ha].
    replace (k ++ x :: s) with ((k ++ [x]) ++ s) by now rewrite <- app_assoc.
    apply IH; [|exact Ha]. eapply step_not_above; eauto.
Qed.

Lemma not_above_cmp k e :
  edge_at k e <> Diverged_above -> bytes_Compare k e <> Gt.
Proof.
  intros H. rewrite <- (app_nil_r k), cmp_from_state.
  destruct (edge_at k e) as [| |y|] eqn:He; try discriminate; [congruence|].
  destruct (next_byte_drop _ _ _ He) as [e' ->]. discriminate.
Qed.

Lemma allowed_below_high (b : Bounds) s :
  (forall e : edge, high b = Some e -> inclusive e = true) ->
  allowed b [] s = true -> below_high b s = true.
Proof.
  intros Hincl Ha. unfold below_high. destruct (high b) as [e|] eqn:He; [|reflexivity].
  assert (H : edge_at ([] ++ s) (edgeKey e) <> Diverged_above).
  { apply (allowed_not_above b e He); [|exact Ha].
    simpl. now destruct (edgeKey e). }
  apply not_above_cmp in H. simpl in H.
  destruct (bytes_Compare s (edgeKey e)); [now apply Hincl | reflexivity | congruence].
Qed.

(** *** The edges along the order of the keys *)

Lemma below_high_mono (b : Bounds) k k' :
  key_lt k k' -> below_high b k = false -> below_high b k' = false.
Proof.
  unfold key_lt, below_high. intros Hlt. destruct (high b) as [ed|]; [|discriminate].
  destruct (bytes_Compare k (edgeKey ed)) eqn:Hk.
  - apply cmp_eq in Hk as <-. intros _. apply cmp_gt_lt in Hlt. now rewrite Hlt.
  - discriminate.
  - intros _. apply cmp_gt_lt in Hk.
    pose proof (cmp_lt_trans _ _ _ Hk Hlt) as H. apply cmp_gt_lt in H. now rewrite H.
Qed.

Lemma above_low_mono (b : Bounds) k k' :
  key_lt k' k -> above_low b k = false -> above_low b k' = false.
Proof.
  unfold key_lt, above_low. intros Hlt. destruct (low b) as [ed|]; [|discriminate].
  destruct (bytes_Compare k (edgeKey ed)) eqn:Hk.
  - apply cmp_eq in Hk as <-. intros _. now rewrite Hlt.
  - intros _. now rewrite (cmp_lt_trans _ _ _ Hlt Hk).
  - discriminate.
Qed.

Lemma above_low_iff (b : Bounds) k : above_low b k = true <-> satisfies_low b k.
Proof.
  unfold above_low, satisfies_low, key_lt. destruct (low b) as [ed|]; [|tauto].
  destruct (bytes_Compare k (edgeKey ed)) eqn:Hk.
  - apply cmp_eq in Hk as ->. rewrite cmp_refl. split; [auto|].
    intros [H|[H _]]; [discriminate | exact H].
  - split; [discriminate|]. intros [H|[_ ->]].
    + apply cmp_gt_lt in H. congruence.
    + rewrite cmp_refl in Hk. discriminate.
  - apply cmp_gt_lt in Hk. tauto.
Qed.

Lemma below_high_iff (b : Bounds) k : below_high b k = true <-> satisfies_high b k.
Proof.
  unfold below_high, satisfies_high, key_lt. destruct (high b) as [ed|]; [|tauto].
  destruct (bytes_Compare k (edgeKey ed)) eqn:Hk.
  - apply cmp_eq in Hk as ->. split; [auto|].
    intros [H|[H _]]; [discriminate | exact H].
  - tauto.
  - split; [discriminate|]. intros [H|[_ ->]]; [discriminate|].
    rewrite cmp_refl in Hk. discriminate.
Qed.

Lemma Compare_below (b : Bounds) k : (Compare b k <? 0)%Z = negb (above_low b k).
Proof.
  unfold Compare. destruct (above_low b k); simpl; [|reflexivity].
  now destruct (below_high b k).
Qed.

Lemma Compare_above (b : Bounds) k :
  (0 <? Compare b k)%Z = above_low b k && negb (below_high b k).
Proof.
  unfold Compare. destruct (above_low b k); simpl; [|reflexivity].
  now destruct (below_high b k).
Qed.

End KeyOrder.

(** ** Sequences, walks and the lists they go through *)

Section Walks.

Context {T : Type}.

Lemma run_ext {S} (l : list T) (y y' : T -> S -> S * bool) s :
  (forall x s', y x s' = y' x s') -> run l y s = run l y' s.
Proof.
  intros H. revert s. induction l as [|x l IH]; intros s; simpl; [reflexivity|].
  rewrite H. destruct (y' x s) as [s' ok]. destruct ok; [apply IH | reflexivity].
Qed.

Lemma run_app {S} (l1 l2 : list T) (y : T -> S -> S * bool) s :
  run (l1 ++ l2) y s =
  let '(s1, stopped) := run l1 y s in
  if stopped then (s1, true) else run l2 y s1.
Proof.
  revert s. induction l1 as [|x l1 IH]; intros s; simpl; [reflexivity|].
  destruct (y x s) as [s' ok]. destruct ok; [apply IH | reflexivity].
Qed.

(** A loop whose body walks [g x] and leaves when that walk is done goes
    through the concatenation of the walks. *)
Lemma run_nested {S} (g : T -> list T) (y : T -> S -> S * bool) (l : list T) s :
  (run l (fun x '(s2, _) =>
            let '(s3, done) := run (g x) y s2 in ((s3, done), negb done))
       (s, false)).1
  = run (flat_map g l) y s.
Proof.
  revert s. induction l as [|x l IH]; intros s; simpl; [reflexivity|].
  rewrite run_app. destruct (run (g x) y s) as [s3 done]. destruct done; simpl.
  - reflexivity.
  - apply IH.
Qed.

Lemma run_traced {S} (y : T -> S -> S * bool) (l : list T) : forall log s,
  exists pre,
    (run l (traced y) (log, s)).1.1 = log ++ pre /\
    pre `prefix_of` l /\
    forall i x, pre !! i = Some x -> Datatypes.S i < length pre ->
                exists s', (y x s').2 = true.
Proof.
  induction l as [|x l IH]; intros log s; simpl.
  - exists []. rewrite app_nil_r. repeat split; [reflexivity|].
    intros i x Hi. discriminate.
  - destruct (y x s) as [s' ok] eqn:Hy. destruct ok.
    + destruct (IH (log ++ [x]) s') as (pre & Hlog & Hpre & Hok).
      exists (x :: pre). rewrite Hlog, <- app_assoc. repeat split.
      * now apply prefix_cons.
      * intros [|i] z Hi Hlt; simpl in *.
        -- injection Hi as <-. exists s. now rewrite Hy.
        -- apply (Hok i z Hi). lia.
    + exists [x]. simpl. repeat split.
      * apply prefix_cons, prefix_nil.
      * intros i z Hi Hlt. simpl in Hlt. lia.
Qed.

(** Recording the visits changes nothing for the consumer. *)
Lemma run_traced_erase {S} (y : T -> S -> S * bool) (l : list T) : forall log s,
  ((run l (traced y) (log, s)).1.2, (run l (traced y) (log, s)).2) = run l y s.
Proof.
  induction l as [|x l IH]; intros log s; simpl; [reflexivity|].
  destruct (y x s) as [s' ok]. destruct ok; [apply IH | reflexivity].
Qed.

Lemma sorted_lookup (R : relation T) (l : list T) i j x z :
  StronglySorted R l -> l !! i = Some x -> l !! j = Some z -> i < j -> R x z.
Proof.
  intros Hs. revert i j. induction Hs as [|a l Hs IH Ha]; intros i j; [discriminate|].
  destruct i as [|i], j as [|j]; simpl; try lia.
  - intros [= <-] Hz _. rewrite Forall_forall in Ha. apply Ha.
    eapply list_elem_of_lookup_2; eauto.
  - intros Hi Hj Hlt. apply (IH i j Hi Hj). lia.
Qed.

Variable adj : adjFunction T.
Variable adjl : T -> list T.
Hypothesis adj_list : forall node S (y : T -> S -> S * bool) s,
  adj node S y s = (run (adjl node) y s).1.

Lemma preOrderRecurse_run {S} fuel : forall node (y : T -> S -> S * bool) s,
  preOrderRecurse fuel node adj y s = run (pre_list fuel adjl node) y s.
Proof using adj_list.
  induction fuel as [|fuel IH]; intros node y s; simpl; [reflexivity|].
  destruct (y node s) as [s1 ok]. destruct ok; simpl; [|reflexivity].
  rewrite adj_list, <- run_nested. f_equal. apply run_ext.
  intros x [s2 d]. now rewrite IH.
Qed.

(** The engine on paths, given an adjacency and a consumer that look at the
    last node of the path only, is the engine on nodes. *)
Lemma preOrderRecurse_of_paths {S} fuel :
  forall (path : list T) (node : T) (y : T -> S -> S * bool) s,
  Paths.preOrderRecurse fuel (path ++ [node])
    (fun p => match last p with Some x => adj x | None => emptySeq end)
    (fun p s' => match last p with Some x => y x s' | None => (s', true) end) s
  = preOrderRecurse fuel node adj y s.
Proof using adj_list.
  induction fuel as [|fuel IH]; intros path node y s; simpl; [reflexivity|].
  rewrite last_snoc. destruct (y node s) as [s1 ok]. destruct ok; simpl; [|reflexivity].
  rewrite !adj_list. f_equal. apply run_ext. intros x [s2 d]. now rewrite IH.
Qed.

Lemma postOrderRecurse_run {S} fuel : forall node (y : T -> S -> S * bool) s,
  postOrderRecurse fuel node adj y s = run (post_list fuel adjl node) y s.
Proof using adj_list.
  induction fuel as [|fuel IH]; intros node y s; simpl; [reflexivity|].
  rewrite run_app, adj_list, <- run_nested.
  rewrite (run_ext (adjl node) _
             (fun x '(s2, _) =>
                let '(s3, done) := run (post_list fuel adjl x) y s2 in
                ((s3, done), negb done)))
    by (intros x [s2 d]; now rewrite IH).
  destruct (run (adjl node) _ (s, false)) as [[s1 done] st]. simpl.
  destruct done; [reflexivity|]. destruct (y node s1) as [s4 ok].
  now destruct ok.
Qed.

Lemma post_list_rev fuel : forall node,
  post_list fuel (fun x => rev (adjl x)) node = rev (pre_list fuel adjl node).
Proof.
  induction fuel as [|fuel IH]; intros node; simpl; [reflexivity|].
  f_equal. induction (adjl node) as [|x l IHl]; simpl; [reflexivity|].
  rewrite flat_map_app, rev_app_distr, IHl. simpl. now rewrite app_nil_r, IH.
Qed.

End Walks.

(** ** Range *)

Section RangeFacts.

Context {V : Type} (zero : V).
Implicit Types (n c : node V) (cs : list (node V)) (k key : list byte)
  (b : Bounds) (p q path : rangePath V).

(** *** The adjacency functions and the lists they push *)

Lemma forward_loop_run {S} cs start stop k (y : rangePath V -> S -> S * bool) s :
  forward_loop cs start stop k y s
  = (run (child_path k <$> allowed_fwd cs start stop) y s).1.
Proof.
  revert s. induction cs as [|c cs IH]; intros s; simpl; [reflexivity|].
  destruct (byte_ltb (keyByte c) start); [apply IH|].
  destruct (byte_ltb stop (keyByte c)); [reflexivity|]. simpl.
  unfold child_path at 1. destruct (y _ s) as [s' ok].
  destruct ok; simpl; [apply IH | reflexivity].
Qed.

Lemma reverse_loop_run {S} cs start stop k (y : rangePath V -> S -> S * bool) s :
  reverse_loop cs start stop k y s
  = (run (child_path k <$> allowed_rev cs start stop) y s).1.
Proof.
  revert s. induction cs as [|c cs IH]; intros s; simpl; [reflexivity|].
  destruct (byte_ltb start (keyByte c)); [apply IH|].
  destruct (byte_ltb (keyByte c) stop); [reflexivity|]. simpl.
  unfold child_path at 1. destruct (y _ s) as [s' ok].
  destruct ok; simpl; [apply IH | reflexivity].
Qed.

Lemma forwardChildAdj_run b path S (y : rangePath V -> S -> S * bool) s :
  forwardChildAdj b path S y s = (run (fwd_adj b path) y s).1.
Proof.
  unfold forwardChildAdj, fwd_adj.
  destruct (childBounds b (rp_key path)) as [[start stop] ok].
  destruct ok; simpl; [apply forward_loop_run | reflexivity].
Qed.

Lemma reverseChildAdj_run b path S (y : rangePath V -> S -> S * bool) s :
  reverseChildAdj b path S y s = (run (rev_adj b path) y s).1.
Proof.
  unfold reverseChildAdj, rev_adj.
  destruct (childBounds b (rp_key path)) as [[start stop] ok].
  destruct ok; simpl; [apply reverse_loop_run | reflexivity].
Qed.

Lemma filter_none {A} (f : A -> bool) (l : list A) :
  Forall (fun x => f x = false) l -> List.filter f l = [].
Proof.
  induction 1 as [|x l Hx _ IH]; simpl; [reflexivity|]. now rewrite Hx.
Qed.

Lemma allowed_fwd_filter cs lo hi :
  StronglySorted node_lt cs ->
  allowed_fwd cs lo hi = List.filter (in_range lo hi) cs.
Proof.
  induction 1 as [|c cs Hs IH Hc]; simpl; [reflexivity|]. unfold in_range at 1.
  destruct (byte_ltb (keyByte c) lo); simpl; [exact IH|].
  destruct (byte_ltb hi (keyByte c)) eqn:Hhi; simpl; [|now rewrite IH].
  symmetry. apply filter_none. eapply Forall_impl; [exact Hc|].
  intros d Hd. unfold in_range. apply byte_ltb_lt in Hhi.
  assert (byte_ltb hi (keyByte d) = true) as ->
    by (apply byte_ltb_lt; unfold node_lt, byte_lt in *; lia).
  apply andb_false_r.
Qed.

Lemma allowed_rev_filter cs lo hi :
  StronglySorted (flip node_lt) cs ->
  allowed_rev cs hi lo = List.filter (in_range lo hi) cs.
Proof.
  induction 1 as [|c cs Hs IH Hc]; simpl; [reflexivity|]. unfold in_range at 1.
  destruct (byte_ltb hi (keyByte c)); simpl; [now rewrite andb_false_r|].
  rewrite andb_true_r.
  destruct (byte_ltb (keyByte c) lo) eqn:Hlo; simpl; [|now rewrite IH].
  symmetry. apply filter_none. eapply Forall_impl; [exact Hc|].
  intros d Hd. unfold in_range. apply byte_ltb_lt in Hlo.
  assert (byte_ltb (keyByte d) lo = true) as ->
    by (apply byte_ltb_lt; unfold flip, node_lt, byte_lt in *; lia).
  reflexivity.
Qed.

Lemma sorted_rev cs :
  StronglySorted node_lt cs -> StronglySorted (flip node_lt) (rev cs).
Proof.
  induction 1 as [|c cs Hs IH Hc]; simpl; [constructor|].
  apply StronglySorted_app_2; [|exact IH|repeat constructor].
  intros x1 x2 H1 H2. apply list_elem_of_singleton in H2 as ->.
  rewrite Forall_forall in Hc. apply Hc.
  apply list_elem_of_In. apply list_elem_of_In in H1. now apply in_rev.
Qed.

Lemma fmap_rev {A B} (f : A -> B) (l : list A) : f <$> rev l = rev (f <$> l).
Proof.
  induction l as [|x l IH]; simpl; [reflexivity|]. now rewrite fmap_app, IH.
Qed.

Lemma fwd_adj_kids b path :
  IsReverse b = false -> StronglySorted node_lt (children (rp_node path)) ->
  fwd_adj b path = kids b path.
Proof.
  intros Hdir Hs. unfold fwd_adj, kids, childBounds.
  destruct (min_byte b (rp_key path)) as [lo|]; [|reflexivity].
  destruct (max_byte b (rp_key path)) as [hi|]; [|reflexivity].
  destruct (byte_ltb hi lo); [reflexivity|]. rewrite Hdir.
  now rewrite allowed_fwd_filter.
Qed.

Lemma rev_adj_kids b path :
  IsReverse b = true -> StronglySorted node_lt (children (rp_node path)) ->
  rev_adj b path = rev (kids b path).
Proof.
  intros Hdir Hs. unfold rev_adj, kids, childBounds.
  destruct (min_byte b (rp_key path)) as [lo|]; [|reflexivity].
  destruct (max_byte b (rp_key path)) as [hi|]; [|reflexivity].
  destruct (byte_ltb hi lo); [reflexivity|]. rewrite Hdir.
  rewrite allowed_rev_filter by now apply sorted_rev.
  now rewrite filter_rev, fmap_rev.
Qed.

Lemma kids_sorted b path q :
  sorted_trie (rp_node path) = true -> In q (kids b path) ->
  sorted_trie (rp_node q) = true.
Proof.
  intros Hs Hq. apply sorted_trie_spec in Hs as [_ Hs]. unfold kids in Hq.
  destruct (min_byte b (rp_key path)) as [lo|]; [|contradiction].
  destruct (max_byte b (rp_key path)) as [hi|]; [|contradiction].
  destruct (byte_ltb hi lo); [contradiction|].
  apply list_elem_of_In, list_elem_of_fmap in Hq as (c & -> & Hc).
  apply list_elem_of_In, filter_In in Hc as [Hc _]. simpl.
  rewrite Forall_forall in Hs. apply Hs. now apply list_elem_of_In.
Qed.

Lemma flat_map_ext_in {A B} (f g : A -> list B) (l : list A) :
  (forall x, In x l -> f x = g x) -> flat_map f l = flat_map g l.
Proof.
  induction l as [|x l IH]; intros H; simpl; [reflexivity|].
  rewrite (H x) by now left. rewrite IH; [reflexivity|].
  intros y Hy. apply H. now right.
Qed.

Lemma pre_list_kids b fuel : forall path,
  IsReverse b = false -> sorted_trie (rp_node path) = true ->
  pre_list fuel (fwd_adj b) path = pre_list fuel (kids b) path.
Proof.
  induction fuel as [|fuel IH]; intros path Hdir Hs; simpl; [reflexivity|].
  f_equal. rewrite fwd_adj_kids by (auto; now apply sorted_trie_spec in Hs).
  apply flat_map_ext_in. intros q Hq. apply IH; [exact Hdir|].
  eapply kids_sorted; eauto.
Qed.

Lemma post_list_kids b fuel : forall path,
  IsReverse b = true -> sorted_trie (rp_node path) = true ->
  post_list fuel (rev_adj b) path = rev (pre_list fuel (kids b) path).
Proof.
  intros path Hdir Hs. rewrite <- post_list_rev. revert path Hs.
  induction fuel as [|fuel IH]; intros path Hs; simpl; [reflexivity|].
  f_equal. rewrite rev_adj_kids by (auto; now apply sorted_trie_spec in Hs).
  apply flat_map_ext_in. intros q Hq. apply IH.
  apply in_rev in Hq. eapply kids_sorted; eauto.
Qed.

(** *** The paths of the walk *)

Lemma kids_spec b path q :
  In q (kids b path) <->
  exists c, In c (children (rp_node path)) /\
            step_ok b (rp_key path) (keyByte c) = true /\
            q = child_path (rp_key path) c.
Proof.
  unfold kids, step_ok.
  destruct (min_byte b (rp_key path)) as [lo|];
    [|split; [contradiction | intros (c & _ & H & _); discriminate]].
  destruct (max_byte b (rp_key path)) as [hi|];
    [|split; [contradiction | intros (c & _ & H & _); discriminate]].
  destruct (byte_ltb hi lo) eqn:Hempty.
  - split; [contradiction|]. intros (c & _ & H & _). exfalso.
    apply andb_prop in H as [H1 H2].
    apply negb_true_iff in H1, H2. apply byte_ltb_ge in H1, H2.
    apply byte_ltb_lt in Hempty. unfold byte_lt in Hempty. lia.
  - rewrite <- list_elem_of_In, list_elem_of_fmap. split.
    + intros (c & -> & Hc). apply list_elem_of_In, filter_In in Hc as [Hc Hr].
      exists c. auto.
    + intros (c & Hc & Hr & ->). exists c. split; [reflexivity|].
      apply list_elem_of_In, filter_In. auto.
Qed.

Lemma height_child n c : In c (children n) -> height c < height n.
Proof.
  destruct n as [v cs kb t]. simpl. intros Hc.
  enough (height c <= foldr (fun c h => Nat.max (height c) h) 0 cs) by lia.
  induction cs as [|d cs IH]; [contradiction|]. simpl.
  destruct Hc as [->|Hc]; [lia|]. specialize (IH Hc). lia.
Qed.

Lemma height_pos n : 0 < height n.
Proof. destruct n. simpl. lia. Qed.

Lemma walk_sound b fuel : forall path p,
  sorted_trie (rp_node path) = true ->
  In p (pre_list fuel (kids b) path) ->
  exists s, rp_key p = rp_key path ++ s /\
            find (rp_node path) s = Some (rp_node p) /\
            allowed b (rp_key path) s = true.
Proof.
  induction fuel as [|fuel IH]; intros path p Hsorted; simpl; [contradiction|].
  intros [<-|Hp].
  - exists []. rewrite app_nil_r. auto.
  - apply in_flat_map in Hp as (q & Hq & Hp).
    pose proof (kids_sorted b path q Hsorted Hq) as Hqs.
    apply kids_spec in Hq as (c & Hc & Hok & ->).
    destruct (IH _ _ Hqs Hp) as (s & Hk & Hf & Ha). simpl in *.
    exists (keyByte c :: s). rewrite Hk, <- app_assoc. split; [reflexivity|].
    simpl. rewrite Hok, Ha. split; [|reflexivity].
    apply sorted_trie_spec in Hsorted as [Hs _].
    apply list_elem_of_In, list_elem_of_lookup in Hc as [j Hj].
    unfold search. rewrite (search_from_sorted _ _ _ Hs Hj), Hj. exact Hf.
Qed.

Lemma walk_complete b fuel : forall path s t,
  height (rp_node path) <= fuel ->
  find (rp_node path) s = Some t ->
  allowed b (rp_key path) s = true ->
  In (RangePath t (rp_key path ++ s)) (pre_list fuel (kids b) path).
Proof.
  induction fuel as [|fuel IH]; intros path s t Hh.
  - pose proof (height_pos (rp_node path)). lia.
  - destruct s as [|x s]; simpl.
    + intros [= <-] _. left. destruct path. simpl. now rewrite app_nil_r.
    + destruct (search (rp_node path) x) as [j found] eqn:Hs.
      destruct found; [|discriminate].
      destruct (search_found _ _ _ Hs) as (c & Hc & Hk). rewrite Hc. simpl.
      intros Hf Ha. apply andb_prop in Ha as [Hok Ha]. right.
      apply in_flat_map. exists (child_path (rp_key path) c).
      assert (Hin : In c (children (rp_node path))).
      { apply list_elem_of_In. eapply list_elem_of_lookup_2; eauto. }
      split.
      * apply kids_spec. exists c. rewrite Hk. auto.
      * replace (rp_key path ++ x :: s)
          with (rp_key (child_path (rp_key path) c) ++ s)
          by (simpl; now rewrite Hk, <- app_assoc).
        apply IH; simpl; [|exact Hf|now rewrite Hk].
        pose proof (height_child _ _ Hin). lia.
Qed.

Lemma sorted_filter (f : node V -> bool) cs :
  StronglySorted node_lt cs -> StronglySorted node_lt (List.filter f cs).
Proof.
  induction 1 as [|c cs Hs IH Hc]; simpl; [constructor|].
  destruct (f c); [|exact IH]. constructor; [exact IH|].
  rewrite Forall_forall in *. intros d Hd. apply Hc.
  apply list_elem_of_In, filter_In in Hd as [Hd _]. now apply list_elem_of_In.
Qed.

Lemma walk_sorted b fuel : forall path,
  sorted_trie (rp_node path) = true ->
  StronglySorted path_lt (pre_list fuel (kids b) path).
Proof.
  induction fuel as [|fuel IH]; intros path Hsorted; simpl; [constructor|].
  constructor.
  - assert (Hk : exists l,
        kids b path = child_path (rp_key path) <$> l /\
        StronglySorted node_lt l /\ Forall (fun c => sorted_trie c = true) l).
    { apply sorted_trie_spec in Hsorted as [Hs Hall]. unfold kids.
      destruct (min_byte b (rp_key path)) as [lo|];
        [|exists []; repeat split; constructor].
      destruct (max_byte b (rp_key path)) as [hi|];
        [|exists []; repeat split; constructor].
      destruct (byte_ltb hi lo); [exists []; repeat split; constructor|].
      eexists. split; [reflexivity|]. split; [now apply sorted_filter|].
      rewrite Forall_forall in *. intros c Hc. apply Hall.
      apply list_elem_of_In, filter_In in Hc as [Hc _]. now apply list_elem_of_In. }
    destruct Hk as (l & -> & Hl & Hall). clear Hsorted.
    induction Hl as [|c l Hl IHl Hc]; simpl; [constructor|].
    inversion Hall as [|? ? Hcs Hall']; subst.
    apply StronglySorted_app_2; [|now apply IH|now apply IHl].
    intros x1 x2 H1 H2.
    apply list_elem_of_In, walk_sound in H1 as (s1 & Hk1 & _); [|exact Hcs].
    apply list_elem_of_In, in_flat_map in H2 as (q & Hq & H2).
    apply list_elem_of_In, list_elem_of_fmap in Hq as (d & -> & Hd).
    rewrite Forall_forall in Hc, Hall'.
    apply walk_sound in H2 as (s2 & Hk2 & _); [|now apply Hall'].
    specialize (Hc d Hd). unfold path_lt, key_lt. rewrite Hk1, Hk2. simpl.
    rewrite <- !app_assoc, cmp_app_l. simpl.
    apply byte_ltb_lt in Hc. now rewrite Hc.
  - rewrite Forall_forall. intros x Hx.
    apply list_elem_of_In, in_flat_map in Hx as (q & Hq & Hx).
    pose proof (kids_sorted b path q Hsorted Hq) as Hqs.
    apply kids_spec in Hq as (c & _ & _ & ->).
    apply walk_sound in Hx as (s & Hk & _); [|exact Hqs].
    unfold path_lt, key_lt. rewrite Hk. simpl. rewrite <- app_assoc.
    apply cmp_extension.
Qed.

Lemma get_find key : forall n v,
  get zero n key = Returned (v, true) <->
  exists t, find n key = Some t /\ isTerminal t = true /\ value t = v.
Proof.
  induction key as [|kb rest IH]; intros n v; simpl.
  - destruct (isTerminal n) eqn:Ht; split.
    + intros [= <-]. eauto.
    + intros (t & [= <-] & _ & <-). reflexivity.
    + discriminate.
    + intros (t & [= <-] & Ht' & _). congruence.
  - destruct (search n kb) as [j found] eqn:Hs. destruct found; simpl.
    + destruct (search_found _ _ _ Hs) as (c & Hc & Hk).
      unfold child_at. rewrite Hc. simpl. apply IH.
    + split; [discriminate|]. intros (t & Hf & _). discriminate.
Qed.

(** *** What the loop of Range yields *)

Lemma sorted_list_filter {A} (R : relation A) (f : A -> bool) (l : list A) :
  StronglySorted R l -> StronglySorted R (List.filter f l).
Proof.
  induction 1 as [|x l Hs IH Hx]; simpl; [constructor|].
  destruct (f x); [|exact IH]. constructor; [exact IH|].
  rewrite Forall_forall in *. intros d Hd. apply Hx.
  apply list_elem_of_In, filter_In in Hd as [Hd _]. now apply list_elem_of_In.
Qed.

Lemma sorted_list_rev {A} (R : relation A) (l : list A) :
  StronglySorted R l -> StronglySorted (flip R) (rev l).
Proof.
  induction 1 as [|x l Hs IH Hx]; simpl; [constructor|].
  apply StronglySorted_app_2; [|exact IH|repeat constructor].
  intros x1 x2 H1 H2. apply list_elem_of_singleton in H2 as ->.
  rewrite Forall_forall in Hx. apply Hx.
  apply list_elem_of_In. apply list_elem_of_In in H1. now apply in_rev.
Qed.

Lemma run_emit b (l : list (rangePath V)) acc :
  (run l (range_step b (fun k w acc => (acc ++ [(k, w)], true))) acc).1
  = acc ++ emit b l.
Proof.
  revert acc. induction l as [|p l IH]; intros acc; simpl.
  - now rewrite app_nil_r.
  - unfold range_step at 1.
    destruct (Compare b (rp_key p) <? 0)%Z; [apply IH|].
    destruct (0 <? Compare b (rp_key p))%Z; [simpl; now rewrite app_nil_r|].
    destruct (isTerminal (rp_node p)); [|apply IH].
    rewrite IH, <- app_assoc. reflexivity.
Qed.

Lemma emit_sorted b (l : list (rangePath V)) :
  StronglySorted path_lt l -> emit b l = entry <$> List.filter (yields b) l.
Proof.
  induction 1 as [|p l Hs IH Hp]; simpl; [reflexivity|].
  rewrite Compare_below, Compare_above. unfold yields at 1, within.
  destruct (above_low b (rp_key p)); simpl; [|exact IH].
  destruct (below_high b (rp_key p)) eqn:Hhigh; simpl.
  - destruct (isTerminal (rp_node p)); [now rewrite IH | exact IH].
  - symmetry. rewrite filter_none; [reflexivity|].
    eapply Forall_impl; [exact Hp|]. intros q Hq. unfold yields, within.
    rewrite (below_high_mono b _ _ Hq Hhigh). now rewrite andb_false_r.
Qed.

Lemma emit_no_above b (l : list (rangePath V)) :
  Forall (fun p => below_high b (rp_key p) = true) l ->
  emit b l = entry <$> List.filter (yields b) l.
Proof.
  induction 1 as [|p l Hp _ IH]; simpl; [reflexivity|].
  rewrite Compare_below, Compare_above, Hp. unfold yields at 1, within. rewrite Hp.
  destruct (above_low b (rp_key p)); simpl; [|exact IH].
  destruct (isTerminal (rp_node p)); [now rewrite IH | exact IH].
Qed.

Lemma pathItr_forward n b S (y : rangePath V -> S -> S * bool) s :
  IsReverse b = false -> sorted_trie n = true ->
  pathItr n b S y s = (run (walk n b) y s).1.
Proof.
  intros Hdir Hs. unfold pathItr, walk. rewrite Hdir. unfold preOrder.
  rewrite (preOrderRecurse_run (forwardChildAdj b) (fwd_adj b)
             (forwardChildAdj_run b)).
  now rewrite pre_list_kids.
Qed.

Lemma pathItr_reverse n b S (y : rangePath V -> S -> S * bool) s :
  IsReverse b = true -> sorted_trie n = true ->
  pathItr n b S y s = (run (rev (walk n b)) y s).1.
Proof.
  intros Hdir Hs. unfold pathItr, walk. rewrite Hdir. unfold postOrder.
  rewrite (postOrderRecurse_run (reverseChildAdj b) (rev_adj b)
             (reverseChildAdj_run b)).
  now rewrite post_list_kids.
Qed.

Lemma walk_below_high n b :
  sorted_trie n = true ->
  (forall e : edge, high b = Some e -> inclusive e = true) ->
  Forall (fun p => below_high b (rp_key p) = true) (walk n b).
Proof.
  intros Hs Hincl. rewrite Forall_forall. intros p Hp.
  apply list_elem_of_In, walk_sound in Hp as (s & Hk & _ & Ha); [|exact Hs].
  simpl in *. rewrite Hk. now apply allowed_below_high.
Qed.

Lemma collect_Range n b :
  sorted_trie n = true ->
  (IsReverse b = true -> forall e : edge, high b = Some e -> inclusive e = true) ->
  collect (Range n b)
  = entry <$> List.filter (yields b)
                (if IsReverse b then rev (walk n b) else walk n b).
Proof.
  intros Hs Hincl. unfold collect, Range, Clone.
  destruct (IsReverse b) eqn:Hdir.
  - rewrite pathItr_reverse, run_emit by assumption. simpl.
    apply emit_no_above. apply Forall_forall. intros p Hp.
    pose proof (walk_below_high n b Hs (Hincl eq_refl)) as H.
    rewrite Forall_forall in H. apply H.
    apply list_elem_of_In. apply list_elem_of_In in Hp. now apply in_rev.
  - rewrite pathItr_forward, run_emit by assumption. simpl.
    apply emit_sorted. now apply walk_sorted.
Qed.

Lemma walk_yields n b k v :
  sorted_trie n = true ->
  (exists p, In p (walk n b) /\ yields b p = true /\ entry p = (k, v)) <->
  get zero n k = Returned (v, true) /\ within b k = true.
Proof.
  intros Hs. rewrite get_find. split.
  - intros (p & Hp & Hy & He). apply walk_sound in Hp as (s & Hk & Hf & _); [|exact Hs].
    simpl in *. unfold yields in Hy. apply andb_prop in Hy as [Hw Ht].
    unfold entry in He. injection He as <- <-. rewrite Hk in *. eauto.
  - intros [(t & Hf & Ht & Hv) Hw]. exists (RangePath t k). split; [|split].
    + apply (walk_complete b (height n) (RangePath n []) k t); simpl; auto.
      now apply within_allowed.
    + unfold yields. simpl. now rewrite Hw, Ht.
    + unfold entry. simpl. now rewrite Hv.
Qed.

Lemma Range_spec n b :
  sorted_trie n = true ->
  (IsReverse b = true -> forall e : edge, high b = Some e -> inclusive e = true) ->
  StronglySorted (if IsReverse b then flip key_lt else key_lt)
    (collect (Range n b)).*1 /\
  forall k v, (k, v) ∈ collect (Range n b) <->
              get zero n k = Returned (v, true) /\ within b k = true.
Proof.
  intros Hs Hincl. rewrite (collect_Range n b Hs Hincl).
  pose proof (walk_sorted b (height n) (RangePath n []) Hs) as Hw.
  fold (walk n b) in Hw. split.
  - rewrite <- list_fmap_compose.
    destruct (IsReverse b).
    + apply (StronglySorted_fmap _ (flip path_lt)); [auto|].
      apply sorted_list_filter. now apply sorted_list_rev.
    + apply (StronglySorted_fmap _ path_lt); [auto|].
      now apply sorted_list_filter.
  - intros k v. rewrite <- (walk_yields n b k v Hs), list_elem_of_fmap. split.
    + intros (p & He & Hp). exists p.
      apply list_elem_of_In, filter_In in Hp as [Hp Hy]. split; [|auto].
      destruct (IsReverse b); [now apply in_rev in Hp | exact Hp].
    + intros (p & Hp & Hy & He). exists p. split; [auto|].
      apply list_elem_of_In, filter_In. split; [|exact Hy].
      destruct (IsReverse b); [apply -> in_rev; exact Hp | exact Hp].
Qed.

Lemma reverse_high_inclusive b :
  IsReverse b = true -> forall e : edge, high b = Some e -> inclusive e = true.
Proof.
  unfold IsReverse, high. destruct (dir b); [discriminate|]. intros _ e.
  destruct (anchor b); simpl; [|discriminate]. now intros [= <-].
Qed.

(** C1. On every trie state and for every bounds, the keys [Range] yields
    are strictly ascending when the bounds are forward and strictly
    descending when they are reverse, and a pair is
    yielded exactly when its key is stored with its value and satisfies both
    edges: on or above the low edge key (above it when the edge is
    exclusive), on or below the high edge key likewise, an unbounded edge
    being satisfied by every key. *)
Theorem Range_ordered_and_exact (n : node V) (b : Bounds) :
  reachable zero n ->
  StronglySorted (if IsReverse b then flip key_lt else key_lt)
    (collect (Range n b)).*1 /\
  forall k v,
    (k, v) ∈ collect (Range n b) <->
    Get zero n (Some k) = Returned (v, true) /\
    satisfies_low b k /\ satisfies_high b k.
Proof.
  intros Hr. destruct (reachable_invariants zero n Hr) as [Hs _].
  destruct (Range_spec n b Hs (reverse_high_inclusive b)) as [H1 H2].
  split; [exact H1|]. intros k v. rewrite H2. unfold within. simpl.
  rewrite andb_true_iff, above_low_iff, below_high_iff. reflexivity.
Qed.

Lemma sorted_members_eq {A} (R : relation A) (l1 l2 : list A) :
  (forall x, ~ R x x) -> Transitive R ->
  StronglySorted R l1 -> StronglySorted R l2 ->
  (forall x, x ∈ l1 <-> x ∈ l2) -> l1 = l2.
Proof.
  intros Hirr Htr H1 H2 Hmem.
  assert (Hnd : forall l, StronglySorted R l -> NoDup l).
  { induction 1 as [|x l Hs IH Hx]; constructor; [|exact IH].
    intros Hin. rewrite Forall_forall in Hx. apply (Hirr x). now apply Hx. }
  apply (StronglySorted_unique_strong R); [|exact H1|exact H2|].
  - intros x1 x2 _ _ Ha Hb. exfalso. apply (Hirr x1). now transitivity x2.
  - apply NoDup_Permutation; auto.
Qed.

Lemma key_lt_irrefl k : ~ key_lt k k.
Proof. apply cmp_lt_irrefl. Qed.

Local Instance key_lt_trans : Transitive key_lt.
Proof. intros a b c. apply cmp_lt_trans. Qed.

Local Instance key_gt_trans : Transitive (flip key_lt).
Proof. intros a b c H1 H2. unfold flip in *. now transitivity b. Qed.

Lemma Range_keys n b keys expected :
  sorted_trie n = true ->
  (IsReverse b = true -> forall e : edge, high b = Some e -> inclusive e = true) ->
  holds_exactly zero n keys ->
  StronglySorted (if IsReverse b then flip key_lt else key_lt) expected ->
  (forall k, k ∈ expected <-> k ∈ keys /\ within b k = true) ->
  (collect (Range n b)).*1 = expected.
Proof.
  intros Hs Hincl Hkeys Hexp Hmem.
  destruct (Range_spec n b Hs Hincl) as [Hsorted Hout].
  assert (Hin : forall k, k ∈ (collect (Range n b)).*1 <-> k ∈ expected).
  { intros k. rewrite Hmem, <- (Hkeys k), list_elem_of_fmap. simpl. split.
    - intros ([k' v] & -> & H). apply Hout in H as [Hg Hw]. simpl. eauto.
    - intros [[v Hg] Hw]. exists (k, v). split; [reflexivity|]. apply Hout. auto. }
  destruct (IsReverse b).
  - apply (sorted_members_eq (flip key_lt)); auto using key_gt_trans.
    intros x. apply key_lt_irrefl.
  - apply (sorted_members_eq key_lt); auto using key_lt_trans, key_lt_irrefl.
Qed.

(** C4. On a trie state that holds exactly the keys [0x10], [0x10 0x20] and
    [0x11], the reverse range from [0x11] down to [0x10] yields [0x11] then
    [0x10 0x20], and not [0x10], the exclusive edge; the forward range from
    [0x10] to [0x11] yields [0x10] then [0x10 0x20], and not [0x11]. *)
Theorem boundary_scenario (n : node V) :
  reachable zero n ->
  holds_exactly zero n [[Byte.x10]; [Byte.x10; Byte.x20]; [Byte.x11]] ->
  (collect (Range n (DownTo (From [Byte.x11]) [Byte.x10]))).*1
    = [[Byte.x11]; [Byte.x10; Byte.x20]] /\
  (collect (Range n (To (From [Byte.x10]) [Byte.x11]))).*1
    = [[Byte.x10]; [Byte.x10; Byte.x20]].
Proof.
  intros Hr Hkeys. destruct (reachable_invariants zero n Hr) as [Hs _]. split.
  - apply (Range_keys n _ _ _ Hs (reverse_high_inclusive _) Hkeys).
    + repeat constructor.
    + intros k. rewrite !elem_of_cons, !elem_of_nil. split.
      * intros [->|[->|[]]]; (split; [auto | reflexivity]).
      * intros [[->|[->|[->|[]]]] Hw]; auto; discriminate.
  - eapply (Range_keys n); [exact Hs | discriminate | exact Hkeys | |].
    + repeat constructor.
    + intros k. rewrite !elem_of_cons, !elem_of_nil. split.
      * intros [->|[->|[]]]; (split; [auto | reflexivity]).
      * intros [[->|[->|[->|[]]]] Hw]; auto; discriminate.
Qed.

Lemma store_reachable entries : reachable zero (store zero entries).
Proof.
  unfold store. generalize (reach_new zero).
  generalize (NewPointerTrie zero) as n. induction entries as [|[k v] l IH]; intros n Hn.
  - exact Hn.
  - simpl. apply IH. destruct (put zero n k v) as [[n' r]|] eqn:Hp; [|exact Hn].
    eapply reach_Put; eauto.
Qed.

(** *** The fuel of the walk *)

Lemma allowed_fwd_children cs start stop c :
  In c (allowed_fwd cs start stop) -> In c cs.
Proof.
  induction cs as [|d cs IH]; simpl; [auto|].
  destruct (byte_ltb (keyByte d) start); [auto|].
  destruct (byte_ltb stop (keyByte d)); [contradiction|].
  intros [->|H]; auto.
Qed.

Lemma allowed_rev_children cs start stop c :
  In c (allowed_rev cs start stop) -> In c cs.
Proof.
  induction cs as [|d cs IH]; simpl; [auto|].
  destruct (byte_ltb start (keyByte d)); [auto|].
  destruct (byte_ltb (keyByte d) stop); [contradiction|].
  intros [->|H]; auto.
Qed.

Lemma fwd_adj_child b path q :
  In q (fwd_adj b path) -> In (rp_node q) (children (rp_node path)).
Proof.
  unfold fwd_adj. destruct (childBounds b (rp_key path)) as [[start stop] ok].
  destruct ok; [|contradiction]. intros H.
  apply list_elem_of_In, list_elem_of_fmap in H as (c & -> & Hc).
  apply list_elem_of_In in Hc. simpl. eapply allowed_fwd_children; eauto.
Qed.

Lemma rev_adj_child b path q :
  In q (rev_adj b path) -> In (rp_node q) (children (rp_node path)).
Proof.
  unfold rev_adj. destruct (childBounds b (rp_key path)) as [[start stop] ok].
  destruct ok; [|contradiction]. intros H.
  apply list_elem_of_In, list_elem_of_fmap in H as (c & -> & Hc).
  apply list_elem_of_In, allowed_rev_children in Hc. simpl. now apply in_rev.
Qed.

Section Fuel.

Variable adjl : rangePath V -> list (rangePath V).
Hypothesis adjl_child : forall path q,
  In q (adjl path) -> In (rp_node q) (children (rp_node path)).

Lemma pre_list_fuel f1 : forall f2 path,
  height (rp_node path) <= f1 -> height (rp_node path) <= f2 ->
  pre_list f1 adjl path = pre_list f2 adjl path.
Proof using adjl_child.
  induction f1 as [|f1 IH]; intros f2 path H1 H2.
  - pose proof (height_pos (rp_node path)). lia.
  - destruct f2 as [|f2]; [pose proof (height_pos (rp_node path)); lia|].
    simpl. f_equal. apply flat_map_ext_in. intros q Hq.
    pose proof (height_child _ _ (adjl_child _ _ Hq)). apply IH; lia.
Qed.

Lemma post_list_fuel f1 : forall f2 path,
  height (rp_node path) <= f1 -> height (rp_node path) <= f2 ->
  post_list f1 adjl path = post_list f2 adjl path.
Proof using adjl_child.
  induction f1 as [|f1 IH]; intros f2 path H1 H2.
  - pose proof (height_pos (rp_node path)). lia.
  - destruct f2 as [|f2]; [pose proof (height_pos (rp_node path)); lia|].
    simpl. f_equal. apply flat_map_ext_in. intros q Hq.
    pose proof (height_child _ _ (adjl_child _ _ Hq)). apply IH; lia.
Qed.

End Fuel.

(** The height of the trie is fuel enough: with more fuel the walks of
    [Range] go through the same nodes and leave the consumer in the same
    state. *)
Lemma enough_fuel n b fuel S (y : rangePath V -> S -> S * bool) s :
  height n <= fuel ->
  (if IsReverse b
   then postOrder fuel (RangePath n []) (reverseChildAdj b) S y s
   else preOrder fuel (RangePath n []) (forwardChildAdj b) S y s)
  = pathItr n b S y s.
Proof.
  intros Hf. unfold pathItr, preOrder, postOrder. destruct (IsReverse b).
  - rewrite !(postOrderRecurse_run (reverseChildAdj b) (rev_adj b)
                (reverseChildAdj_run b)).
    now rewrite (post_list_fuel _ (rev_adj_child b) fuel (height n)).
  - rewrite !(preOrderRecurse_run (forwardChildAdj b) (fwd_adj b)
                (forwardChildAdj_run b)).
    now rewrite (pre_list_fuel _ (fwd_adj_child b) fuel (height n)).
Qed.

End RangeFacts.

(** ** The properties on a concrete trie *)

Section Examples.

Import Byte.

Lemma example_trie_keys :
  holds_exactly 0 example_trie [[x10]; [x10; x20]; [x11]].
Proof.
  intros k. rewrite !elem_of_cons, elem_of_nil. split.
  - intros [v Hg]. change example_trie with
      (Node 0 [Node 1 [Node 2 [] x20 true] x10 true; Node 3 [] x11 true] x00 false) in Hg.
    destruct k as [|b1 k]; [discriminate|].
    cbn [Get get search search_from children keyByte] in Hg.
    destruct (byte_eqb b1 x10) eqn:E1.
    + apply byte_eqb_eq in E1 as ->. cbn in Hg.
      destruct k as [|b2 k]; [auto|].
      cbn [Get get search search_from children keyByte] in Hg.
      destruct (byte_eqb b2 x20) eqn:E2.
      * apply byte_eqb_eq in E2 as ->. cbn in Hg.
        destruct k as [|b3 k]; [auto|]. discriminate.
      * destruct (byte_ltb b2 x20); discriminate.
    + destruct (byte_ltb b1 x10); [discriminate|].
      destruct (byte_eqb b1 x11) eqn:E3.
      * apply byte_eqb_eq in E3 as ->. cbn in Hg.
        destruct k as [|b2 k]; [auto|]. discriminate.
      * destruct (byte_ltb b1 x11); discriminate.
  - intros [->|[->|[->|[]]]]; eexists; reflexivity.
Qed.

Lemma Range_ordered_and_exact_witness :
  reachable 0 example_trie /\
  StronglySorted (flip key_lt)
    (collect (Range example_trie (DownTo (From [x11]) [x10]))).*1 /\
  forall k v,
    (k, v) ∈ collect (Range example_trie (DownTo (From [x11]) [x10])) <->
    Get 0 example_trie (Some k) = Returned (v, true) /\
    satisfies_low (DownTo (From [x11]) [x10]) k /\
    satisfies_high (DownTo (From [x11]) [x10]) k.
Proof.
  split; [apply store_reachable|].
  apply (Range_ordered_and_exact 0 example_trie (DownTo (From [x11]) [x10])).
  apply store_reachable.
Defined.

Lemma Delete_then_Get_witness :
  reachable 0 example_trie /\
  Get 0 example_trie (Some [x10; x20]) = Returned (2, true) /\
  exists n',
    Delete 0 example_trie (Some [x10; x20]) = Returned (n', (2, true)) /\
    Get 0 n' (Some [x10; x20]) = Returned (0, false) /\
    Forall (fun m => dead m = false) (nodes_below n').
Proof.
  split; [apply store_reachable|]. split; [reflexivity|].
  apply (Delete_then_Get 0 example_trie [x10; x20] 2);
    [apply store_reachable | reflexivity].
Defined.

Lemma boundary_scenario_witness :
  reachable 0 example_trie /\
  holds_exactly 0 example_trie [[x10]; [x10; x20]; [x11]] /\
  (collect (Range example_trie (DownTo (From [x11]) [x10]))).*1
    = [[x11]; [x10; x20]] /\
  (collect (Range example_trie (To (From [x10]) [x11]))).*1
    = [[x10]; [x10; x20]].
Proof.
  split; [apply store_reachable|]. split; [apply example_trie_keys|].
  apply (boundary_scenario 0 example_trie);
    [apply store_reachable | apply example_trie_keys].
Defined.

Lemma Put_existing_path_witness :
  find example_trie [x10] = Some (Node 1 [Node 2 [] x20 true] x10 true) /\
  exists n',
    Put 0 example_trie (Some [x10]) 7 = Returned (n', (1, true)) /\
    find n' [x10] = Some (Node 7 [Node 2 [] x20 true] x10 true).
Proof.
  split; [reflexivity|].
  apply (Put_existing_path 0 example_trie [x10] 7
           (Node 1 [Node 2 [] x20 true] x10 true)).
  reflexivity.
Defined.

Lemma children_stay_sorted_witness :
  reachable 0 example_trie /\
  (exists n' r, Put 0 example_trie (Some [x10; x05]) 4 = Returned (n', r) /\
                Forall children_strictly_sorted (nodes n')) /\
  (exists n' r, Delete 0 example_trie (Some [x10; x05]) = Returned (n', r) /\
                Forall children_strictly_sorted (nodes n')).
Proof.
  split; [apply store_reachable|].
  apply (children_stay_sorted 0 example_trie [x10; x05] 4). apply store_reachable.
Defined.

Lemma leaves_stay_terminal_witness :
  reachable 0 example_trie /\
  (exists n' r, Put 0 example_trie (Some [x11]) 4 = Returned (n', r) /\
                Forall leaf_is_terminal (nodes_below n')) /\
  (exists n' r, Delete 0 example_trie (Some [x11]) = Returned (n', r) /\
                Forall leaf_is_terminal (nodes_below n')).
Proof.
  split; [apply store_reachable|].
  apply (leaves_stay_terminal 0 example_trie [x11] 4). apply store_reachable.
Defined.

Lemma Delete_absent_unchanged_witness :
  Delete 0 example_trie (Some [x12]) = Returned (example_trie, (0, false)) /\
  example_trie = example_trie /\ 0 = 0.
Proof.
  split; [reflexivity|].
  apply (Delete_absent_unchanged 0 example_trie [x12] example_trie 0). reflexivity.
Defined.

End Examples.

(** ** More on Put, Get and Delete *)

Section MoreTrieFacts.

Context {V : Type} (zero : V).
Implicit Types (n c : node V) (cs : list (node V)) (key k : list byte) (kb : byte).

Lemma get_returns key : forall n, exists r, get zero n key = Returned r.
Proof.
  induction key as [|kb rest IH]; intros n; simpl.
  - destruct (isTerminal n); eauto.
  - destruct (search n kb) as [index found] eqn:Hs. destruct found; simpl; [|eauto].
    destruct (search_found _ _ _ Hs) as (c & Hc & _).
    unfold child_at. rewrite Hc. simpl. apply IH.
Qed.

Lemma put_answer key : forall n v n' r,
  put zero n key v = Returned (n', r) -> get zero n key = Returned r.
Proof.
  induction key as [|kb rest IH]; intros n v n' r; simpl.
  - destruct (isTerminal n); now intros [= _ <-].
  - destruct (search n kb) as [index found] eqn:Hs. destruct found; simpl.
    + destruct (search_found _ _ _ Hs) as (c & Hc & _).
      unfold child_at. rewrite Hc. simpl.
      destruct (put zero c rest v) as [[c' r']|] eqn:Hp; simpl; [|discriminate].
      intros [= _ <-]. eapply IH; eauto.
    + now intros [= _ <-].
Qed.

Lemma get_del_answer key : forall n,
  get zero n key
  = Returned (match del zero n key with
              | Absent => (zero, false)
              | Kept _ v | Dropped v => (v, true)
              end).
Proof.
  induction key as [|kb rest IH]; intros n; simpl.
  - destruct (isTerminal n); [|reflexivity].
    now destruct (length (children n) =? 0).
  - destruct (search n kb) as [index found] eqn:Hs. destruct found; simpl; [|reflexivity].
    destruct (search_found _ _ _ Hs) as (c & Hc & _).
    unfold child_at. rewrite Hc. simpl. rewrite IH.
    destruct (del zero c rest); try reflexivity.
    now destruct (isTerminal n || (1 <? length (children n))).
Qed.

Lemma del_root_answer root key :
  get zero root key = Returned (del_root zero root key).2.
Proof.
  unfold del_root. destruct key as [|kb rest].
  - simpl. now destruct (isTerminal root).
  - rewrite get_del_answer. now destruct (del zero root (kb :: rest)).
Qed.

(** *** Other keys are left alone *)

Lemma search_insert_other cs kb kb' index ch :
  search_from cs 0 kb = (index, false) -> keyByte ch = kb -> kb' <> kb ->
  exists j',
    search_from (insert_at index ch cs) 0 kb' = (j', (search_from cs 0 kb').2) /\
    ((search_from cs 0 kb').2 = true ->
     insert_at index ch cs !! j' = cs !! (search_from cs 0 kb').1).
Proof.
  intros Hs Hk Hne. revert index Hs.
  assert (Hch : byte_eqb kb' (keyByte ch) = false)
    by (apply byte_eqb_neq; now rewrite Hk).
  induction cs as [|d cs IH]; intros index.
  - simpl. intros [= <-]. unfold insert_at. simpl. rewrite Hch.
    destruct (byte_ltb kb' (keyByte ch)); eexists; (split; [reflexivity|discriminate]).
  - cbn [search_from]. rewrite !(search_from_shift cs 1).
    destruct (byte_eqb kb (keyByte d)) eqn:E; [discriminate|].
    destruct (byte_ltb kb (keyByte d)) eqn:L.
    + intros [= <-]. unfold insert_at. cbn [take drop app search_from].
      rewrite Hch, Hk, (search_from_shift cs 2).
      destruct (byte_ltb kb' kb) eqn:L'.
      * assert (Hlt : byte_ltb kb' (keyByte d) = true) by (eapply byte_ltb_trans; eauto).
        rewrite (byte_ltb_neq _ _ Hlt), Hlt. simpl. eexists. split; [reflexivity|discriminate].
      * destruct (byte_eqb kb' (keyByte d)); [eexists; split; reflexivity|].
        destruct (byte_ltb kb' (keyByte d)); [eexists; split; [reflexivity|discriminate]|].
        simpl. eexists. split; [reflexivity|]. reflexivity.
    + destruct (search_from cs 0 kb) as [i f] eqn:Hs.
      simpl. intros [= <- ->]. destruct (IH i eq_refl) as (j' & Hj & Hl).
      unfold insert_at in *. cbn [take drop app search_from].
      rewrite (search_from_shift _ 1), Hj.
      destruct (byte_eqb kb' (keyByte d)); [eexists; split; reflexivity|].
      destruct (byte_ltb kb' (keyByte d)); [eexists; split; [reflexivity|discriminate]|].
      simpl. eexists. split; [reflexivity|]. exact Hl.
Qed.

Lemma search_above cs kb :
  Forall (fun d => byte_lt kb (keyByte d)) cs -> search_from cs 0 kb = (0, false).
Proof.
  intros [|d cs' Hd _]; simpl; [reflexivity|].
  apply byte_ltb_lt in Hd. now rewrite (byte_ltb_neq _ _ Hd), Hd.
Qed.

Lemma search_delete_other cs kb' index c :
  StronglySorted node_lt cs -> cs !! index = Some c -> kb' <> keyByte c ->
  exists j',
    search_from (delete index cs) 0 kb' = (j', (search_from cs 0 kb').2) /\
    ((search_from cs 0 kb').2 = true ->
     delete index cs !! j' = cs !! (search_from cs 0 kb').1).
Proof.
  intros Hs. revert index. induction Hs as [|d cs Hs IH Hd]; intros index; [discriminate|].
  destruct index as [|i]; cbn [search_from]; rewrite !(search_from_shift cs 1).
  - simpl. intros [= ->] Hne. apply byte_eqb_neq in Hne. rewrite Hne.
    destruct (byte_ltb kb' (keyByte c)) eqn:L.
    + rewrite search_above; [eexists; split; [reflexivity|discriminate]|].
      eapply Forall_impl; [exact Hd|]. intros e He. apply byte_ltb_lt in L.
      unfold node_lt, byte_lt in *. lia.
    + destruct (search_from cs 0 kb') as [j0 f0]. simpl. eexists.
      split; [reflexivity|]. reflexivity.
  - simpl. intros Hc Hne. destruct (IH i Hc Hne) as (j' & Hj & Hl).
    rewrite (search_from_shift _ 1), Hj.
    destruct (byte_eqb kb' (keyByte d)); [eexists; split; reflexivity|].
    destruct (byte_ltb kb' (keyByte d)); [eexists; split; [reflexivity|discriminate]|].
    simpl. eexists. split; [reflexivity|]. exact Hl.
Qed.

Lemma get_chain_other rest : forall kb v rest',
  rest' <> rest -> get zero (chain zero kb rest v) rest' = Returned (zero, false).
Proof.
  induction rest as [|kb1 rest IH]; intros kb v [|x r'] Hne; simpl;
    try reflexivity; try congruence.
  unfold search. simpl. rewrite chain_keyByte.
  destruct (byte_eqb x kb1) eqn:E.
  - apply byte_eqb_eq in E as ->. simpl. apply IH. congruence.
  - now destruct (byte_ltb x kb1).
Qed.

Lemma get_step n kb rest :
  get zero n (kb :: rest)
  = if (search n kb).2
    then match children n !! (search n kb).1 with
         | Some c => get zero c rest
         | None => Panicked "index out of range"
         end
    else Returned (zero, false).
Proof.
  simpl. destruct (search n kb) as [j f]. destruct f; simpl; [|reflexivity].
  unfold child_at. now destruct (children n !! j).
Qed.

Lemma put_get_other key : forall n v n' r key',
  put zero n key v = Returned (n', r) -> key' <> key ->
  get zero n' key' = get zero n key'.
Proof.
  induction key as [|kb rest IH]; intros n v n' r key'; simpl.
  - destruct (isTerminal n); intros [= <- _] Hne;
      (destruct key' as [|kb' r']; [congruence | reflexivity]).
  - destruct (search n kb) as [index found] eqn:Hs. destruct found; simpl.
    + destruct (search_found _ _ _ Hs) as (c & Hc & Hk).
      unfold child_at. rewrite Hc. simpl.
      destruct (put zero c rest v) as [[c' r1]|] eqn:Hp; simpl; [|discriminate].
      intros [= <- _] Hne. destruct key' as [|kb' r']; [reflexivity|].
      rewrite !get_step. unfold search at 1 2. simpl.
      assert (Hkeys : keyByte <$> <[index:=c']> (children n) = keyByte <$> children n).
      { rewrite list_fmap_insert, (put_keyByte _ _ _ _ _ _ Hp).
        apply list_insert_id. now rewrite list_lookup_fmap, Hc. }
      rewrite (search_from_keys _ _ 0 kb' Hkeys). fold (search n kb').
      destruct (search n kb') as [j f] eqn:Hs'. simpl. destruct f; [|reflexivity].
      destruct (decide (j = index)) as [->|Hj].
      * rewrite list_lookup_insert_eq by (eapply lookup_lt_Some; eauto). rewrite Hc.
        destruct (search_found _ _ _ Hs') as (c2 & Hc2 & Hk2).
        rewrite Hc in Hc2. injection Hc2 as <-.
        eapply IH; eauto. congruence.
      * now rewrite list_lookup_insert_ne by auto.
    + intros [= <- _] Hne. destruct key' as [|kb' r']; [reflexivity|].
      rewrite !get_step. unfold search in *. simpl.
      destruct (Byte.byte_eq_dec kb' kb) as [->|Hkb].
      * rewrite (search_from_insert _ _ _ (chain zero kb rest v) Hs (chain_keyByte _ _ _ _)).
        rewrite Hs. simpl. unfold insert_at.
        pose proof (search_from_bound _ _ _ _ Hs) as Hb.
        rewrite lookup_app_r by (rewrite length_take; lia).
        rewrite length_take, Nat.min_l, Nat.sub_diag by lia. simpl.
        apply get_chain_other. congruence.
      * destruct (search_insert_other _ _ kb' _ (chain zero kb rest v) Hs
                    (chain_keyByte _ _ _ _) Hkb) as (j' & -> & Hl).
        simpl. destruct (search_from (children n) 0 kb').2; [|reflexivity].
        now rewrite Hl.
Qed.

Lemma dropped_only_key key : forall n v key',
  del zero n key = Dropped v -> key' <> key ->
  get zero n key' = Returned (zero, false).
Proof.
  induction key as [|kb rest IH]; intros n v key'; simpl.
  - destruct (isTerminal n); [|discriminate].
    destruct (length (children n) =? 0) eqn:Hl; [|discriminate].
    intros _ Hne. destruct key' as [|kb' r']; [congruence|].
    rewrite get_step. destruct (search n kb') as [j f] eqn:Hs. simpl.
    destruct f; [|reflexivity]. destruct (search_found _ _ _ Hs) as (c & Hc & _).
    apply lookup_lt_Some in Hc. apply Nat.eqb_eq in Hl. lia.
  - destruct (search n kb) as [index found] eqn:Hs. destruct found; [|discriminate].
    destruct (search_found _ _ _ Hs) as (c & Hc & Hk). rewrite Hc.
    destruct (del zero c rest) as [|c' v'|v'] eqn:Hd; try discriminate.
    destruct (isTerminal n) eqn:Ht; simpl; [discriminate|].
    destruct (1 <? length (children n)) eqn:Hlen; [discriminate|].
    intros _ Hne. destruct key' as [|kb' r']; [simpl; now rewrite Ht|].
    rewrite get_step. destruct (search n kb') as [j f] eqn:Hs'. simpl.
    destruct f; [|reflexivity]. destruct (search_found _ _ _ Hs') as (c2 & Hc2 & Hk2).
    apply Nat.ltb_ge in Hlen.
    pose proof (lookup_lt_Some _ _ _ Hc). pose proof (lookup_lt_Some _ _ _ Hc2).
    assert (j = index) as -> by lia. rewrite Hc. rewrite Hc in Hc2. injection Hc2 as <-.
    eapply IH; eauto. congruence.
Qed.

Lemma del_get_other key : forall n n' v key',
  sorted_trie n = true -> del zero n key = Kept n' v -> key' <> key ->
  get zero n' key' = get zero n key'.
Proof.
  induction key as [|kb rest IH]; intros n n' v key' Hsorted; simpl.
  - destruct (isTerminal n); [|discriminate].
    destruct (length (children n) =? 0); [discriminate|].
    intros [= <- _] Hne. destruct key' as [|kb' r']; [congruence | reflexivity].
  - destruct (search n kb) as [index found] eqn:Hs. destruct found; [|discriminate].
    destruct (search_found _ _ _ Hs) as (c & Hc & Hk). rewrite Hc.
    apply sorted_trie_spec in Hsorted as [Hs1 Hs2].
    assert (Hcs : sorted_trie c = true).
    { rewrite Forall_forall in Hs2. apply Hs2. eapply list_elem_of_lookup_2; eauto. }
    destruct (del zero c rest) as [|c' v'|v'] eqn:Hd; [discriminate| |].
    + intros [= <- _] Hne. destruct key' as [|kb' r']; [reflexivity|].
      rewrite !get_step. unfold search at 1 2. simpl.
      assert (Hkeys : keyByte <$> <[index:=c']> (children n) = keyByte <$> children n).
      { rewrite list_fmap_insert, (del_keyByte _ _ _ _ _ Hd).
        apply list_insert_id. now rewrite list_lookup_fmap, Hc. }
      rewrite (search_from_keys _ _ 0 kb' Hkeys). fold (search n kb').
      destruct (search n kb') as [j f] eqn:Hs'. simpl. destruct f; [|reflexivity].
      destruct (decide (j = index)) as [->|Hj].
      * rewrite list_lookup_insert_eq by (eapply lookup_lt_Some; eauto). rewrite Hc.
        destruct (search_found _ _ _ Hs') as (c2 & Hc2 & Hk2).
        rewrite Hc in Hc2. injection Hc2 as <-.
        eapply IH; eauto. congruence.
      * now rewrite list_lookup_insert_ne by auto.
    + destruct (isTerminal n || (1 <? length (children n))); [|discriminate].
      intros [= <- _] Hne. destruct key' as [|kb' r']; [reflexivity|].
      rewrite !get_step. unfold search in *. simpl.
      destruct (Byte.byte_eq_dec kb' kb) as [->|Hkb].
      * rewrite Hs. simpl. rewrite Hc.
        rewrite (dropped_only_key rest c v' r' Hd) by congruence.
        pose proof (sorted_delete_absent _ _ _ Hs1 Hc) as Habs. rewrite Hk in Habs.
        apply search_from_absent in Habs. now rewrite Habs.
      * rewrite <- Hk in Hkb.
        destruct (search_delete_other _ kb' _ _ Hs1 Hc Hkb) as (j' & -> & Hl).
        simpl. destruct (search_from (children n) 0 kb').2; [|reflexivity].
        now rewrite Hl.
Qed.

Lemma del_root_get_other root key key' :
  sorted_trie root = true -> key' <> key ->
  get zero (del_root zero root key).1 key' = get zero root key'.
Proof.
  intros Hsorted Hne. unfold del_root. destruct key as [|kb rest].
  - destruct (isTerminal root); [|reflexivity]. simpl.
    destruct key' as [|kb' r']; [congruence | reflexivity].
  - destruct (del zero root (kb :: rest)) as [|root' v|v] eqn:Hd; simpl.
    + reflexivity.
    + eapply del_get_other; eauto.
    + rewrite (dropped_only_key _ _ _ _ Hd Hne).
      pose proof (delete_walk_spec zero (kb :: rest) root [] [] 0) as Hw.
      rewrite Hd in Hw. destruct Hw as (t & p & _ & _ & _ & _ & Hroot & _).
      destruct (Hroot ltac:(discriminate)) as (_ & Ht & _).
      destruct key' as [|kb' r']; simpl; [now rewrite Ht | reflexivity].
Qed.

End MoreTrieFacts.

(** ** The trie as a map, and its canonical shape *)

Section TrieAsMap.

Context {V : Type} (zero : V).
Implicit Types (n c : node V) (cs : list (node V)) (key k : list byte) (kb : byte).

Lemma same_key_eq k k' : same_key k k' = true <-> k = k'.
Proof.
  unfold same_key. split.
  - destruct (bytes_Compare k k') eqn:H; try discriminate. intros _. now apply cmp_eq.
  - intros ->. now rewrite cmp_refl.
Qed.

Lemma del_root_get_same root key :
  sorted_trie root = true ->
  get zero (del_root zero root key).1 key = Returned (zero, false).
Proof.
  intros Hs. unfold del_root. destruct key as [|kb rest].
  - simpl. destruct (isTerminal root) eqn:Ht; simpl; [reflexivity | now rewrite Ht].
  - pose proof (get_del_answer zero (kb :: rest) root) as Hr.
    destruct (del zero root (kb :: rest)) as [|root' v|v] eqn:Hd; cbn [fst].
    + exact Hr.
    + eapply del_get; eauto.
    + reflexivity.
Qed.

(** *** Non-terminal nodes hold the zero value *)

Lemma clean_spec n :
  clean zero n <->
  (isTerminal n = false -> value n = zero) /\ Forall (clean zero) (children n).
Proof.
  destruct n as [v cs kb t]. simpl.
  enough (foldr (fun c P => clean zero c /\ P) True cs <-> Forall (clean zero) cs) by tauto.
  induction cs as [|c cs IH]; simpl.
  - split; [constructor | trivial].
  - rewrite Forall_cons. tauto.
Qed.

Lemma chain_clean rest : forall kb v, clean zero (chain zero kb rest v).
Proof.
  induction rest as [|kb' rest IH]; intros kb v; simpl; [split; [discriminate|trivial]|].
  split; [reflexivity|]. split; [apply IH | trivial].
Qed.

Lemma put_clean key : forall n v n' r,
  put zero n key v = Returned (n', r) -> clean zero n -> clean zero n'.
Proof.
  induction key as [|kb rest IH]; intros n v n' r; simpl.
  - destruct (isTerminal n); intros [= <- _]; rewrite !clean_spec; simpl;
      intros [_ H]; (split; [discriminate | exact H]).
  - destruct (search n kb) as [index found] eqn:Hs. destruct found; simpl.
    + destruct (search_found _ _ _ Hs) as (c & Hc & Hk).
      unfold child_at. rewrite Hc. simpl.
      destruct (put zero c rest v) as [[c' r']|] eqn:Hp; simpl; [|discriminate].
      intros [= <- _]. rewrite !clean_spec. simpl. intros [H1 H2]. split; [exact H1|].
      apply Forall_insert; [exact H2|]. eapply IH; eauto.
      rewrite Forall_forall in H2. apply H2. eapply list_elem_of_lookup_2; eauto.
    + intros [= <- _]. rewrite !clean_spec. simpl. intros [H1 H2]. split; [exact H1|].
      unfold insert_at. apply Forall_app. split; [now apply Forall_take|].
      constructor; [apply chain_clean | now apply Forall_drop].
Qed.

Lemma del_clean key : forall n n' v,
  del zero n key = Kept n' v -> clean zero n -> clean zero n'.
Proof.
  induction key as [|kb rest IH]; intros n n' v; simpl.
  - destruct (isTerminal n); [|discriminate].
    destruct (length (children n) =? 0); [discriminate|].
    intros [= <- _]. rewrite !clean_spec. simpl. intros [_ H]. auto.
  - destruct (search n kb) as [index found]. destruct found; [|discriminate].
    destruct (children n !! index) as [c|] eqn:Hc; [|discriminate].
    destruct (del zero c rest) as [|c' v'|v'] eqn:Hd; [discriminate| |].
    + intros [= <- _]. rewrite !clean_spec. simpl. intros [H1 H2]. split; [exact H1|].
      apply Forall_insert; [exact H2|]. eapply IH; eauto.
      rewrite Forall_forall in H2. apply H2. eapply list_elem_of_lookup_2; eauto.
    + destruct (isTerminal n || (1 <? length (children n))); [|discriminate].
      intros [= <- _]. rewrite !clean_spec. simpl. intros [H1 H2]. split; [exact H1|].
      now apply Forall_delete.
Qed.

Lemma del_root_clean root key :
  clean zero root -> clean zero (del_root zero root key).1.
Proof.
  intros H. unfold del_root. destruct key as [|kb rest].
  - destruct (isTerminal root); cbn [fst]; [|exact H].
    apply clean_spec in H as [_ H]. apply clean_spec. simpl. auto.
  - destruct (del zero root (kb :: rest)) as [|root' v|v] eqn:Hd; cbn [fst].
    + exact H.
    + eapply del_clean; eauto.
    + apply clean_spec in H as [H _]. apply clean_spec. simpl. split; [exact H|constructor].
Qed.

Lemma del_root_keyByte root key : keyByte (del_root zero root key).1 = keyByte root.
Proof.
  unfold del_root. destruct key as [|kb rest].
  - now destruct (isTerminal root).
  - destruct (del zero root (kb :: rest)) as [|root' v|v] eqn:Hd; simpl; try reflexivity.
    eapply del_keyByte; eauto.
Qed.

Lemma reachable_clean n :
  reachable zero n -> clean zero n /\ keyByte n = Byte.x00.
Proof.
  induction 1 as [|n k v n' r _ [IH1 IH2] Hp|n k n' r _ [IH1 IH2] Hd].
  - split; [|reflexivity]. simpl. auto.
  - simpl in Hp. split; [eapply put_clean; eauto|].
    rewrite (put_keyByte _ _ _ _ _ _ Hp). exact IH2.
  - rewrite Delete_del_root in Hd. injection Hd as Hd.
    assert (Hn : n' = (del_root zero n k).1) by now rewrite Hd. subst n'.
    split; [now apply del_root_clean | now rewrite del_root_keyByte].
Qed.

(** *** Every live node leads to a stored key *)

Lemma head_search c cs : search_from (c :: cs) 0 (keyByte c) = (0, true).
Proof. simpl. now rewrite byte_eqb_refl. Qed.

Lemma alive_has_key n :
  dead n = false -> no_dead_below n = true ->
  exists s w, get zero n s = Returned (w, true).
Proof.
  induction n as [v cs kb t IH] using node_ind. intros Hd Hb.
  destruct t eqn:Ht.
  - exists [], v. reflexivity.
  - unfold dead in Hd. simpl in Hd. destruct cs as [|c cs]; [discriminate|].
    apply no_dead_below_spec in Hb. simpl in Hb.
    inversion Hb as [|? ? [Hc1 Hc2] _]; subst. inversion IH as [|? ? IHc _]; subst.
    destruct (IHc Hc1 Hc2) as (s & w & Hg).
    exists (keyByte c :: s), w. rewrite get_step. unfold search. simpl.
    rewrite byte_eqb_refl. simpl. exact Hg.
Qed.

(** *** Two tries of the same contents are the same tree *)

Lemma well_formed_child n c :
  well_formed zero n -> c ∈ children n -> dead c = false /\ well_formed zero c.
Proof.
  intros (Hs & Hd & Hc) Hin.
  apply sorted_trie_spec in Hs as [_ Hs]. apply no_dead_below_spec in Hd.
  apply clean_spec in Hc as [_ Hc]. rewrite Forall_forall in Hs, Hd, Hc.
  destruct (Hd c Hin). repeat split; auto.
Qed.

Lemma below_head c cs k : below zero (c :: cs) (keyByte c) k = get zero c k.
Proof. unfold below. rewrite get_step. unfold search. simpl. now rewrite byte_eqb_refl. Qed.

Lemma below_tail c cs b k :
  byte_ltb (keyByte c) b = true -> below zero (c :: cs) b k = below zero cs b k.
Proof.
  intros Hlt. unfold below. rewrite !get_step. unfold search. cbn [children search_from].
  rewrite (search_from_shift cs 1).
  assert (byte_eqb b (keyByte c) = false) as ->.
  { apply byte_eqb_neq. intros ->. rewrite byte_ltb_irrefl in Hlt. discriminate. }
  rewrite (byte_ltb_asym _ _ Hlt). simpl.
  now destruct (search_from cs 0 b).
Qed.

Lemma below_before cs b k :
  Forall (fun d => byte_lt b (keyByte d)) cs -> below zero cs b k = Returned (zero, false).
Proof.
  intros H. unfold below. rewrite get_step. unfold search. simpl. now rewrite search_above.
Qed.

Lemma below_node v cs kb t b k :
  get zero (Node v cs kb t) (b :: k) = below zero cs b k.
Proof. reflexivity. Qed.

Lemma children_canonical cs : forall cs',
  Forall (fun c => forall c', well_formed zero c -> well_formed zero c' ->
                   keyByte c = keyByte c' ->
                   (forall k, get zero c k = get zero c' k) -> c = c') cs ->
  StronglySorted node_lt cs -> StronglySorted node_lt cs' ->
  Forall (fun c => dead c = false /\ well_formed zero c) cs ->
  Forall (fun c => dead c = false /\ well_formed zero c) cs' ->
  (forall b k, below zero cs b k = below zero cs' b k) ->
  cs = cs'.
Proof.
  induction cs as [|c cs IH]; intros [|c' cs'] HP Hs Hs' Hw Hw' Heq.
  - reflexivity.
  - exfalso. inversion Hw' as [|? ? [Hd (_ & Hb & _)] _]; subst.
    destruct (alive_has_key c' Hd Hb) as (s & w & Hg).
    specialize (Heq (keyByte c') s). rewrite below_head, Hg in Heq. discriminate.
  - exfalso. inversion Hw as [|? ? [Hd (_ & Hb & _)] _]; subst.
    destruct (alive_has_key c Hd Hb) as (s & w & Hg).
    specialize (Heq (keyByte c) s). rewrite below_head, Hg in Heq. discriminate.
  - inversion HP as [|? ? HPc HPcs]; subst.
    inversion Hs as [|? ? Hs1 Hlt]; subst. inversion Hs' as [|? ? Hs1' Hlt']; subst.
    inversion Hw as [|? ? [Hd Hwc] Hw1]; subst.
    inversion Hw' as [|? ? [Hd' Hwc'] Hw1']; subst.
    assert (Hkey : keyByte c = keyByte c').
    { apply byte_ltb_total.
      - destruct (byte_ltb (keyByte c) (keyByte c')) eqn:L; [|reflexivity]. exfalso.
        destruct Hwc as (_ & Hb & _).
        destruct (alive_has_key c Hd Hb) as (s & w & Hg).
        specialize (Heq (keyByte c) s). rewrite below_head, Hg in Heq.
        rewrite below_before in Heq; [discriminate|].
        constructor; [now apply byte_ltb_lt|].
        eapply Forall_impl; [exact Hlt'|]. intros e He. apply byte_ltb_lt in L.
        unfold node_lt, byte_lt in *. lia.
      - destruct (byte_ltb (keyByte c') (keyByte c)) eqn:L; [|reflexivity]. exfalso.
        destruct Hwc' as (_ & Hb & _).
        destruct (alive_has_key c' Hd' Hb) as (s & w & Hg).
        specialize (Heq (keyByte c') s). rewrite (below_head c'), Hg in Heq.
        rewrite below_before in Heq; [discriminate|].
        constructor; [now apply byte_ltb_lt|].
        eapply Forall_impl; [exact Hlt|]. intros e He. apply byte_ltb_lt in L.
        unfold node_lt, byte_lt in *. lia. }
    assert (Hc : c = c').
    { apply HPc; auto. intros k. specialize (Heq (keyByte c) k).
      rewrite below_head, Hkey, below_head in Heq. exact Heq. }
    subst c'. f_equal. apply IH; auto. intros b k.
    destruct (byte_ltb (keyByte c) b) eqn:L.
    + specialize (Heq b k). now rewrite !below_tail in Heq by exact L.
    + apply byte_ltb_ge in L. rewrite !below_before; [reflexivity| |].
      * eapply Forall_impl; [exact Hlt'|]. intros e He.
        unfold node_lt, byte_lt in *. lia.
      * eapply Forall_impl; [exact Hlt|]. intros e He.
        unfold node_lt, byte_lt in *. lia.
Qed.

Lemma well_formed_canonical n : forall n',
  well_formed zero n -> well_formed zero n' -> keyByte n = keyByte n' ->
  (forall k, get zero n k = get zero n' k) -> n = n'.
Proof.
  induction n as [v cs kb t IH] using node_ind. intros [v' cs' kb' t'] Hw Hw' Hk Heq.
  simpl in Hk. subst kb'.
  assert (Hcs : cs = cs').
  { apply children_canonical; auto.
    - destruct Hw as (Hs & _). now apply sorted_trie_spec in Hs as [Hs _].
    - destruct Hw' as (Hs & _). now apply sorted_trie_spec in Hs as [Hs _].
    - apply Forall_forall. intros c Hc.
      apply (well_formed_child (Node v cs kb t) c Hw Hc).
    - apply Forall_forall. intros c Hc.
      apply (well_formed_child (Node v' cs' kb t') c Hw' Hc).
    - intros b k. apply (Heq (b :: k)). }
  subst cs'. specialize (Heq []). simpl in Heq.
  destruct Hw as (_ & _ & Hc). destruct Hw' as (_ & _ & Hc').
  apply clean_spec in Hc as [Hc _]. apply clean_spec in Hc' as [Hc' _]. simpl in *.
  destruct t, t'; try discriminate.
  - now injection Heq as ->.
  - now rewrite Hc, Hc'.
Qed.

Lemma reachable_well_formed n : reachable zero n -> well_formed zero n.
Proof.
  intros Hr. destruct (reachable_invariants zero n Hr).
  destruct (reachable_clean n Hr). repeat split; auto.
Qed.

Lemma reachable_canonical n n' :
  reachable zero n -> reachable zero n' ->
  (forall k, get zero n k = get zero n' k) -> n = n'.
Proof.
  intros Hr Hr' Heq. apply well_formed_canonical; auto using reachable_well_formed.
  destruct (reachable_clean n Hr) as [_ ->]. now destruct (reachable_clean n' Hr') as [_ ->].
Qed.

End TrieAsMap.

(** ** What Put, Get and Delete do to the contents of the trie *)

Section Contents.

Context {V : Type} (zero : V).
Implicit Types (n c : node V) (cs : list (node V)) (key k : list byte) (kb : byte).

Lemma key_eq_dec (k k' : list byte) : {k = k'} + {k <> k'}.
Proof. apply List.list_eq_dec, Byte.byte_eq_dec. Qed.

Lemma get_false_zero n k z : get zero n k = Returned (z, false) -> z = zero.
Proof.
  rewrite get_del_answer. destruct (del zero n k); intros [= <-]; reflexivity.
Qed.

Lemma del_root_absent root key z :
  get zero root key = Returned (z, false) ->
  del_root zero root key = (root, (zero, false)).
Proof.
  unfold del_root. destruct key as [|kb rest].
  - simpl. destruct (isTerminal root); [discriminate | reflexivity].
  - rewrite get_del_answer. destruct (del zero root (kb :: rest)); [reflexivity| |]; discriminate.
Qed.

Lemma clean_nodes n :
  clean zero n -> Forall (fun m => isTerminal m = false -> value m = zero) (nodes n).
Proof.
  induction n as [v cs kb t IH] using node_ind. intros H.
  apply clean_spec in H as [H1 H2]. simpl in *. constructor; [exact H1|].
  apply Forall_flat_map. rewrite Forall_forall in *. auto.
Qed.

(** X1. On any tree, even one that is not a trie state, [Put], [Get] and
    [Delete] of a non-nil key return: no index and no slice bound is ever
    out of range. *)
Theorem non_nil_key_never_panics (n : node V) (k : list byte) (v : V) :
  (exists r, Put zero n (Some k) v = Returned r) /\
  (exists r, Get zero n (Some k) = Returned r) /\
  (exists r, Delete zero n (Some k) = Returned r).
Proof.
  split; [|split].
  - destruct (put_returns zero k n v) as (n' & r & H). eauto.
  - apply get_returns.
  - rewrite Delete_del_root. eauto.
Qed.

(** X2. [Put] returns what [Get] of the key answered just before: the
    stored value and [true], or the zero value and [false]. *)
Theorem Put_returns_what_Get_answered (n : node V) (k : list byte) (v : V) :
  exists n' r,
    Put zero n (Some k) v = Returned (n', r) /\
    Get zero n (Some k) = Returned r.
Proof.
  destruct (put_returns zero k n v) as (n' & r & H). exists n', r.
  split; [exact H|]. simpl. eapply put_answer; eauto.
Qed.

(** X3. [Put] changes the answer of [Get] for its own key only: every other
    key is answered as before. *)
Theorem Put_leaves_other_keys (n : node V) (k : list byte) (v : V) :
  exists n' r,
    Put zero n (Some k) v = Returned (n', r) /\
    forall k', k' <> k -> Get zero n' (Some k') = Get zero n (Some k').
Proof.
  destruct (put_returns zero k n v) as (n' & r & H). exists n', r.
  split; [exact H|]. intros k' Hne. simpl. eapply put_get_other; eauto.
Qed.

(** X4. [Delete] returns what [Get] of the key answered just before. *)
Theorem Delete_returns_what_Get_answered (n : node V) (k : list byte) :
  exists n' r,
    Delete zero n (Some k) = Returned (n', r) /\
    Get zero n (Some k) = Returned r.
Proof.
  exists (del_root zero n k).1, (del_root zero n k).2. split.
  - rewrite Delete_del_root. now destruct (del_root zero n k).
  - apply del_root_answer.
Qed.

(** X5. On a trie state, after [Delete] the key is absent, whether it was
    stored or not, and every other key is answered as before. *)
Theorem Delete_removes_one_key (n : node V) (k : list byte) :
  reachable zero n ->
  exists n' r,
    Delete zero n (Some k) = Returned (n', r) /\
    Get zero n' (Some k) = Returned (zero, false) /\
    forall k', k' <> k -> Get zero n' (Some k') = Get zero n (Some k').
Proof.
  intros Hr. destruct (reachable_invariants zero n Hr) as [Hs _].
  exists (del_root zero n k).1, (del_root zero n k).2. split; [|split].
  - rewrite Delete_del_root. now destruct (del_root zero n k).
  - now apply del_root_get_same.
  - intros k' Hne. now apply del_root_get_other.
Qed.

(** X6. On a trie state, a second [Delete] of the same key finds nothing
    and leaves the trie as the first one left it. *)
Theorem Delete_twice (n : node V) (k : list byte) :
  reachable zero n ->
  exists n' r,
    Delete zero n (Some k) = Returned (n', r) /\
    Delete zero n' (Some k) = Returned (n', (zero, false)).
Proof.
  intros Hr. destruct (reachable_invariants zero n Hr) as [Hs _].
  exists (del_root zero n k).1, (del_root zero n k).2. split.
  - rewrite Delete_del_root. now destruct (del_root zero n k).
  - rewrite Delete_del_root. f_equal.
    eapply del_root_absent. now apply del_root_get_same.
Qed.

(** X7. With sorted children, [search] answers the position of the byte:
    the children before it have smaller key bytes; when the byte is found
    the child at that position has it, and when it is not, the children
    from that position on have larger key bytes, so that the position is
    where a child of this byte belongs. *)
Theorem search_position (n : node V) (byt : byte) :
  sorted_trie n = true ->
  let '(i, found) := search n byt in
  i <= length (children n) /\
  Forall (fun c => byte_lt (keyByte c) byt) (take i (children n)) /\
  if found
  then exists c, children n !! i = Some c /\ keyByte c = byt
  else Forall (fun c => byte_lt byt (keyByte c)) (drop i (children n)).
Proof.
  intros Hs. apply sorted_trie_spec in Hs as [Hs _].
  destruct (search n byt) as [i found] eqn:Hsearch. unfold search in Hsearch.
  split; [eapply search_from_bound; eauto|].
  split; [eapply search_from_before; eauto|].
  destruct found; [now apply search_from_found|].
  rewrite <- (take_drop i (children n)) in Hs.
  apply StronglySorted_app in Hs as (_ & _ & Hr).
  destruct (drop i (children n)) as [|d ds] eqn:Hd; [constructor|].
  assert (Hi : children n !! i = Some d).
  { rewrite <- (Nat.add_0_r i), <- lookup_drop, Hd. reflexivity. }
  pose proof (search_from_after _ _ _ _ Hsearch Hi) as Hlt.
  constructor; [exact Hlt|]. inversion Hr as [|? ? _ Hall]; subst.
  eapply Forall_impl; [exact Hall|]. intros e He. unfold node_lt, byte_lt in *. lia.
Qed.

(** X8. In a trie state every node that is not terminal holds the zero
    value, and the root has the key byte zero. *)
Theorem non_terminal_holds_zero (n : node V) :
  reachable zero n ->
  Forall (fun m => isTerminal m = false -> value m = zero) (nodes n) /\
  keyByte n = Byte.x00.
Proof.
  intros Hr. destruct (reachable_clean zero n Hr) as [Hc Hk].
  split; [now apply clean_nodes | exact Hk].
Qed.

(** X9. The trie is canonical: two trie states in which [Get] answers the
    same for every key are the same tree, node for node, whatever the
    operations that led to them. *)
Theorem same_contents_same_trie (n n' : node V) :
  reachable zero n -> reachable zero n' -> same_contents zero n n' -> n = n'.
Proof. intros Hr Hr' H. apply (reachable_canonical zero); auto. Qed.

(** X10. On a trie state, [Put] of a key that is not stored followed by
    [Delete] of the key gives back the trie as it was: every node the
    [Put] made is pruned. *)
Theorem Put_then_Delete_restores (n : node V) (k : list byte) (v z : V) :
  reachable zero n ->
  Get zero n (Some k) = Returned (z, false) ->
  exists n1 r,
    Put zero n (Some k) v = Returned (n1, r) /\
    Delete zero n1 (Some k) = Returned (n, (v, true)).
Proof.
  intros Hr Hg. destruct (put_returns zero k n v) as (n1 & r & Hp).
  exists n1, r. split; [exact Hp|].
  assert (Hr1 : reachable zero n1) by (eapply reach_Put; eauto).
  destruct (reachable_invariants zero n1 Hr1) as [Hs1 _].
  pose proof (put_get zero _ _ _ _ _ Hp) as Hg1.
  destruct (del_root_stored zero n1 k v Hs1 Hg1) as [Hres Hgone].
  assert (Hd : Delete zero n1 (Some k)
               = Returned ((del_root zero n1 k).1, (v, true))).
  { rewrite Delete_del_root, <- Hres. now destruct (del_root zero n1 k). }
  rewrite Hd. do 2 f_equal.
  apply (reachable_canonical zero); [eapply reach_Delete; eauto | exact Hr |].
  intros k'. destruct (key_eq_dec k' k) as [->|Hne].
  - simpl in Hg. rewrite Hgone, Hg. now rewrite (get_false_zero _ _ _ Hg).
  - rewrite (del_root_get_other zero n1 k k' Hs1 Hne).
    eapply put_get_other; eauto.
Qed.

(** X11. On a trie state, two [Put]s of different keys give the same trie
    and the same return values in either order. *)
Theorem Put_order_irrelevant (n : node V) (k1 k2 : list byte) (v1 v2 : V) :
  reachable zero n -> k1 <> k2 ->
  exists n1 n2 n' r1 r2,
    Put zero n (Some k1) v1 = Returned (n1, r1) /\
    Put zero n1 (Some k2) v2 = Returned (n', r2) /\
    Put zero n (Some k2) v2 = Returned (n2, r2) /\
    Put zero n2 (Some k1) v1 = Returned (n', r1).
Proof.
  intros Hr Hne.
  destruct (put_returns zero k1 n v1) as (n1 & r1 & Hp1).
  destruct (put_returns zero k2 n1 v2) as (n12 & r2 & Hp12).
  destruct (put_returns zero k2 n v2) as (n2 & r2' & Hp2).
  destruct (put_returns zero k1 n2 v1) as (n21 & r1' & Hp21).
  assert (r2' = r2) as ->.
  { pose proof (put_answer zero _ _ _ _ _ Hp12) as H12.
    pose proof (put_answer zero _ _ _ _ _ Hp2) as H2.
    rewrite (put_get_other zero _ _ _ _ _ k2 Hp1) in H12 by congruence. congruence. }
  assert (r1' = r1) as ->.
  { pose proof (put_answer zero _ _ _ _ _ Hp21) as H21.
    pose proof (put_answer zero _ _ _ _ _ Hp1) as H1.
    rewrite (put_get_other zero _ _ _ _ _ k1 Hp2) in H21 by congruence. congruence. }
  assert (n21 = n12) as ->.
  { apply (reachable_canonical zero).
    - eapply reach_Put; [eapply reach_Put; [exact Hr|exact Hp2]|exact Hp21].
    - eapply reach_Put; [eapply reach_Put; [exact Hr|exact Hp1]|exact Hp12].
    - intros k. destruct (key_eq_dec k k1) as [->|H1]; [|destruct (key_eq_dec k k2) as [->|H2]].
      + rewrite (put_get zero _ _ _ _ _ Hp21).
        rewrite (put_get_other zero _ _ _ _ _ k1 Hp12) by congruence.
        now rewrite (put_get zero _ _ _ _ _ Hp1).
      + rewrite (put_get zero _ _ _ _ _ Hp12).
        rewrite (put_get_other zero _ _ _ _ _ k2 Hp21) by congruence.
        now rewrite (put_get zero _ _ _ _ _ Hp2).
      + rewrite (put_get_other zero _ _ _ _ _ k Hp21 H1).
        rewrite (put_get_other zero _ _ _ _ _ k Hp2 H2).
        rewrite (put_get_other zero _ _ _ _ _ k Hp12 H2).
        now rewrite (put_get_other zero _ _ _ _ _ k Hp1 H1). }
  exists n1, n2, n12, r1, r2. auto.
Qed.

(** X12. On a trie state, a [Put] over a [Put] of the same key returns the
    first value and [true], and leaves the trie the second [Put] alone
    would. *)
Theorem Put_overwrites (n : node V) (k : list byte) (v v' : V) :
  reachable zero n ->
  exists n1 n2 r,
    Put zero n (Some k) v = Returned (n1, r) /\
    Put zero n1 (Some k) v' = Returned (n2, (v, true)) /\
    Put zero n (Some k) v' = Returned (n2, r).
Proof.
  intros Hr.
  destruct (put_returns zero k n v) as (n1 & r & Hp1).
  destruct (put_returns zero k n1 v') as (n2 & r2 & Hp2).
  destruct (put_returns zero k n v') as (n3 & r3 & Hp3).
  assert (r2 = (v, true)) as ->.
  { pose proof (put_answer zero _ _ _ _ _ Hp2) as H.
    rewrite (put_get zero _ _ _ _ _ Hp1) in H. congruence. }
  assert (r3 = r) as ->.
  { pose proof (put_answer zero _ _ _ _ _ Hp3). pose proof (put_answer zero _ _ _ _ _ Hp1).
    congruence. }
  assert (n3 = n2) as ->.
  { apply (reachable_canonical zero).
    - eapply reach_Put; eauto.
    - eapply reach_Put; [eapply reach_Put; [exact Hr|exact Hp1]|exact Hp2].
    - intros k'. destruct (key_eq_dec k' k) as [->|Hne].
      + now rewrite (put_get zero _ _ _ _ _ Hp3), (put_get zero _ _ _ _ _ Hp2).
      + rewrite (put_get_other zero _ _ _ _ _ k' Hp3 Hne).
        rewrite (put_get_other zero _ _ _ _ _ k' Hp2 Hne).
        now rewrite (put_get_other zero _ _ _ _ _ k' Hp1 Hne). }
  exists n1, n2, r. auto.
Qed.

Lemma trie_ref_run ops : forall n (m : ref_map V),
  reachable zero n ->
  (forall k, get zero n k = Returned (ref_lookup zero m k)) ->
  trie_run zero n ops = Returned (ref_run zero m ops).
Proof.
  induction ops as [|o ops IH]; intros n m Hr Hm; [reflexivity|].
  destruct (reachable_invariants zero n Hr) as [Hs _].
  cbn [trie_run ref_run].
  destruct o as [k v|k|k]; cbn [trie_step ref_step].
  - destruct (put_returns zero k n v) as (n' & r & Hp). unfold Put. rewrite Hp.
    pose proof (put_answer zero _ _ _ _ _ Hp) as Hres. rewrite Hm in Hres.
    injection Hres as <-. cbn [mbind outcome_bind].
    rewrite (IH n' (fun k' => if same_key k k' then Some v else m k')); [reflexivity| |].
    + eapply reach_Put; eauto.
    + intros k'. unfold ref_lookup at 1. destruct (same_key k k') eqn:E.
      * apply same_key_eq in E as <-. eapply put_get; eauto.
      * rewrite (put_get_other zero _ _ _ _ _ k' Hp), Hm; [reflexivity|].
        intros ->. rewrite (proj2 (same_key_eq k k) eq_refl) in E. discriminate.
  - unfold Get. rewrite Hm. cbn [mbind outcome_bind].
    now rewrite (IH n m Hr Hm).
  - rewrite Delete_del_root.
    pose proof (del_root_answer zero n k) as Hres. rewrite Hm in Hres.
    injection Hres as Hres.
    destruct (del_root zero n k) as [n' r] eqn:Hd. cbn [fst snd] in *. subst r.
    cbn [mbind outcome_bind].
    rewrite (IH n' (fun k' => if same_key k k' then None else m k')); [reflexivity| |].
    + eapply reach_Delete; [exact Hr|]. rewrite Delete_del_root, Hd. reflexivity.
    + assert (Hn : n' = (del_root zero n k).1) by now rewrite Hd.
      intros k'. unfold ref_lookup at 1. destruct (same_key k k') eqn:E.
      * apply same_key_eq in E as <-. rewrite Hn. now apply del_root_get_same.
      * rewrite Hn, del_root_get_other, Hm; auto.
        intros ->. rewrite (proj2 (same_key_eq k k) eq_refl) in E. discriminate.
Qed.

(** X13. Any sequence of [Put], [Get] and [Delete] on a new trie returns,
    operation for operation, what the same sequence returns on a plain map
    from keys to values that starts empty. *)
Theorem trie_refines_map (ops : list (op V)) :
  trie_run zero (NewPointerTrie zero) ops
  = Returned (ref_run zero (fun _ => None) ops).
Proof.
  apply trie_ref_run; [constructor|].
  intros [|kb rest]; reflexivity.
Qed.

End Contents.

(** ** Range: the consumer, the child loops, and the other operations *)

Section MoreRangeFacts.

Context {V : Type} (zero : V).
Implicit Types (n c : node V) (cs : list (node V)) (k key : list byte)
  (b : Bounds) (p q path : rangePath V).

(** The loop of [Range] serves any consumer with the pairs it gives to one
    that never stops. *)
Lemma run_range_step {S} b (l : list (rangePath V))
    (yield : list byte -> V -> S -> S * bool) s :
  (run l (range_step b yield) s).1
  = (run (emit b l) (fun e => yield e.1 e.2) s).1.
Proof.
  revert s. induction l as [|p l IH]; intros s; [reflexivity|].
  cbn [run emit]. unfold range_step at 1.
  destruct (Compare b (rp_key p) <? 0)%Z; [apply IH|].
  destruct (0 <? Compare b (rp_key p))%Z; [reflexivity|].
  destruct (isTerminal (rp_node p)); [|apply IH].
  cbn [run fst snd]. destruct (yield (rp_key p) (value (rp_node p)) s) as [s' ok].
  destruct ok; [apply IH | reflexivity].
Qed.

Lemma pathItr_run n b S (y : rangePath V -> S -> S * bool) s :
  pathItr n b S y s = (run (range_paths n b) y s).1.
Proof.
  unfold pathItr, range_paths. destruct (IsReverse b).
  - unfold postOrder.
    now rewrite (postOrderRecurse_run (reverseChildAdj b) (rev_adj b)
                   (reverseChildAdj_run b)).
  - unfold preOrder.
    now rewrite (preOrderRecurse_run (forwardChildAdj b) (fwd_adj b)
                   (forwardChildAdj_run b)).
Qed.

Lemma collect_emit n b : collect (Range n b) = emit b (range_paths n b).
Proof.
  unfold collect, Range, Clone. rewrite pathItr_run.
  apply (run_emit b (range_paths n b) []).
Qed.

(** X14. [Range] serves a consumer that stops like one that does not: on
    any tree and for any bounds, the consumer is given the pairs of the
    whole iteration, in the same order, up to the first one it answers
    [false] to, and nothing after it. *)
Theorem Range_stops_with_consumer (n : node V) (b : Bounds) (S : Type)
    (yield : list byte -> V -> S -> S * bool) (s : S) :
  Range n b S yield s
  = (run (collect (Range n b)) (fun e => yield e.1 e.2) s).1.
Proof.
  rewrite collect_emit. unfold Range, Clone. rewrite pathItr_run.
  apply run_range_step.
Qed.

(** X15. On sorted children, the loop of [forwardChildAdj] pushes the
    children whose key byte is between [lo] and [hi], both included, in
    ascending order and each with the key extended by its byte; the loop of
    [reverseChildAdj] pushes the same children in the opposite order. Each
    stops as soon as the consumer answers [false]. *)
Theorem child_loops_mirror (cs : list (node V)) (lo hi : byte) (k : list byte)
    (S : Type) (yield : rangePath V -> S -> S * bool) (s : S) :
  StronglySorted node_lt cs ->
  forward_loop cs lo hi k yield s
  = (run (child_path k <$> List.filter (in_range lo hi) cs) yield s).1 /\
  reverse_loop (rev cs) hi lo k yield s
  = (run (rev (child_path k <$> List.filter (in_range lo hi) cs)) yield s).1.
Proof.
  intros Hs. split.
  - now rewrite forward_loop_run, allowed_fwd_filter.
  - rewrite reverse_loop_run, allowed_rev_filter by now apply sorted_rev.
    now rewrite filter_rev, fmap_rev.
Qed.

Lemma walk_all n : walk n reverseAll = walk n forwardAll.
Proof.
  unfold walk. generalize (RangePath n []). induction (height n) as [|f IH];
    intros path; simpl; [reflexivity|].
  apply (f_equal (cons path)).
  change (kids reverseAll path) with (kids forwardAll path).
  apply flat_map_ext_in. intros q _. apply IH.
Qed.

(** X16. On a trie state, the iteration over [reverseAll] is the iteration
    over [forwardAll] read backwards. *)
Theorem Range_reverse_all (n : node V) :
  reachable zero n ->
  collect (Range n reverseAll) = rev (collect (Range n forwardAll)).
Proof.
  intros Hr. destruct (reachable_invariants zero n Hr) as [Hs _].
  rewrite (collect_Range n reverseAll Hs (reverse_high_inclusive reverseAll)).
  rewrite (collect_Range n forwardAll Hs (reverse_high_inclusive forwardAll)).
  cbn [IsReverse reverseAll forwardAll dir]. rewrite walk_all.
  rewrite <- fmap_rev, <- filter_rev. reflexivity.
Qed.

Local Instance key_lt_trans' : Transitive key_lt.
Proof. intros a b' c. apply cmp_lt_trans. Qed.

Local Instance key_gt_trans' : Transitive (flip key_lt).
Proof. intros a b' c H1 H2. unfold flip in *. now transitivity b'. Qed.

Lemma sorted_fst {A B} (R : relation A) (l : list (A * B)) :
  StronglySorted R l.*1 -> StronglySorted (fun x y => R x.1 y.1) l.
Proof.
  induction l as [|x l IH]; [constructor|]. rewrite fmap_cons.
  inversion 1 as [|? ? Hs Hx]; subst. constructor; [auto|].
  rewrite Forall_fmap in Hx. exact Hx.
Qed.

Lemma sorted_fst_filter {A B} (R : relation A) (f : A * B -> bool) (l : list (A * B)) :
  StronglySorted R l.*1 -> StronglySorted (fun x y => R x.1 y.1) (List.filter f l).
Proof.
  intros H. apply sorted_fst in H. induction H as [|x l Hs IH Hx]; simpl; [constructor|].
  destruct (f x); [|exact IH]. constructor; [exact IH|].
  rewrite Forall_forall in *. intros y Hy. apply Hx.
  apply list_elem_of_In, filter_In in Hy as [Hy _]. now apply list_elem_of_In.
Qed.

(** Two lists of pairs in the order of [Range], no key twice, with the same
    members are the same list. *)
Lemma ranged_eq (rv : bool) (l1 l2 : list (list byte * V)) :
  StronglySorted (fun x y => (if rv then flip key_lt else key_lt) x.1 y.1) l1 ->
  StronglySorted (fun x y => (if rv then flip key_lt else key_lt) x.1 y.1) l2 ->
  (forall e, e ∈ l1 <-> e ∈ l2) -> l1 = l2.
Proof.
  intros H1 H2 Hm. eapply sorted_members_eq; eauto.
  - intros x. destruct rv; apply cmp_lt_irrefl.
  - intros x y z. destruct rv; simpl; unfold flip; intros Ha Hb.
    + eapply cmp_lt_trans; eauto.
    + eapply cmp_lt_trans; eauto.
Qed.

(** X17. On a trie state, after [Delete] of a key [Range] yields, for any
    bounds, what it yielded before without the pair of the key. *)
Theorem Range_after_Delete (n : node V) (k : list byte) (b : Bounds) :
  reachable zero n ->
  exists n' r,
    Delete zero n (Some k) = Returned (n', r) /\
    collect (Range n' b)
    = List.filter (fun e => negb (same_key k e.1)) (collect (Range n b)).
Proof.
  intros Hr. destruct (reachable_invariants zero n Hr) as [Hs _].
  exists (del_root zero n k).1, (del_root zero n k).2.
  assert (Hd : Delete zero n (Some k)
               = Returned ((del_root zero n k).1, (del_root zero n k).2)).
  { rewrite Delete_del_root. now destruct (del_root zero n k). }
  split; [exact Hd|].
  assert (Hr' : reachable zero (del_root zero n k).1) by (eapply reach_Delete; eauto).
  destruct (reachable_invariants zero _ Hr') as [Hs' _].
  destruct (Range_spec zero n b Hs (reverse_high_inclusive b)) as [Ho Hm].
  destruct (Range_spec zero _ b Hs' (reverse_high_inclusive b)) as [Ho' Hm'].
  apply (ranged_eq (IsReverse b)).
  - apply sorted_fst. destruct (IsReverse b); exact Ho'.
  - apply sorted_fst_filter. destruct (IsReverse b); exact Ho.
  - intros [k' v']. rewrite Hm', list_elem_of_In, filter_In, <- list_elem_of_In, Hm.
    cbn [fst]. rewrite negb_true_iff.
    destruct (same_key k k') eqn:E.
    + apply same_key_eq in E as <-. rewrite del_root_get_same by exact Hs.
      split; [intros [[=] _] | intros [_ [=]]].
    + assert (k' <> k).
      { intros ->. rewrite (proj2 (same_key_eq k k) eq_refl) in E. discriminate. }
      rewrite del_root_get_other by auto. tauto.
Qed.

(** X18. On a trie state, after [Put] of a key [Range] yields, for any
    bounds, the pairs of the other keys as before; it yields the key
    exactly when the key satisfies both edges, and then with the value
    that was put. *)
Theorem Range_after_Put (n : node V) (k : list byte) (v : V) (b : Bounds) :
  reachable zero n ->
  exists n' r,
    Put zero n (Some k) v = Returned (n', r) /\
    List.filter (fun e => negb (same_key k e.1)) (collect (Range n' b))
    = List.filter (fun e => negb (same_key k e.1)) (collect (Range n b)) /\
    forall v', (k, v') ∈ collect (Range n' b) <->
               v' = v /\ satisfies_low b k /\ satisfies_high b k.
Proof.
  intros Hr. destruct (reachable_invariants zero n Hr) as [Hs _].
  destruct (put_returns zero k n v) as (n' & r & Hp). exists n', r.
  split; [exact Hp|].
  assert (Hr' : reachable zero n') by (eapply reach_Put; eauto).
  destruct (reachable_invariants zero _ Hr') as [Hs' _].
  destruct (Range_spec zero n b Hs (reverse_high_inclusive b)) as [Ho Hm].
  destruct (Range_spec zero _ b Hs' (reverse_high_inclusive b)) as [Ho' Hm'].
  split.
  - apply (ranged_eq (IsReverse b)).
    + apply sorted_fst_filter. destruct (IsReverse b); exact Ho'.
    + apply sorted_fst_filter. destruct (IsReverse b); exact Ho.
    + intros [k' v'].
      rewrite !list_elem_of_In, !filter_In, <- !list_elem_of_In, Hm, Hm'.
      cbn [fst]. rewrite negb_true_iff.
      destruct (same_key k k') eqn:E; [split; intros [_ [=]]|].
      assert (k' <> k).
      { intros ->. rewrite (proj2 (same_key_eq k k) eq_refl) in E. discriminate. }
      rewrite (put_get_other zero _ _ _ _ _ k' Hp) by auto. tauto.
  - intros v'. rewrite Hm', (put_get zero _ _ _ _ _ Hp). unfold within.
    rewrite andb_true_iff, above_low_iff, below_high_iff.
    split; [intros [[= <-] ?]; auto | intros [-> ?]; auto].
Qed.

End MoreRangeFacts.

(** ** The loop of Range and the answer of Compare *)

Section RangeLoop.

Context {V : Type}.

(** The visits of a loop that records them: a prefix of what the iterator
    has to push; every visit but the last was answered [true], and when the
    loop ends before the iterator does, the last visit was answered
    [false]. *)
Lemma run_traced_last {T S} (y : T -> S -> S * bool) (l : list T) : forall log s,
  exists pre,
    (run l (traced y) (log, s)).1.1 = log ++ pre /\
    pre `prefix_of` l /\
    (forall i x, pre !! i = Some x -> Datatypes.S i < length pre ->
                 exists s', (y x s').2 = true) /\
    (length pre < length l ->
     exists x s', last pre = Some x /\ (y x s').2 = false).
Proof.
  induction l as [|x l IH]; intros log s; simpl.
  - exists []. rewrite app_nil_r. repeat split; [reflexivity| |].
    + intros i x Hi. discriminate.
    + simpl. lia.
  - destruct (y x s) as [s' ok] eqn:Hy. destruct ok.
    + destruct (IH (log ++ [x]) s') as (pre & Hlog & Hpre & Hok & Hlast).
      exists (x :: pre). rewrite Hlog, <- app_assoc. repeat split.
      * now apply prefix_cons.
      * intros [|i] z Hi Hlt; simpl in *.
        -- injection Hi as <-. exists s. now rewrite Hy.
        -- apply (Hok i z Hi). lia.
      * simpl. intros Hlt. destruct Hlast as (z & t & Hz & Ht); [lia|].
        exists z, t. split; [|exact Ht].
        destruct pre as [|a pre]; [discriminate|]. exact Hz.
    + exists [x]. simpl. repeat split.
      * apply prefix_cons, prefix_nil.
      * intros i z Hi Hlt. simpl in Hlt. lia.
      * intros _. exists x, s. now rewrite Hy.
Qed.

(** X24. The walk of [Range], on any tree and for any bounds and consumer,
    is its loop over the paths the engine pushes; and whatever paths the
    iterator has to push, the loop takes them in order, a path for which
    [Compare] answers above is the last it takes, the paths after it are
    never visited, and a path for which [Compare] answers below does not
    end the loop: the next path, if there is one, is visited too. *)
Theorem Range_loop_stops_when_above {S : Type} (n : node V) (b : Bounds)
    (yield : list byte -> V -> S -> S * bool) (s : S) :
  visited n b yield s = loop_visits b (range_paths n b) yield s /\
  forall l : list (rangePath V),
    loop_visits b l yield s `prefix_of` l /\
    (forall i p,
       loop_visits b l yield s !! i = Some p ->
       (0 < Compare b (rp_key p))%Z ->
       Datatypes.S i = length (loop_visits b l yield s)) /\
    (forall i p,
       loop_visits b l yield s !! i = Some p ->
       (Compare b (rp_key p) < 0)%Z ->
       Datatypes.S i < length l ->
       Datatypes.S i < length (loop_visits b l yield s)).
Proof.
  split.
  { unfold visited, loop_visits, Clone. now rewrite pathItr_run. }
  intros l. unfold loop_visits.
  destruct (run_traced_last (range_step b yield) l [] s)
    as (pre & -> & Hpre & Hok & Hlast).
  cbn [app]. split; [exact Hpre|]. split.
  - intros i p Hi Habove.
    pose proof (lookup_lt_Some _ _ _ Hi) as Hlt.
    destruct (decide (Datatypes.S i < length pre)) as [Hmore|]; [|lia].
    destruct (Hok i p Hi Hmore) as [s' Hs']. unfold range_step in Hs'.
    apply Z.ltb_lt in Habove. rewrite Habove in Hs'.
    destruct (Compare b (rp_key p) <? 0)%Z eqn:Hb; [|discriminate].
    apply Z.ltb_lt in Hb, Habove. lia.
  - intros i p Hi Hbelow Hnext.
    pose proof (lookup_lt_Some _ _ _ Hi) as Hlt.
    destruct (decide (Datatypes.S i < length pre)) as [|Hend]; [assumption|].
    exfalso. destruct Hlast as (x & s' & Hx & Hs'); [lia|].
    rewrite last_lookup in Hx.
    replace (pred (length pre)) with i in Hx by lia.
    rewrite Hi in Hx. injection Hx as <-.
    unfold range_step in Hs'. apply Z.ltb_lt in Hbelow. rewrite Hbelow in Hs'.
    discriminate.
Qed.

End RangeLoop.

(** ** The engine on paths *)

Section PathWalks.

Context {T : Type}.
Variable adj : Paths.adjFunction T.
Variable adjl : list T -> list T.
Hypothesis adj_list : forall path S (y : T -> S -> S * bool) s,
  adj path S y s = (run (adjl path) y s).1.

Lemma run_flat_map {A B S} (g : A -> list B) (y : B -> S -> S * bool)
    (l : list A) s :
  (run l (fun x '(s2, _) =>
            let '(s3, done) := run (g x) y s2 in ((s3, done), negb done))
       (s, false)).1
  = run (flat_map g l) y s.
Proof.
  revert s. induction l as [|x l IH]; intros s; simpl; [reflexivity|].
  rewrite run_app. destruct (run (g x) y s) as [s3 done]. destruct done; simpl.
  - reflexivity.
  - apply IH.
Qed.

Lemma Paths_preOrderRecurse_run {S} fuel :
  forall path (y : list T -> S -> S * bool) s,
  Paths.preOrderRecurse fuel path adj y s = run (paths_list fuel adjl path) y s.
Proof using adj_list.
  induction fuel as [|fuel IH]; intros path y s; simpl; [reflexivity|].
  destruct (y path s) as [s1 ok]. destruct ok; simpl; [|reflexivity].
  rewrite adj_list, <- run_flat_map. f_equal. apply run_ext.
  intros x [s2 d]. now rewrite IH.
Qed.

Lemma flat_map_split {A B} (f : A -> list B) (l : list A) : forall l1 q l2,
  flat_map f l = l1 ++ q :: l2 ->
  exists la x lb m1 m2,
    l = la ++ x :: lb /\ f x = m1 ++ q :: m2 /\ l1 = flat_map f la ++ m1.
Proof.
  induction l as [|a l IH]; intros l1 q l2 H; simpl in H.
  - now destruct l1.
  - apply app_eq_app in H as [l' [[H1 H2]|[H1 H2]]].
    + destruct l' as [|b l''].
      * simpl in H2. symmetry in H2. destruct (IH [] q l2 H2) as (la & x & lb & m1 & m2 & E1 & E2 & E3).
        exists (a :: la), x, lb, m1, m2. rewrite E1. split; [reflexivity|].
        split; [exact E2|]. simpl. rewrite <- app_assoc, <- E3, H1, !app_nil_r. reflexivity.
      * injection H2 as <- _. exists [], a, l, l1, l''. simpl. auto.
    + destruct (IH _ _ _ H2) as (la & x & lb & m1 & m2 & E1 & E2 & E3).
      exists (a :: la), x, lb, m1, m2. rewrite E1. split; [reflexivity|].
      split; [exact E2|]. simpl. rewrite <- app_assoc, <- E3. exact H1.
Qed.

Lemma paths_list_parent fuel : forall path l1 q l2,
  paths_list fuel adjl path = l1 ++ q :: l2 ->
  (l1 = [] /\ q = path) \/
  exists parent x, q = parent ++ [x] /\ x ∈ adjl parent /\ parent ∈ l1.
Proof.
  induction fuel as [|fuel IH]; intros path l1 q l2 H; simpl in H.
  - now destruct l1.
  - destruct l1 as [|a l1]; simpl in H.
    + injection H as <- _. now left.
    + injection H as <- H. right.
      apply flat_map_split in H as (la & x & lb & m1 & m2 & E1 & E2 & ->).
      destruct (IH _ _ _ _ E2) as [[-> ->]|(parent & y & -> & Hy & Hp)].
      * exists path, x. split; [reflexivity|]. split; [|left].
        rewrite E1. apply elem_of_app. right. left.
      * exists parent, y. split; [reflexivity|]. split; [exact Hy|].
        right. apply elem_of_app. now right.
Qed.

Lemma paths_list_more fuel : forall path more,
  deep_enough fuel adjl path = true ->
  paths_list (fuel + more) adjl path = paths_list fuel adjl path.
Proof.
  induction fuel as [|fuel IH]; intros path more Hd; [discriminate|].
  cbn [deep_enough] in Hd. rewrite forallb_forall in Hd.
  cbn [Nat.add paths_list]. f_equal. apply flat_map_ext_in.
  intros x Hx. apply IH, Hd, Hx.
Qed.

(** Fuel that reaches the depth of the graph is enough: with more fuel the
    engine goes through the same paths and leaves the consumer in the same
    state. *)
Lemma Paths_enough_fuel {S} fuel more path (y : list T -> S -> S * bool) s :
  deep_enough fuel adjl path = true ->
  Paths.preOrderRecurse (fuel + more) path adj y s
  = Paths.preOrderRecurse fuel path adj y s.
Proof using adj_list.
  intros Hd. rewrite !Paths_preOrderRecurse_run. now rewrite paths_list_more.
Qed.

(** X19. On a graph whose adjacency pushes a finite list of nodes for each
    path and that is at most [fuel] nodes deep below the root, the engine on
    paths, with that fuel or more, pushes in order and until the consumer
    answers [false] one and the same list of paths; the list begins with the
    root alone, and every later path extends an earlier one by a node the
    adjacency gives for it: a path is yielded before its extensions. *)
Theorem Paths_preOrder_parent_first (fuel : nat) (root : T) (S : Type)
    (yield : list T -> S -> S * bool) (s : S) :
  deep_enough fuel adjl [root] = true ->
  (forall more,
     Paths.preOrder (fuel + more) root adj S yield s
     = (run (paths_list fuel adjl [root]) yield s).1) /\
  (exists rest, paths_list fuel adjl [root] = [root] :: rest) /\
  forall l1 q l2,
    paths_list fuel adjl [root] = l1 ++ q :: l2 ->
    (l1 = [] /\ q = [root]) \/
    exists parent x, q = parent ++ [x] /\ x ∈ adjl parent /\ parent ∈ l1.
Proof using adj_list.
  intros Hd. split; [|split].
  - intros more. unfold Paths.preOrder.
    now rewrite Paths_enough_fuel, Paths_preOrderRecurse_run.
  - destruct fuel as [|fuel]; [discriminate|]. cbn [paths_list]. eauto.
  - apply paths_list_parent.
Qed.

End PathWalks.

(** ** The keys of the fuzz tests and of the benchmarks *)

Section FuzzKeys.

Lemma to_N_byte_of_N x : Byte.to_N (byte_of_N x) = (x mod 256)%N.
Proof.
  unfold byte_of_N. destruct (Byte.of_N (x mod 256)) as [b|] eqn:E.
  - now apply Byte.to_of_N in E.
  - apply Byte.of_N_None_iff in E.
    pose proof (N.mod_upper_bound x 256). lia.
Qed.

(** X20. The length of the key [keyForFuzzInputs] makes is given by the
    size byte alone, as the table in the code has it: 0 for 0x00, 1 for
    0x01-0x03, 2 for 0x04-0x0F, 3 for 0x10-0x3F and 4 for 0x40-0xFF. *)
Theorem keyForFuzzInputs_length (key : N) (size : byte) :
  length (keyForFuzzInputs key size)
  = if (Byte.to_N size <? 0x01)%N then 0
    else if (Byte.to_N size <? 0x04)%N then 1
    else if (Byte.to_N size <? 0x10)%N then 2
    else if (Byte.to_N size <? 0x40)%N then 3
    else 4.
Proof. destruct size; reflexivity. Qed.

Lemma keySize_loop_le size n : keySize_loop size n <= n.
Proof.
  induction n as [|n IH]; simpl; [lia|].
  destruct (negb _); lia.
Qed.

(** X21. The key [keyForFuzzInputs] makes is the low-order bytes of the
    number, the high-order one first: read as a number it is [key] modulo
    256 to the power of its length. *)
Theorem keyForFuzzInputs_low_bytes (key : N) (size : byte) :
  be_value (keyForFuzzInputs key size)
  = (key mod 256 ^ N.of_nat (length (keyForFuzzInputs key size)))%N.
Proof.
  unfold keyForFuzzInputs.
  pose proof (keySize_loop_le size 4) as Hle.
  destruct (keySize_loop size 4) as [|[|[|[|[|m]]]]]; [| | | |  |lia];
    cbn [Nat.sub drop AppendUint32 length be_value foldl];
    rewrite ?to_N_byte_of_N, ?N.shiftr_div_pow2;
    change (N.of_nat 0) with 0%N; change (N.of_nat 1) with 1%N;
    change (N.of_nat 2) with 2%N; change (N.of_nat 3) with 3%N;
    change (N.of_nat 4) with 4%N;
    change (2 ^ 24)%N with 16777216%N; change (2 ^ 16)%N with 65536%N;
    change (2 ^ 8)%N with 256%N;
    change (256 ^ 0)%N with 1%N; change (256 ^ 1)%N with 256%N;
    change (256 ^ 2)%N with 65536%N; change (256 ^ 3)%N with 16777216%N;
    change (256 ^ 4)%N with 4294967296%N;
    zify; Z.to_euclidean_division_equations; lia.
Qed.

(** X22. The keys [FuzzRange] and [createBounds] make their bounds from are
    in strictly ascending order, whatever the two keys they start from. *)
Theorem order_keys_ascending (begin end_ : list byte) :
  key_lt (order_keys begin end_).1 (order_keys begin end_).2.
Proof.
  unfold order_keys, key_lt.
  destruct (bytes_Compare begin end_) eqn:E; cbn [fst snd].
  - apply cmp_eq in E as <-. apply cmp_extension.
  - exact E.
  - now apply cmp_gt_lt.
Qed.

Lemma cmp_cons x y a b' :
  bytes_Compare (x :: a) (y :: b')
  = match (Byte.to_N x ?= Byte.to_N y)%N with
    | Lt => Lt
    | Gt => Gt
    | Eq => bytes_Compare a b'
    end.
Proof.
  cbn [bytes_Compare]. unfold byte_ltb.
  destruct (N.compare_spec (Byte.to_N x) (Byte.to_N y)) as [H|H|H].
  - rewrite H, N.ltb_irrefl. reflexivity.
  - apply N.ltb_lt in H. now rewrite H.
  - assert (H' : (Byte.to_N x <? Byte.to_N y)%N = false) by (apply N.ltb_ge; lia).
    apply N.ltb_lt in H. now rewrite H', H.
Qed.

(** X23. In a turn of the loop of [createFixedBounds] the low key is
    strictly below the high key: the three-byte keys are in the order of
    the numbers they are made from. *)
Theorem fixed_keys_ascending (step low : N) :
  (0 < step)%N -> (low < 2 ^ 24 - step)%N ->
  key_lt (fixed_keys step low).1 (fixed_keys step low).2.
Proof.
  intros Hstep Hlow. unfold fixed_keys, key_lt. cbn [fst snd AppendUint32 byte_at nth].
  assert (H24 : (2 ^ 24 = 16777216)%N) by reflexivity.
  assert (H32 : (2 ^ 32 = 4294967296)%N) by reflexivity.
  rewrite H24 in Hlow. rewrite H32.
  rewrite !N.mod_small by lia.
  rewrite !cmp_cons, !to_N_byte_of_N, !N.shiftr_div_pow2.
  change (2 ^ 16)%N with 65536%N. change (2 ^ 8)%N with 256%N.
  set (h := (low + step)%N).
  assert (Hh : (low < h < 16777216)%N) by (unfold h; lia).
  clearbody h.
  destruct (N.compare_spec ((low / 65536) mod 256) ((h / 65536) mod 256)) as [E1|E1|E1];
    [|reflexivity|exfalso; zify; Z.to_euclidean_division_equations; lia].
  destruct (N.compare_spec ((low / 256) mod 256) ((h / 256) mod 256)) as [E2|E2|E2];
    [|reflexivity|exfalso; zify; Z.to_euclidean_division_equations; lia].
  destruct (N.compare_spec (low mod 256) (h mod 256)) as [E3|E3|E3];
    [|reflexivity|]; exfalso; zify; Z.to_euclidean_division_equations; lia.
Qed.

End FuzzKeys.

(** ** The properties on concrete inputs *)

Section MoreExamples.

Import Byte.

Lemma Delete_removes_one_key_witness :
  reachable 0 example_trie /\
  exists n' r,
    Delete 0 example_trie (Some [x10]) = Returned (n', r) /\
    Get 0 n' (Some [x10]) = Returned (0, false) /\
    forall k', k' <> [x10] -> Get 0 n' (Some k') = Get 0 example_trie (Some k').
Proof.
  split; [apply store_reachable|].
  apply (Delete_removes_one_key 0 example_trie [x10]). apply store_reachable.
Defined.

Lemma Delete_twice_witness :
  reachable 0 example_trie /\
  exists n' r,
    Delete 0 example_trie (Some [x10; x20]) = Returned (n', r) /\
    Delete 0 n' (Some [x10; x20]) = Returned (n', (0, false)).
Proof.
  split; [apply store_reachable|].
  apply (Delete_twice 0 example_trie [x10; x20]). apply store_reachable.
Defined.

Lemma search_position_witness :
  sorted_trie example_trie = true /\
  let '(i, found) := search example_trie x11 in
  i <= length (children example_trie) /\
  Forall (fun c => byte_lt (keyByte c) x11) (take i (children example_trie)) /\
  if found
  then exists c, children example_trie !! i = Some c /\ keyByte c = x11
  else Forall (fun c => byte_lt x11 (keyByte c)) (drop i (children example_trie)).
Proof.
  split; [reflexivity|].
  apply (search_position example_trie x11). reflexivity.
Defined.

Lemma non_terminal_holds_zero_witness :
  reachable 0 example_trie /\
  Forall (fun m => isTerminal m = false -> value m = 0) (nodes example_trie) /\
  keyByte example_trie = x00.
Proof.
  split; [apply store_reachable|].
  apply (non_terminal_holds_zero 0 example_trie). apply store_reachable.
Defined.

Lemma same_contents_same_trie_witness :
  reachable 0 (store 0 [([x10], 1); ([x11], 3); ([x10; x20], 2)]) /\
  reachable 0 example_trie /\
  same_contents 0 (store 0 [([x10], 1); ([x11], 3); ([x10; x20], 2)]) example_trie /\
  store 0 [([x10], 1); ([x11], 3); ([x10; x20], 2)] = example_trie.
Proof.
  assert (H : same_contents 0 (store 0 [([x10], 1); ([x11], 3); ([x10; x20], 2)])
                example_trie) by (intros k; reflexivity).
  split; [apply store_reachable|]. split; [apply store_reachable|].
  split; [exact H|].
  apply (same_contents_same_trie 0
           (store 0 [([x10], 1); ([x11], 3); ([x10; x20], 2)]) example_trie);
    [apply store_reachable | apply store_reachable | exact H].
Defined.

Lemma Put_then_Delete_restores_witness :
  reachable 0 example_trie /\
  Get 0 example_trie (Some [x10; x20; x30]) = Returned (0, false) /\
  exists n1 r,
    Put 0 example_trie (Some [x10; x20; x30]) 9 = Returned (n1, r) /\
    Delete 0 n1 (Some [x10; x20; x30]) = Returned (example_trie, (9, true)).
Proof.
  split; [apply store_reachable|]. split; [reflexivity|].
  apply (Put_then_Delete_restores 0 example_trie [x10; x20; x30] 9 0);
    [apply store_reachable | reflexivity].
Defined.

Lemma Put_order_irrelevant_witness :
  reachable 0 example_trie /\ [x12] <> [x10; x05] /\
  exists n1 n2 n' r1 r2,
    Put 0 example_trie (Some [x12]) 4 = Returned (n1, r1) /\
    Put 0 n1 (Some [x10; x05]) 5 = Returned (n', r2) /\
    Put 0 example_trie (Some [x10; x05]) 5 = Returned (n2, r2) /\
    Put 0 n2 (Some [x12]) 4 = Returned (n', r1).
Proof.
  split; [apply store_reachable|]. split; [discriminate|].
  apply (Put_order_irrelevant 0 example_trie [x12] [x10; x05] 4 5);
    [apply store_reachable | discriminate].
Defined.

Lemma Put_overwrites_witness :
  reachable 0 example_trie /\
  exists n1 n2 r,
    Put 0 example_trie (Some [x10]) 4 = Returned (n1, r) /\
    Put 0 n1 (Some [x10]) 5 = Returned (n2, (4, true)) /\
    Put 0 example_trie (Some [x10]) 5 = Returned (n2, r).
Proof.
  split; [apply store_reachable|].
  apply (Put_overwrites 0 example_trie [x10] 4 5). apply store_reachable.
Defined.

Lemma child_loops_mirror_witness :
  StronglySorted node_lt (children example_trie) /\
  forward_loop (children example_trie) x10 x11 [] keep_two []
  = (run (child_path [] <$> List.filter (in_range x10 x11) (children example_trie))
       keep_two []).1 /\
  reverse_loop (rev (children example_trie)) x11 x10 [] keep_two []
  = (run (rev (child_path [] <$> List.filter (in_range x10 x11)
                                   (children example_trie)))
       keep_two []).1.
Proof.
  assert (H : StronglySorted node_lt (children example_trie)).
  { repeat constructor. }
  split; [exact H|].
  apply (child_loops_mirror (children example_trie) x10 x11 [] _ keep_two [] H).
Defined.

Lemma Range_reverse_all_witness :
  reachable 0 example_trie /\
  collect (Range example_trie reverseAll)
  = rev (collect (Range example_trie forwardAll)).
Proof.
  split; [apply store_reachable|].
  apply (Range_reverse_all 0 example_trie). apply store_reachable.
Defined.

Lemma Range_after_Delete_witness :
  reachable 0 example_trie /\
  exists n' r,
    Delete 0 example_trie (Some [x10]) = Returned (n', r) /\
    collect (Range n' (To (From [x10]) [x11]))
    = List.filter (fun e => negb (same_key [x10] e.1))
        (collect (Range example_trie (To (From [x10]) [x11]))).
Proof.
  split; [apply store_reachable|].
  apply (Range_after_Delete 0 example_trie [x10] (To (From [x10]) [x11])).
  apply store_reachable.
Defined.

Lemma Range_after_Put_witness :
  reachable 0 example_trie /\
  exists n' r,
    Put 0 example_trie (Some [x10; x05]) 4 = Returned (n', r) /\
    List.filter (fun e => negb (same_key [x10; x05] e.1))
      (collect (Range n' (DownTo (From [x11]) [x10])))
    = List.filter (fun e => negb (same_key [x10; x05] e.1))
        (collect (Range example_trie (DownTo (From [x11]) [x10]))) /\
    forall v', (([x10; x05], v') : list byte * nat)
                 ∈ collect (Range n' (DownTo (From [x11]) [x10])) <->
               v' = 4 /\ satisfies_low (DownTo (From [x11]) [x10]) [x10; x05] /\
               satisfies_high (DownTo (From [x11]) [x10]) [x10; x05].
Proof.
  split; [apply store_reachable|].
  apply (Range_after_Put 0 example_trie [x10; x05] 4 (DownTo (From [x11]) [x10])).
  apply store_reachable.
Defined.

(** The loop of [Range] over two paths, the first on the exclusive high
    edge key: [Compare] answers above for it, and the second path, which is
    within the bounds, is not visited. *)
Example loop_stops_on_first :
  rp_key <$> loop_visits (To (From [x10]) [x11])
               [RangePath (Node 3 [] x11 true) [x11];
                RangePath (Node 1 [] x10 true) [x10]]
               (fun k w acc => (acc ++ [(k, w)], true)) []
  = [[x11]].
Proof. reflexivity. Qed.

Lemma Paths_preOrder_parent_first_witness :
  (forall path S (y : nat -> S -> S * bool) s,
     example_adj path S y s = (run (example_adjl path) y s).1) /\
  deep_enough 3 example_adjl [0] = true /\
  (forall more,
     Paths.preOrder (3 + more) 0 example_adj (list (list nat))
       (fun p acc => (acc ++ [p], length acc <? 4)) []
     = (run (paths_list 3 example_adjl [0])
          (fun p acc => (acc ++ [p], length acc <? 4)) []).1) /\
  (exists rest, paths_list 3 example_adjl [0] = [0] :: rest) /\
  forall l1 q l2,
    paths_list 3 example_adjl [0] = l1 ++ q :: l2 ->
    (l1 = [] /\ q = [0]) \/
    exists parent x, q = parent ++ [x] /\ x ∈ example_adjl parent /\ parent ∈ l1.
Proof.
  split; [reflexivity|]. split; [reflexivity|].
  apply (Paths_preOrder_parent_first example_adj example_adjl
           (fun path S y s => eq_refl) 3 0 (list (list nat))
           (fun p acc => (acc ++ [p], length acc <? 4)) []).
  reflexivity.
Defined.

Lemma fixed_keys_ascending_witness :
  (0 < 256)%N /\ (128 < 2 ^ 24 - 256)%N /\
  key_lt (fixed_keys 256 128).1 (fixed_keys 256 128).2.
Proof.
  split; [reflexivity|]. split; [reflexivity|].
  apply (fixed_keys_ascending 256 128); reflexivity.
Defined.

End MoreExamples.
